(** * Mnemosynth: the text helpers and the conversation handlers of
      [src/f5_tts/infer/infer_gradio.py]

    A shallow embedding of [traducir_numero_a_texto], [parse_speechtypes_text],
    the text shaping of [infer], and the chat handlers [process_audio_input],
    [generate_audio_response], [clear_conversation] and [update_system_prompt].

    Python strings are sequences of Unicode code points: a character is a
    code point in [N], a string is a list of them.  The regular
    expressions of the module are written as values of a small regex type
    and run by a backtracking matcher; [re.sub] and [re.split] are loops
    over that matcher.  A call returns a value or raises: [int] and
    [num2words] raise on the numbers they refuse, and with them
    [traducir_numero_a_texto] and [infer]. *)

From Stdlib Require Import String Ascii.
From Stdlib Require Import NArith Bool Arith Lia List.
Import ListNotations.

Set Implicit Arguments.

(* ===================================================================== *)
(** ** Strings *)
(* ===================================================================== *)

Definition char := N.
Definition str := list char.

(** A literal of ASCII text as a Python string. *)
Definition py (s : string) : str := map N_of_ascii (list_ascii_of_string s).

(** Python truthiness of a string: the empty string is falsy. *)
Definition truthy (s : str) : bool :=
  match s with [] => false | _ :: _ => true end.

(** [s.startswith(p)]. *)
Fixpoint startswith (p s : str) : bool :=
  match p, s with
  | [], _ => true
  | a :: p', b :: s' => (a =? b)%N && startswith p' s'
  | _ :: _, [] => false
  end.

(** [s.endswith(p)]. *)
Definition endswith (p s : str) : bool := startswith (rev p) (rev s).

(** [a == b] on strings. *)
Fixpoint str_eqb (a b : str) : bool :=
  match a, b with
  | [], [] => true
  | x :: a', y :: b' => (x =? y)%N && str_eqb a' b'
  | _, _ => false
  end.

(* Code points used by name below. *)
Definition SPACE : char := 32%N.
Definition DOT : char := 46%N.
Definition UNDERSCORE : char := 95%N.
Definition LBRACE : char := 123%N.
Definition RBRACE : char := 125%N.
Definition NEWLINE : char := 10%N.

(** The class [[A-Za-z]]. *)
Definition is_ascii_upper (c : char) : bool := ((65 <=? c) && (c <=? 90))%N.
Definition is_ascii_lower (c : char) : bool := ((97 <=? c) && (c <=? 122))%N.
Definition is_ascii_letter (c : char) : bool := is_ascii_upper c || is_ascii_lower c.
Definition is_ascii_digit (c : char) : bool := ((48 <=? c) && (c <=? 57))%N.

(** [str.isspace] for one character (the whitespace set of CPython's
    [_PyUnicode_IsWhitespace]); [str.strip()] removes these. *)
Definition is_space (c : char) : bool :=
  (((9 <=? c) && (c <=? 13)) || ((28 <=? c) && (c <=? 32))
   || (c =? 133) || (c =? 160) || (c =? 5760)
   || ((8192 <=? c) && (c <=? 8202))
   || (c =? 8232) || (c =? 8233) || (c =? 8239) || (c =? 8287)
   || (c =? 12288))%N.

Fixpoint lstrip (s : str) : str :=
  match s with
  | c :: t => if is_space c then lstrip t else s
  | [] => []
  end.

Definition rstrip (s : str) : str := rev (lstrip (rev s)).

(** [s.strip()]. *)
Definition strip (s : str) : str := rstrip (lstrip s).

(* ===================================================================== *)
(** ** Calls that return or raise *)
(* ===================================================================== *)

Inductive exn : Type :=
| IndexError                (* list index out of range *)
| ValueError                (* [int()] on more digits than the interpreter converts *)
| OverflowError             (* [num2words] on a number beyond the ones it spells *)
| ServiceError.             (* whatever a model or audio routine raises *)

(** What a call does: return a value or raise. *)
Inductive outcome (A : Type) : Type :=
| Returned (a : A)
| Raised (e : exn).
Arguments Returned {A} a.
Arguments Raised {A} e.

(** Sequencing of calls that may raise. *)
Definition and_then {A B} (r : outcome A) (k : A -> outcome B) : outcome B :=
  match r with
  | Returned a => k a
  | Raised e => Raised e
  end.

(* ===================================================================== *)
(** ** What the module takes from outside

    The Unicode tables of the interpreter above the ASCII range, its limit
    on the digits [int()] converts, and the [num2words] package are not part
    of this module.  They are the fields of an environment; below 128 the
    classes are fixed by ASCII. *)
(* ===================================================================== *)

Class PyEnv : Type := {
  (** digit value of a decimal digit at or above 128 ([Py_UNICODE_TODECIMAL]) *)
  hi_decimal : char -> option N;
  (** [str.isalpha] at or above 128 *)
  hi_alpha : char -> bool;
  (** [str.isdigit] or [str.isnumeric] at or above 128 *)
  hi_numeric : char -> bool;
  (** lower-case mapping of a character at or above 128, given the text
      before and after it ([str.lower] looks at the context for a final
      sigma and may return more than one character) *)
  hi_lower : str -> char -> str -> str;
  (** [sys.get_int_max_str_digits()]: 4300 unless set otherwise, 0 for no
      limit (also an interpreter that has none) *)
  int_max_str_digits : nat;
  (** [num2words(n, lang='es')]: the spelling of [n], or [None] where the
      package raises [OverflowError], which it does from its largest
      number on *)
  num2words_es : N -> option str
}.

Section Unicode.
Context {E : PyEnv}.

(** [Py_UNICODE_TODECIMAL]: the value of a decimal digit, if it is one. *)
Definition to_decimal (c : char) : option N :=
  if (c <? 128)%N then
    if is_ascii_digit c then Some (c - 48)%N else None
  else hi_decimal c.

(** The class [\d] of a [str] pattern: any Unicode decimal digit. *)
Definition is_digit (c : char) : bool :=
  match to_decimal c with Some _ => true | None => false end.

(** [str.isalpha] for one character. *)
Definition is_alpha (c : char) : bool :=
  if (c <? 128)%N then is_ascii_letter c else hi_alpha c.

(** [Py_UNICODE_ISALNUM]: alpha, decimal, digit or numeric. *)
Definition is_alnum (c : char) : bool :=
  is_alpha c || is_digit c || (if (c <? 128)%N then false else hi_numeric c).

(** The class [\w] of a [str] pattern. *)
Definition is_word (c : char) : bool := is_alnum c || (c =? UNDERSCORE)%N.

(** [\w] for the character next to a position; false at either end of
    the text. *)
Definition is_word_at (s : str) : bool :=
  match s with c :: _ => is_word c | [] => false end.

(** [int(s)] on a run of decimal digits, most significant first (the
    only strings [\d+] hands to it).  A string of more than 640 digits,
    leading zeros counted, is refused with [ValueError] when a limit is set
    and the string has more digits than the limit. *)
Definition digit_value (c : char) : N :=
  match to_decimal c with Some d => d | None => 0%N end.

Definition int_value (s : str) : N :=
  fold_left (fun acc c => (10 * acc + digit_value c)%N) s 0%N.

Definition int_refuses (digits : nat) : bool :=
  (640 <? digits)%nat && (0 <? int_max_str_digits)%nat
  && (int_max_str_digits <? digits)%nat.

Definition py_int (s : str) : outcome N :=
  if int_refuses (length s) then Raised ValueError else Returned (int_value s).

(** [num2words(n, lang='es')] as a call. *)
Definition num2words (n : N) : outcome str :=
  match num2words_es n with
  | Some words => Returned words
  | None => Raised OverflowError
  end.

(** [str.lower()]. *)
Definition lower_char (bef : str) (c : char) (aft : str) : str :=
  if (c <? 128)%N then [if is_ascii_upper c then (c + 32)%N else c]
  else hi_lower (rev bef) c aft.

Fixpoint lower_from (bef : str) (s : str) : str :=
  match s with
  | [] => []
  | c :: t => lower_char bef c t ++ lower_from (c :: bef) t
  end.

Definition lower (s : str) : str := lower_from [] s.

End Unicode.

(* ===================================================================== *)
(** ** Regular expressions

    The fragment of Python's [re] the module uses: a character class, the
    assertion [\b], greedy [c+] and lazy [c*?] over a class, a capturing
    group and concatenation.  The matcher backtracks in the order of [re]:
    the greedy repetition gives characters back one at a time, the lazy one
    takes one more at a time. *)
(* ===================================================================== *)

Inductive regex : Type :=
| Class (p : char -> bool)
| Boundary
| Plus (p : char -> bool)
| LazyStar (p : char -> bool)
| Group (r : regex)
| Seq (r1 r2 : regex).

(** The state of a match attempt: the text before the position (nearest
    character first), the text matched so far by the innermost open group
    or by the whole pattern (last character first), the text still ahead,
    and the groups closed so far. *)
Record mstate : Type := MState {
  before : str;
  matched : str;
  after : str;
  groups : list str
}.

Section Matcher.
Context {E : PyEnv}.

Definition at_boundary (st : mstate) : bool :=
  xorb (is_word_at (before st)) (is_word_at (after st)).

Definition step (st : mstate) (c : char) (t : str) : mstate :=
  MState (c :: before st) (c :: matched st) t (groups st).

Fixpoint greedy_star (p : char -> bool) (k : mstate -> option mstate)
         (b m a : str) (g : list str) : option mstate :=
  match a with
  | c :: t =>
      if p c then
        match greedy_star p k (c :: b) (c :: m) t g with
        | Some r => Some r
        | None => k (MState b m a g)
        end
      else k (MState b m a g)
  | [] => k (MState b m a g)
  end.

Fixpoint lazy_star (p : char -> bool) (k : mstate -> option mstate)
         (b m a : str) (g : list str) : option mstate :=
  match k (MState b m a g) with
  | Some r => Some r
  | None =>
      match a with
      | c :: t => if p c then lazy_star p k (c :: b) (c :: m) t g else None
      | [] => None
      end
  end.

(** [re_match r k st]: match [r] at [st], then continue with [k]; the
    first success in backtracking order.  Groups are numbered as they
    close (no pattern of the module nests groups). *)
Fixpoint re_match (r : regex) (k : mstate -> option mstate) (st : mstate)
  : option mstate :=
  match r with
  | Class p =>
      match after st with
      | c :: t => if p c then k (step st c t) else None
      | [] => None
      end
  | Boundary => if at_boundary st then k st else None
  | Plus p =>
      match after st with
      | c :: t =>
          if p c
          then greedy_star p k (c :: before st) (c :: matched st) t (groups st)
          else None
      | [] => None
      end
  | LazyStar p => lazy_star p k (before st) (matched st) (after st) (groups st)
  | Group r' =>
      re_match r'
        (fun st' =>
           k (MState (before st') (matched st' ++ matched st) (after st')
                     (groups st' ++ [rev (matched st')])))
        (MState (before st) [] (after st) (groups st))
  | Seq r1 r2 => re_match r1 (re_match r2 k) st
  end.

(** [pattern.match] at a position: [b] is the text before it, nearest
    character first, [a] the text from it on. *)
Definition match_at (r : regex) (b a : str) : option mstate :=
  re_match r (fun st => Some st) (MState b [] a []).

(** [re.sub(r, repl, s)]: scan left to right; where the pattern matches,
    emit the replacement and go on after the match, else copy one
    character.  [repl] gets group 0 and the numbered groups.  [skip]
    counts the characters of the current match still to pass over.  No
    pattern of the module matches the empty string; an empty match is
    treated as no match. *)
Fixpoint sub_loop (r : regex) (repl : str -> list str -> str)
         (b : str) (skip : nat) (a : str) : str :=
  match skip with
  | S k =>
      match a with
      | c :: t => sub_loop r repl (c :: b) k t
      | [] => []
      end
  | O =>
      match a with
      | [] => []
      | c :: t =>
          match match_at r b a with
          | Some st =>
              match length (matched st) with
              | S k => repl (rev (matched st)) (groups st)
                         ++ sub_loop r repl (c :: b) k t
              | O => c :: sub_loop r repl (c :: b) O t
              end
          | None => c :: sub_loop r repl (c :: b) O t
          end
      end
  end.

Definition re_sub (r : regex) (repl : str -> list str -> str) (s : str) : str :=
  sub_loop r repl [] O s.

(** [re.sub(r, repl, s)] with a function for [repl]: it is called at each
    match, from left to right, and what it raises ends the substitution. *)
Fixpoint sub_loop_call (r : regex) (repl : str -> list str -> outcome str)
         (b : str) (skip : nat) (a : str) : outcome str :=
  match skip with
  | S k =>
      match a with
      | c :: t => sub_loop_call r repl (c :: b) k t
      | [] => Returned []
      end
  | O =>
      match a with
      | [] => Returned []
      | c :: t =>
          match match_at r b a with
          | Some st =>
              match length (matched st) with
              | S k =>
                  and_then (repl (rev (matched st)) (groups st)) (fun piece =>
                  and_then (sub_loop_call r repl (c :: b) k t) (fun rest =>
                  Returned (piece ++ rest)))
              | O =>
                  and_then (sub_loop_call r repl (c :: b) O t) (fun rest =>
                  Returned (c :: rest))
              end
          | None =>
              and_then (sub_loop_call r repl (c :: b) O t) (fun rest =>
              Returned (c :: rest))
          end
      end
  end.

Definition re_sub_call (r : regex) (repl : str -> list str -> outcome str)
           (s : str) : outcome str :=
  sub_loop_call r repl [] O s.

(** [re.split(r, s)] for a pattern with capturing groups: the pieces of
    text between the matches, each match contributing its groups. [acc]
    is the piece being collected, last character first. *)
Fixpoint split_loop (r : regex) (b : str) (skip : nat) (acc : str) (a : str)
  : list str :=
  match skip with
  | S k =>
      match a with
      | c :: t => split_loop r (c :: b) k acc t
      | [] => [rev acc]
      end
  | O =>
      match a with
      | [] => [rev acc]
      | c :: t =>
          match match_at r b a with
          | Some st =>
              match length (matched st) with
              | S k => rev acc :: groups st ++ split_loop r (c :: b) k [] t
              | O => split_loop r (c :: b) O (c :: acc) t
              end
          | None => split_loop r (c :: b) O (c :: acc) t
          end
      end
  end.

Definition re_split (r : regex) (s : str) : list str := split_loop r [] O [] s.

End Matcher.

(* ===================================================================== *)
(** ** [traducir_numero_a_texto] *)
(* ===================================================================== *)

Section Normalizer.
Context {E : PyEnv}.

(** [r'([A-Za-z])(\d)'] *)
Definition re_letter_digit : regex :=
  Seq (Group (Class is_ascii_letter)) (Group (Class is_digit)).

(** [r'(\d)([A-Za-z])'] *)
Definition re_digit_letter : regex :=
  Seq (Group (Class is_digit)) (Group (Class is_ascii_letter)).

(** [r'\b\d+\b'] *)
Definition re_number : regex := Seq Boundary (Seq (Plus is_digit) Boundary).

(** The template [r'\1 \2']. *)
Definition repl_space (_ : str) (g : list str) : str :=
  nth 0 g [] ++ [SPACE] ++ nth 1 g [].

(** [reemplazar_numero(match)]: [match.group()] is group 0.  Either call
    may raise. *)
Definition reemplazar_numero (numero : str) (_ : list str) : outcome str :=
  and_then (py_int numero) (fun n => num2words n).

Definition traducir_numero_a_texto (texto : str) : outcome str :=
  let texto_separado := re_sub re_letter_digit repl_space texto in
  let texto_separado := re_sub re_digit_letter repl_space texto_separado in
  let texto_traducido := re_sub_call re_number reemplazar_numero texto_separado in
  texto_traducido.

End Normalizer.

(* ===================================================================== *)
(** ** [parse_speechtypes_text] *)
(* ===================================================================== *)

Record segment : Type := Segment { style : str; text : str }.

Section SpeechTypes.
Context {E : PyEnv}.

Definition not_newline (c : char) : bool := negb (c =? NEWLINE)%N.

(** [pattern = r"\{(.*?)\}"]: the dot matches anything but a newline. *)
Definition pattern : regex :=
  Seq (Class (N.eqb LBRACE))
      (Seq (Group (LazyStar not_newline)) (Class (N.eqb RBRACE))).

(** One turn of [for i in range(len(tokens))]; the state is
    [(segments, current_style)]. *)
Definition parse_body (tokens : list str) (st : list segment * str) (i : nat)
  : list segment * str :=
  let '(segments, current_style) := st in
  if (i mod 2 =? 0)%nat then
    let text := strip (nth i tokens []) in
    if truthy text
    then (segments ++ [Segment current_style text], current_style)
    else (segments, current_style)
  else
    let style := strip (nth i tokens []) in
    (segments, style).

Definition parse_speechtypes_text (gen_text : str) : list segment :=
  let tokens := re_split pattern gen_text in
  fst (fold_left (parse_body tokens) (seq 0 (length tokens)) ([], py "Regular")).

End SpeechTypes.

(* ===================================================================== *)
(** ** The conversation: data *)
(* ===================================================================== *)

Inductive role : Type := system | user | assistant.

Record message : Type := Message { msg_role : role; content : str }.

(** One pair of the chatbot history: [(text, None)] while the reply is
    pending, [(text, response)] once it is there. *)
Definition entry : Type := (str * option str)%type.

(** The prompt literal of [conversation_state] and [clear_conversation]:
    "No eres un asistente de IA, eres quien el usuario diga que eres. Debes
    mantenerte en personaje. Manten tus respuestas concisas ya que seran
    habladas en voz alta." with e-acute (233) and a-acute (225). *)
Definition SYSTEM_PROMPT : str :=
  py "No eres un asistente de IA, eres quien el usuario diga que eres. Debes mantenerte en personaje. Mant"
    ++ [233%N] ++ py "n tus respuestas concisas ya que ser"
    ++ [225%N] ++ py "n habladas en voz alta.".

(** The mutable objects a handler works on: the two lists it is handed
    ([history], [conv_state]), changed in place by [append] and item
    assignment, and the texts [infer_process] was called with, the latest
    first. *)
Record world : Type := World {
  history : list entry;
  conv_state : list message;
  synthesized : list str
}.

(** State that survives an exception: in-place changes made before a
    raise stay made. *)
Definition M (A : Type) : Type := world -> outcome A * world.

Definition ret {A} (a : A) : M A := fun w => (Returned a, w).

Definition bind {A B} (m : M A) (k : A -> M B) : M B :=
  fun w =>
    match m w with
    | (Returned a, w') => k a w'
    | (Raised e, w') => (Raised e, w')
    end.

Declare Scope handler_scope.
Delimit Scope handler_scope with handler.
Notation "x <- m ;; k" := (bind m (fun x => k))
  (at level 61, m at next level, right associativity) : handler_scope.
Notation "m ;; k" := (bind m (fun _ => k))
  (at level 61, right associativity) : handler_scope.
Open Scope handler_scope.

Definition raise {A} (e : exn) : M A := fun w => (Raised e, w).

(** The result of a call into a collaborator. *)
Definition call {A} (r : outcome A) : M A := fun w => (r, w).

Definition get_history : M (list entry) := fun w => (Returned (history w), w).
Definition get_conv_state : M (list message) := fun w => (Returned (conv_state w), w).

(** [conv_state.append(m)] *)
Definition conv_state_append (m : message) : M unit :=
  fun w => (Returned tt, World (history w) (conv_state w ++ [m]) (synthesized w)).

(** [history.append(e)] *)
Definition history_append (e : entry) : M unit :=
  fun w => (Returned tt, World (history w ++ [e]) (conv_state w) (synthesized w)).

(** [history[-1] = e]: [IndexError] on an empty list. *)
Definition history_set_last (e : entry) : M unit :=
  fun w =>
    match history w with
    | [] => (Raised IndexError, w)
    | _ :: _ =>
        (Returned tt, World (removelast (history w) ++ [e]) (conv_state w) (synthesized w))
    end.

(** [l[-1]]: [IndexError] on an empty list. *)
Definition get_last {A} (l : list A) : M A :=
  match rev l with
  | [] => raise IndexError
  | x :: _ => ret x
  end.

Definition truthy_list {A} (l : list A) : bool :=
  match l with [] => false | _ :: _ => true end.

(** Python truthiness of [None]-or-string values. *)
Definition truthy_opt (o : option str) : bool :=
  match o with Some s => truthy s | None => false end.

(* ===================================================================== *)
(** ** The collaborators

    The models and the audio routines ([f5_tts.infer.utils_infer], the chat
    model) are outside the module; each is a function that returns or
    raises.  [Wave] is a waveform, [Spectro] a spectrogram. *)
(* ===================================================================== *)

Record Services (Wave Spectro : Type) : Type := {
  (** [preprocess_ref_audio_text(audio, text)]: processed audio and text *)
  preprocess_ref_audio_text : str -> str -> outcome (str * str);
  (** [generate_response(messages, model, tokenizer)] *)
  generate_response : list message -> outcome str;
  (** [infer_process(ref_audio, ref_text, gen_text, ...)]: wave, sample
      rate, spectrogram *)
  infer_process : str -> str -> str -> outcome (Wave * N * Spectro);
  (** lines 115-119: write the wave, [remove_silence_for_generated_wav],
      load it again *)
  remove_silence_for_generated_wav : Wave -> N -> outcome Wave;
  (** lines 122-124: [save_spectrogram] to a fresh file, its path *)
  save_spectrogram : Spectro -> outcome str
}.

Section Handlers.
Context {E : PyEnv}.
Context {Wave Spectro : Type}.
Variable svc : Services Wave Spectro.

(** Lines 93-99 of [infer]: the text that goes to [infer_process], unless
    the normalizer raises. *)
Definition infer_gen_text (gen_text : str) : outcome str :=
  let gen_text :=
    if negb (startswith (py " ") gen_text) then py " " ++ gen_text else gen_text in
  let gen_text :=
    if negb (endswith (py ". ") gen_text) then gen_text ++ py ". " else gen_text in
  let gen_text := lower gen_text in
  traducir_numero_a_texto gen_text.

(** The call of [infer_process] at lines 101-111: the world notes the text
    it is called with. *)
Definition call_infer_process (ref_audio ref_text gen_text : str)
  : M (Wave * N * Spectro) :=
  fun w =>
    (infer_process svc ref_audio ref_text gen_text,
     World (history w) (conv_state w) (gen_text :: synthesized w)).

Definition infer (ref_audio_orig ref_text gen_text model : str) (remove_silence : bool)
  : M ((N * Wave) * str) :=
  r <- call (preprocess_ref_audio_text svc ref_audio_orig ref_text) ;;
  let '(ref_audio, ref_text) := r in
  gen_text <- call (infer_gen_text gen_text) ;;
  p <- call_infer_process ref_audio ref_text gen_text ;;
  let '(final_wave, final_sample_rate, combined_spectrogram) := p in
  final_wave <-
    (if remove_silence
     then call (remove_silence_for_generated_wav svc final_wave final_sample_rate)
     else ret final_wave) ;;
  spectrogram_path <- call (save_spectrogram svc combined_spectrogram) ;;
  ret ((final_sample_rate, final_wave), spectrogram_path).

(** Lines 264-265: the user message and the pending pair. *)
Definition append_user_turn (text : str) : M unit :=
  conv_state_append (Message user text) ;;
  history_append (text, None).

(** Lines 269-270: the assistant message and the filled pair. *)
Definition complete_turn (text response : str) : M unit :=
  conv_state_append (Message assistant response) ;;
  history_set_last (text, Some response).

Definition process_audio_input (audio_path : option str) (text : str)
  : M (list entry * list message * str) :=
  if negb (truthy_opt audio_path) && negb (truthy (strip text)) then
    history <- get_history ;; conv_state <- get_conv_state ;;
    ret (history, conv_state, [])
  else
    text <-
      (match audio_path with
       | Some p =>
           if truthy p
           then r <- call (preprocess_ref_audio_text svc p text) ;; ret (snd r)
           else ret text
       | None => ret text
       end) ;;
    if negb (truthy (strip text)) then
      history <- get_history ;; conv_state <- get_conv_state ;;
      ret (history, conv_state, [])
    else
      append_user_turn text ;;
      conv_state <- get_conv_state ;;
      response <- call (generate_response svc conv_state) ;;
      complete_turn text response ;;
      history <- get_history ;; conv_state <- get_conv_state ;;
      ret (history, conv_state, []).

Definition generate_audio_response (ref_audio : option str) (ref_text model : str)
           (remove_silence : bool) : M (option (N * Wave)) :=
  history <- get_history ;;
  if negb (truthy_list history) || negb (truthy_opt ref_audio) then ret None
  else
    last <- get_last history ;;
    let '(last_user_message, last_ai_response) := last in
    if negb (truthy_opt last_ai_response) then ret None
    else
      r <- infer (match ref_audio with Some p => p | None => [] end)
                 ref_text
                 (match last_ai_response with Some t => t | None => [] end)
                 model remove_silence ;;
      let '(audio_result, _) := r in
      ret (Some audio_result).

End Handlers.

(** [clear_conversation()]: the new values of the chatbot and of the
    conversation state. *)
Definition clear_conversation : list entry * list message :=
  ([], [Message system SYSTEM_PROMPT]).

(** [update_system_prompt(new_prompt)] *)
Definition update_system_prompt (new_prompt : str) : list entry * list message :=
  let new_conv_state := [Message system new_prompt] in
  ([], new_conv_state).

(** An event whose outputs are [chatbot_interface, conversation_state]
    stores what the handler returned in the two components. *)
Definition store_outputs (out : list entry * list message) (w : world) : world :=
  World (fst out) (snd out) (synthesized w).

(** The session as it starts: an empty chatbot and the initial value of
    [conversation_state]. *)
Definition initial_world : world :=
  World [] [Message system SYSTEM_PROMPT] [].

(* ===================================================================== *)
(** ** The properties, in the words of the specification *)
(* ===================================================================== *)

Section Properties.
Context {E : PyEnv}.

(** *** Number Normalizer *)

(** Insert a space between every two neighbours that [P] relates. *)
Fixpoint insert_spaces (P : char -> char -> bool) (s : str) : str :=
  match s with
  | [] => []
  | a :: t =>
      a :: match t with
           | b :: _ => if P a b then SPACE :: insert_spaces P t else insert_spaces P t
           | [] => []
           end
  end.

Definition letter_then_digit (a b : char) : bool := is_ascii_letter a && is_digit b.
Definition digit_then_letter (a b : char) : bool := is_digit a && is_ascii_letter b.

(** An ASCII letter next to a digit, in either order. *)
Definition needs_space (a b : char) : bool :=
  letter_then_digit a b || digit_then_letter a b.

(** Step (1): a space between a letter and a digit that touch. *)
Definition spec_separate (s : str) : str := insert_spaces needs_space s.

(** The spelling of a run of digits: the number it writes, in words.
    There is none where [int] refuses the run or [num2words] the
    number. *)
Definition spell_run (run : str) : outcome str :=
  and_then (py_int run) (fun n => num2words n).

(** What a finished run of digits becomes: its spelling when no word
    character touches it on either side, itself otherwise.  [run] holds
    the digits last first. *)
Definition flush_run (word_before : bool) (run : str) (word_after : bool)
  : outcome str :=
  match run with
  | [] => Returned []
  | _ :: _ =>
      if negb word_before && negb word_after
      then spell_run (rev run)
      else Returned (rev run)
  end.

(** Step (2): walk the text collecting each maximal run of digits;
    [word_before] tells whether a word character precedes the run.  The
    first run, from the left, that has no spelling ends the walk with what
    was raised. *)
Fixpoint expand_runs (word_before : bool) (run : str) (s : str) : outcome str :=
  match s with
  | [] => flush_run word_before run false
  | c :: t =>
      if is_digit c then expand_runs word_before (c :: run) t
      else
        and_then (flush_run word_before run (is_word c)) (fun piece =>
        and_then (expand_runs (is_word c) [] t) (fun rest =>
        Returned (piece ++ c :: rest)))
  end.

Definition spec_expand (s : str) : outcome str := expand_runs false [] s.

Definition spec_normalize (s : str) : outcome str := spec_expand (spec_separate s).

(** The same walk with a text for every run, the empty one for a run
    without spelling: where [expand_runs] returns, it returns what this
    gives. *)
Definition spelled (run : str) : str :=
  match spell_run run with
  | Returned words => words
  | Raised _ => []
  end.

Definition flush_total (word_before : bool) (run : str) (word_after : bool) : str :=
  match run with
  | [] => []
  | _ :: _ =>
      if negb word_before && negb word_after
      then spelled (rev run)
      else rev run
  end.

Fixpoint expand_total (word_before : bool) (run : str) (s : str) : str :=
  match s with
  | [] => flush_total word_before run false
  | c :: t =>
      if is_digit c then expand_total word_before (c :: run) t
      else flush_total word_before run (is_word c) ++ c :: expand_total (is_word c) [] t
  end.

Definition total_expand (s : str) : str := expand_total false [] s.

Definition total_normalize (s : str) : str := total_expand (spec_separate s).

(** The maximal runs of digits of a text, in order; [run] holds the
    digits of the run being read, last first. *)
Fixpoint digit_runs_from (run : str) (s : str) : list str :=
  match s with
  | [] => match run with [] => [] | _ :: _ => [rev run] end
  | c :: t =>
      if is_digit c then digit_runs_from (c :: run) t
      else match run with
           | [] => digit_runs_from [] t
           | _ :: _ => rev run :: digit_runs_from [] t
           end
  end.

Definition digit_runs (s : str) : list str := digit_runs_from [] s.

(** [int] and [num2words] both return on the run. *)
Definition has_spelling (run : str) : bool :=
  match spell_run run with Returned _ => true | Raised _ => false end.

(** The text ahead does not go on with a digit: a run ends here. *)
Definition no_digit_ahead (s : str) : bool :=
  match s with c :: _ => negb (is_digit c) | [] => true end.

Definition no_digit (s : str) : bool := forallb (fun c => negb (is_digit c)) s.
Definition no_ascii_upper (s : str) : bool :=
  forallb (fun c => negb (is_ascii_upper c)) s.

(** No letter touches a digit: nothing left for step (1) to separate. *)
Fixpoint separated (prev : option char) (s : str) : bool :=
  match s with
  | [] => true
  | c :: t =>
      match prev with Some a => negb (needs_space a c) | None => true end
      && separated (Some c) t
  end.

(** The character just before what follows [u], when [p] is the one
    just before [u]. *)
Definition last_char (p : option char) (u : str) : option char :=
  fold_left (fun _ c => Some c) u p.

Definition is_word_opt (p : option char) : bool :=
  match p with Some a => is_word a | None => false end.

(** Step (1) with any alphabetic character as the letter, as the
    specification puts it. *)
Definition any_letter_needs_space (a b : char) : bool :=
  (is_alpha a && is_digit b) || (is_digit a && is_alpha b).

(** *** The text for the synthesis *)

Definition with_leading_space (s : str) : str :=
  if startswith (py " ") s then s else SPACE :: s.

Definition with_final_stop (s : str) : str :=
  if endswith (py ". ") s then s else s ++ [DOT; SPACE].

(** The reply made to start with a space and to end with ". ", lowered,
    then normalized. *)
Definition spec_shape (reply : str) : outcome str :=
  spec_normalize (lower (with_final_stop (with_leading_space reply))).

(** *** Style Segment Parser *)

(** A script seen as the text before the first tag and, for each tag,
    its label and the text that follows it. *)
Definition script : Type := (str * list (str * str))%type.

Fixpoint render_tags (ps : list (str * str)) : str :=
  match ps with
  | [] => []
  | (l, t) :: ps' => LBRACE :: l ++ RBRACE :: t ++ render_tags ps'
  end.

Definition render (sc : script) : str := fst sc ++ render_tags (snd sc).

(** The token list [re.split] gives for a script. *)
Fixpoint flat_tokens (ps : list (str * str)) : list str :=
  match ps with
  | [] => []
  | (l, t) :: ps' => l :: t :: flat_tokens ps'
  end.

(** A segment for a text under a style, unless the trimmed text is
    empty. *)
Definition emit (style_label text_span : str) : list segment :=
  if truthy (strip text_span) then [Segment style_label (strip text_span)] else [].

Fixpoint segments_from (ps : list (str * str)) : list segment :=
  match ps with
  | [] => []
  | (l, t) :: ps' => emit (strip l) t ++ segments_from ps'
  end.

Definition spec_segments (sc : script) : list segment :=
  emit (py "Regular") (fst sc) ++ segments_from (snd sc).

(** A label as the pattern captures it: it stops at the first closing
    brace and does not run over a line end. *)
Definition label_ok (l : str) : bool :=
  forallb (fun c => negb (c =? RBRACE)%N && negb (c =? NEWLINE)%N) l.

Definition no_lbrace (t : str) : bool := forallb (fun c => negb (c =? LBRACE)%N) t.

(** The lazy scan of [(.*?)\}]: the label and what follows the brace. *)
Fixpoint close_tag (u : str) : option (str * str) :=
  match u with
  | [] => None
  | c :: t =>
      if (c =? RBRACE)%N then Some ([], t)
      else if (c =? NEWLINE)%N then None
      else match close_tag t with
           | Some (l, rest) => Some (c :: l, rest)
           | None => None
           end
  end.

(** *** Conversation State *)

Definition pending (e : entry) : bool :=
  match snd e with None => true | Some _ => false end.

Definition is_system (m : message) : bool :=
  match msg_role m with system => true | _ => false end.

(** The log begins with its only system message. *)
Definition one_system_first (log : list message) : Prop :=
  exists prompt rest,
    log = Message system prompt :: rest /\ forallb (fun m => negb (is_system m)) rest = true.

(** Only the last pair may be pending. *)
Definition pending_only_last (h : list entry) : Prop :=
  forall i, (i + 1 < length h)%nat -> pending (nth i h ([], None)) = false.




(** The messages one pair of the transcript stands for. *)
Definition pair_messages (e : entry) : list message :=
  match snd e with
  | Some response => [Message user (fst e); Message assistant response]
  | None => [Message user (fst e)]
  end.


(** Every pair filled, the log one longer than twice the transcript:
    what holds between turns. *)
Definition settled (w : world) : Prop :=
  one_system_first (conv_state w)
  /\ length (conv_state w) = (2 * length (history w) + 1)%nat
  /\ forallb (fun e => negb (pending e)) (history w) = true.

End Properties.

(** The states a session reaches: it starts in [initial_world]; a turn
    that [process_audio_input] brings to its return, a synthesis request,
    clearing, and a new prompt each lead on.  The collaborators may answer
    differently at every step. *)
Inductive reachable {E : PyEnv} {Wave Spectro : Type} : world -> Prop :=
| reach_init : reachable initial_world
| reach_turn : forall (svc : Services Wave Spectro) audio_path text w res w',
    reachable w ->
    process_audio_input svc audio_path text w = (Returned res, w') ->
    reachable w'
| reach_audio : forall (svc : Services Wave Spectro) ref_audio ref_text model rs w res w',
    reachable w ->
    generate_audio_response svc ref_audio ref_text model rs w = (res, w') ->
    reachable w'
| reach_clear : forall w,
    reachable w -> reachable (store_outputs clear_conversation w)
| reach_prompt : forall new_prompt w,
    reachable w -> reachable (store_outputs (update_system_prompt new_prompt) w).


(* ===================================================================== *)
(** ** A sample environment

    Latin-1 above ASCII (no decimal digits there; the letters and the
    superscript and fraction signs as Unicode classes them), the digit
    limit of [int] at its default, and a speller that agrees with
    [num2words(n, lang='es')] below one hundred, spells larger numbers digit
    by digit and refuses those from [MAXVAL] on.  It serves to run the
    definitions. *)
(* ===================================================================== *)

Module Sample.

Definition latin1_alpha (c : char) : bool :=
  ((c =? 170) || (c =? 181) || (c =? 186)
   || ((192 <=? c) && (c <=? 214)) || ((216 <=? c) && (c <=? 246))
   || ((248 <=? c) && (c <=? 255)))%N.

Definition latin1_numeric (c : char) : bool :=
  ((c =? 178) || (c =? 179) || (c =? 185) || ((188 <=? c) && (c <=? 190)))%N.

Definition latin1_lower (_ : str) (c : char) (_ : str) : str :=
  if (((192 <=? c) && (c <=? 214)) || ((216 <=? c) && (c <=? 222)))%N
  then [(c + 32)%N] else [c].

Definition units : list str :=
  [ py "cero"; py "uno"; py "dos"; py "tres"; py "cuatro"; py "cinco";
    py "seis"; py "siete"; py "ocho"; py "nueve"; py "diez"; py "once";
    py "doce"; py "trece"; py "catorce"; py "quince";
    py "diecis" ++ [233%N] ++ py "is"; py "diecisiete"; py "dieciocho";
    py "diecinueve"; py "veinte"; py "veintiuno";
    py "veintid" ++ [243%N] ++ py "s"; py "veintitr" ++ [233%N] ++ py "s";
    py "veinticuatro"; py "veinticinco"; py "veintis" ++ [233%N] ++ py "is";
    py "veintisiete"; py "veintiocho"; py "veintinueve" ].

Definition tens : list str :=
  [ py "treinta"; py "cuarenta"; py "cincuenta"; py "sesenta"; py "setenta";
    py "ochenta"; py "noventa" ].

Fixpoint uint_digits (u : Decimal.uint) : list nat :=
  match u with
  | Decimal.Nil => []
  | Decimal.D0 u' => 0%nat :: uint_digits u'
  | Decimal.D1 u' => 1%nat :: uint_digits u'
  | Decimal.D2 u' => 2%nat :: uint_digits u'
  | Decimal.D3 u' => 3%nat :: uint_digits u'
  | Decimal.D4 u' => 4%nat :: uint_digits u'
  | Decimal.D5 u' => 5%nat :: uint_digits u'
  | Decimal.D6 u' => 6%nat :: uint_digits u'
  | Decimal.D7 u' => 7%nat :: uint_digits u'
  | Decimal.D8 u' => 8%nat :: uint_digits u'
  | Decimal.D9 u' => 9%nat :: uint_digits u'
  end.

Fixpoint spell_digits (ds : list nat) : str :=
  match ds with
  | [] => []
  | [d] => nth d units []
  | d :: ds' => nth d units [] ++ [SPACE] ++ spell_digits ds'
  end.

Definition spell (n : N) : str :=
  if (n <? 30)%N then nth (N.to_nat n) units []
  else if (n <? 100)%N then
    nth (N.to_nat (n / 10 - 3)) tens []
      ++ (if (n mod 10 =? 0)%N then []
          else py " y " ++ nth (N.to_nat (n mod 10)) units [])
  else spell_digits (uint_digits (N.to_uint n)).

(** The first number the speller refuses: ten to the 27th. *)
Definition MAXVAL : N := 1000000000000000000000000000%N.

Definition env : PyEnv := {|
  hi_decimal := fun _ => None;
  hi_alpha := latin1_alpha;
  hi_numeric := latin1_numeric;
  hi_lower := latin1_lower;
  int_max_str_digits := 4300;
  num2words_es := fun n => if (n <? MAXVAL)%N then Some (spell n) else None
|}.

(** Collaborators that answer with fixed values. *)
Definition echo : Services unit unit := {|
  preprocess_ref_audio_text := fun audio t => Returned (audio, t);
  generate_response := fun _ => Returned (py "Hola, 2 veces.");
  infer_process := fun _ _ _ => Returned (tt, 24000%N, tt);
  remove_silence_for_generated_wav := fun w _ => Returned w;
  save_spectrogram := fun _ => Returned (py "/tmp/s.png")
|}.

(** Collaborators whose synthesis raises. *)
Definition mute : Services unit unit := {|
  preprocess_ref_audio_text := fun audio t => Returned (audio, t);
  generate_response := fun _ => Returned (py "Hola, 2 veces.");
  infer_process := fun _ _ _ => Raised ServiceError;
  remove_silence_for_generated_wav := fun w _ => Returned w;
  save_spectrogram := fun _ => Returned (py "/tmp/s.png")
|}.

(** The session after one turn "hola" answered by [echo]. *)
Definition after_hola : world :=
  snd (process_audio_input echo None (py "hola") initial_world).

(** A script in parts: a text, a tag with text, a tag with blank text,
    a tag with text. *)
Definition three_tags : str * list (str * str) :=
  (py " intro ", [(py " alegre ", py " Hola "); (py "vacio", py "  ");
                  (py "triste", py "fin")]).

End Sample.

(* ===================================================================== *)
(** ** More of the module: the chat model *)
(* ===================================================================== *)

(** The tokenizer and the model of [generate_response]: each call returns
    or raises.  A tensor of token ids is a list of rows. *)
Record ChatModel : Type := {
  (** [tokenizer.apply_chat_template(messages, tokenize=False,
      add_generation_prompt=True)] *)
  apply_chat_template : list message -> outcome str;
  (** [tokenizer(texts, return_tensors="pt").to(model.device)]: the
      [input_ids] of the inputs *)
  tokenize : list str -> outcome (list (list N));
  (** [model.generate] on the model inputs, with [max_new_tokens=512] and
      the sampling options *)
  generate : list (list N) -> outcome (list (list N));
  (** [tokenizer.batch_decode(ids, skip_special_tokens=True)] *)
  batch_decode : list (list N) -> outcome (list str)
}.

Module Chat.

(** [generate_response(messages, model, tokenizer)] *)
Definition generate_response (cm : ChatModel) (messages : list message)
  : outcome str :=
  and_then (apply_chat_template cm messages) (fun text =>
  and_then (tokenize cm [text]) (fun model_inputs =>
  and_then (generate cm model_inputs) (fun generated_ids =>
  let generated_ids :=
    map (fun '(input_ids, output_ids) => skipn (length input_ids) output_ids)
        (combine model_inputs generated_ids) in
  and_then (batch_decode cm generated_ids) (fun decoded =>
  match decoded with
  | [] => Raised IndexError
  | reply :: _ => Returned reply
  end)))).

End Chat.

(** Rows made of a prompt and what was generated after it. *)
Definition continue_rows (prompts news : list (list N)) : list (list N) :=
  map (fun '(p, n) => p ++ n) (combine prompts news).

(** The globals [chat_model_state] and [chat_tokenizer_state], and the
    messages shown with [show_info]. *)
Record chat_globals (Model Tokenizer : Type) : Type := ChatGlobals {
  chat_model_state : option Model;
  chat_tokenizer_state : option Tokenizer;
  shown : list str
}.
Arguments ChatGlobals {Model Tokenizer} _ _ _.
Arguments chat_model_state {Model Tokenizer} _.
Arguments chat_tokenizer_state {Model Tokenizer} _.
Arguments shown {Model Tokenizer} _.

(** [AutoModelForCausalLM.from_pretrained] and
    [AutoTokenizer.from_pretrained], by model name. *)
Record Loaders (Model Tokenizer : Type) : Type := {
  model_from_pretrained : str -> outcome Model;
  tokenizer_from_pretrained : str -> outcome Tokenizer
}.

Definition MODEL_NAME : str := py "Qwen/Qwen2.5-3B-Instruct".

(** [load_chat_model()]: the result is [gr.update(visible=False),
    gr.update(visible=True)], each told by its flag. *)
Definition load_chat_model {Model Tokenizer : Type} (ld : Loaders Model Tokenizer)
           (g : chat_globals Model Tokenizer)
  : outcome (bool * bool) * chat_globals Model Tokenizer :=
  match chat_model_state g with
  | None =>
      let g := ChatGlobals (chat_model_state g) (chat_tokenizer_state g)
                           (shown g ++ [py "Cargando modelo de chat..."]) in
      let model_name := MODEL_NAME in
      match model_from_pretrained ld model_name with
      | Raised e => (Raised e, g)
      | Returned m =>
          let g := ChatGlobals (Some m) (chat_tokenizer_state g) (shown g) in
          match tokenizer_from_pretrained ld model_name with
          | Raised e => (Raised e, g)
          | Returned t =>
              let g := ChatGlobals (chat_model_state g) (Some t) (shown g) in
              let g := ChatGlobals (chat_model_state g) (chat_tokenizer_state g)
                                   (shown g ++ [py "Modelo de chat cargado."]) in
              (Returned (false, true), g)
          end
      end
  | Some _ => (Returned (false, true), g)
  end.

(** The globals as the module sets them at import. *)
Definition initial_globals {Model Tokenizer : Type} : chat_globals Model Tokenizer :=
  ChatGlobals None None [].

(* ===================================================================== *)
(** ** Further properties *)
(* ===================================================================== *)

(** An ASCII character other than the underscore. *)
Definition plain_ascii (c : char) : bool := ((c <? 128) && negb (c =? UNDERSCORE))%N.

Definition not_space (c : char) : bool := negb (c =? SPACE)%N.

(** How often [c] occurs in [s]. *)
Definition count (c : char) (s : str) : nat := length (filter (N.eqb c) s).

Definition no_index_error {A} (r : outcome A) : Prop := r <> Raised IndexError.

(** Collaborators that raise no [IndexError] of their own. *)
Definition services_no_index_error {Wave Spectro} (svc : Services Wave Spectro)
  : Prop :=
  (forall a t, no_index_error (preprocess_ref_audio_text svc a t))
  /\ (forall log, no_index_error (generate_response svc log))
  /\ (forall a t g, no_index_error (infer_process svc a t g))
  /\ (forall w r, no_index_error (remove_silence_for_generated_wav svc w r))
  /\ (forall s, no_index_error (save_spectrogram svc s)).

Module MoreSamples.

(** A chat model that echoes the prompt rows and adds three tokens. *)
Definition parrot : ChatModel := {|
  apply_chat_template := fun _ => Returned (py "<|im_start|>");
  tokenize := fun texts => Returned (map (fun t => t) texts);
  generate := fun rows => Returned (map (fun r => r ++ [72; 111; 108]%N) rows);
  batch_decode := fun rows => Returned rows
|}.

(** Loaders of which the tokenizer's raises. *)
Definition broken_tokenizer : Loaders unit unit := {|
  model_from_pretrained := fun _ => Returned tt;
  tokenizer_from_pretrained := fun _ => Raised ServiceError
|}.

Definition working : Loaders unit unit := {|
  model_from_pretrained := fun _ => Returned tt;
  tokenizer_from_pretrained := fun _ => Returned tt
|}.

(** Collaborators whose chat model raises. *)
Definition speechless : Services unit unit := {|
  preprocess_ref_audio_text := fun audio t => Returned (audio, py "hola desde el audio");
  generate_response := fun _ => Raised ServiceError;
  infer_process := fun _ _ _ => Returned (tt, 24000%N, tt);
  remove_silence_for_generated_wav := fun w _ => Returned w;
  save_spectrogram := fun _ => Returned (py "/tmp/s.png")
|}.


(** Collaborators whose chat model answers with a number of 28 digits. *)
Definition countless : Services unit unit := {|
  preprocess_ref_audio_text := fun audio t => Returned (audio, t);
  generate_response := fun _ => Returned (py "Son 1000000000000000000000000000.");
  infer_process := fun _ _ _ => Returned (tt, 24000%N, tt);
  remove_silence_for_generated_wav := fun w _ => Returned w;
  save_spectrogram := fun _ => Returned (py "/tmp/s.png")
|}.

(** Collaborators whose synthesis raises on every text but one. *)
Definition picky (accepted : str) : Services unit unit := {|
  preprocess_ref_audio_text := fun audio t => Returned (audio, t);
  generate_response := fun _ => Returned (py "Hola, 2 veces.");
  infer_process := fun _ _ gen_text =>
    if str_eqb gen_text accepted
    then Returned (tt, 24000%N, tt) else Raised ServiceError;
  remove_silence_for_generated_wav := fun w _ => Returned w;
  save_spectrogram := fun _ => Returned (py "/tmp/s.png")
|}.




(** Collaborators that transcribe every audio as "hola". *)
Definition listener : Services unit unit := {|
  preprocess_ref_audio_text := fun audio _ => Returned (audio, py "hola");
  generate_response := fun _ => Returned (py "Hola, 2 veces.");
  infer_process := fun _ _ _ => Returned (tt, 24000%N, tt);
  remove_silence_for_generated_wav := fun w _ => Returned w;
  save_spectrogram := fun _ => Returned (py "/tmp/s.png")
|}.

End MoreSamples.

(* ===================================================================== *)
(** ** Character classes *)
(* ===================================================================== *)

Ltac bool_to_prop :=
  repeat match goal with
    | H : _ && _ = true |- _ => apply andb_true_iff in H; destruct H
    | H : _ || _ = true |- _ => apply orb_true_iff in H
    | H : (_ <=? _)%N = true |- _ => apply N.leb_le in H
    | H : (_ <? _)%N = true |- _ => apply N.ltb_lt in H
    | H : (_ =? _)%N = true |- _ => apply N.eqb_eq in H
    | H : (_ <=? _)%N = false |- _ => apply N.leb_gt in H
    | H : (_ <? _)%N = false |- _ => apply N.ltb_ge in H
    | H : (_ =? _)%N = false |- _ => apply N.eqb_neq in H
    end.

Section ClassFacts.
Context {E : PyEnv}.

Lemma ascii_letter_below_128 c : is_ascii_letter c = true -> (c <? 128)%N = true.
Proof.
  unfold is_ascii_letter, is_ascii_upper, is_ascii_lower. intros H.
  apply N.ltb_lt. bool_to_prop. destruct H as [H | H]; bool_to_prop; lia.
Qed.

Lemma ascii_letter_not_digit c : is_ascii_letter c = true -> is_digit c = false.
Proof.
  intros H. unfold is_digit, to_decimal.
  rewrite (ascii_letter_below_128 _ H).
  assert (Hd : is_ascii_digit c = false).
  { unfold is_ascii_digit. apply andb_false_iff.
    unfold is_ascii_letter, is_ascii_upper, is_ascii_lower in H.
    right. apply N.leb_gt. bool_to_prop. destruct H as [H | H]; bool_to_prop; lia. }
  now rewrite Hd.
Qed.

Lemma digit_is_word c : is_digit c = true -> is_word c = true.
Proof.
  intros H. unfold is_word, is_alnum. rewrite H.
  now rewrite orb_true_r.
Qed.

Lemma ascii_letter_is_word c : is_ascii_letter c = true -> is_word c = true.
Proof.
  intros H. unfold is_word, is_alnum, is_alpha.
  now rewrite (ascii_letter_below_128 _ H), H.
Qed.

Lemma not_word_not_digit c : is_word c = false -> is_digit c = false.
Proof.
  intros H. destruct (is_digit c) eqn:D; [|reflexivity].
  apply digit_is_word in D. congruence.
Qed.

Lemma not_word_not_letter c : is_word c = false -> is_ascii_letter c = false.
Proof.
  intros H. destruct (is_ascii_letter c) eqn:D; [|reflexivity].
  apply ascii_letter_is_word in D. congruence.
Qed.

Lemma needs_space_digit a b :
  needs_space a b = true -> is_digit a = true \/ is_digit b = true.
Proof.
  unfold needs_space, letter_then_digit, digit_then_letter. intros H.
  bool_to_prop. destruct H as [H | H]; bool_to_prop; auto.
Qed.

Lemma needs_space_not_word_r a c : is_word c = false -> needs_space a c = false.
Proof.
  intros H. unfold needs_space, letter_then_digit, digit_then_letter.
  rewrite (not_word_not_digit _ H), (not_word_not_letter _ H).
  now rewrite !andb_false_r.
Qed.

Lemma needs_space_not_word_l a c : is_word a = false -> needs_space a c = false.
Proof.
  intros H. unfold needs_space, letter_then_digit, digit_then_letter.
  now rewrite (not_word_not_digit _ H), (not_word_not_letter _ H).
Qed.

End ClassFacts.

(* ===================================================================== *)
(** ** The matcher on the patterns of the module *)
(* ===================================================================== *)

Section MatcherFacts.
Context {E : PyEnv}.

Lemma split_loop_skip r m : forall b acc rest,
  split_loop r b (length m) acc (m ++ rest) = split_loop r (rev m ++ b) 0 acc rest.
Proof.
  induction m as [|c m IH]; intros b acc rest; [reflexivity|].
  cbn [length app split_loop]. rewrite IH. cbn [rev]. now rewrite <- app_assoc.
Qed.

Lemma sub_loop_cons r repl b c t :
  sub_loop r repl b 0 (c :: t) =
  match match_at r b (c :: t) with
  | Some st =>
      match length (matched st) with
      | S k => repl (rev (matched st)) (groups st) ++ sub_loop r repl (c :: b) k t
      | O => c :: sub_loop r repl (c :: b) 0 t
      end
  | None => c :: sub_loop r repl (c :: b) 0 t
  end.
Proof. reflexivity. Qed.

(** A pattern [(p)(q)] of two one-character groups. *)
Lemma match_pair p q b a :
  match_at (Seq (Group (Class p)) (Group (Class q))) b a =
  match a with
  | x :: y :: t =>
      if p x && q y then Some (MState (y :: x :: b) [y; x] t [[x]; [y]]) else None
  | _ => None
  end.
Proof.
  unfold match_at. destruct a as [|x [|y t]]; cbn.
  - reflexivity.
  - now destruct (p x).
  - destruct (p x); [|reflexivity]. cbn. now destruct (q y).
Qed.

(** [re.sub] with [(p)(q)] and [\1 \2] puts a space into every such
    pair, provided two pairs cannot share a character. *)
Lemma sub_pair p q :
  (forall x y z, p x && q y = true -> p y && q z = false) ->
  forall s b,
    sub_loop (Seq (Group (Class p)) (Group (Class q))) repl_space b 0 s
    = insert_spaces (fun x y => p x && q y) s.
Proof.
  intros Hno s.
  remember (length s) as n eqn:Hn.
  revert s Hn. induction n as [n IH] using lt_wf_ind. intros s Hn b.
  destruct s as [|x [|y t]].
  - reflexivity.
  - rewrite sub_loop_cons, match_pair. reflexivity.
  - rewrite sub_loop_cons, match_pair.
    destruct (p x && q y) eqn:Hxy.
    + cbn [matched length groups rev app repl_space nth sub_loop].
      rewrite (IH (length t)) by (cbn in Hn; lia || reflexivity).
      cbn [insert_spaces]. rewrite Hxy.
      destruct t as [|z t']; [reflexivity|].
      now rewrite (Hno _ _ z Hxy).
    + rewrite (IH (length (y :: t))) by (cbn in Hn; cbn; lia || reflexivity).
      cbn [insert_spaces]. now rewrite Hxy.
Qed.

End MatcherFacts.

(* ===================================================================== *)
(** ** The Number Normalizer does what the two steps say *)
(* ===================================================================== *)

Section NormalizerFacts.
Context {E : PyEnv}.

Lemma insert_spaces_head P b t :
  exists tl, insert_spaces P (b :: t) = b :: tl.
Proof. cbn. eauto. Qed.

(** The second substitution after the first: one pass that separates
    both kinds of neighbours. *)
Lemma insert_spaces_compose s :
  insert_spaces digit_then_letter (insert_spaces letter_then_digit s)
  = spec_separate s.
Proof.
  unfold spec_separate.
  induction s as [|a t IH]; [reflexivity|].
  destruct t as [|b t']; [reflexivity|].
  destruct (insert_spaces_head letter_then_digit b t') as [tl Htl].
  change (insert_spaces letter_then_digit (a :: b :: t'))
    with (a :: if letter_then_digit a b
               then SPACE :: insert_spaces letter_then_digit (b :: t')
               else insert_spaces letter_then_digit (b :: t')).
  change (insert_spaces needs_space (a :: b :: t'))
    with (a :: if needs_space a b
               then SPACE :: insert_spaces needs_space (b :: t')
               else insert_spaces needs_space (b :: t')).
  rewrite <- IH. rewrite Htl. unfold needs_space.
  destruct (letter_then_digit a b) eqn:H1.
  - cbn [orb insert_spaces].
    replace (digit_then_letter a SPACE) with false
      by (unfold digit_then_letter; cbn; now rewrite andb_false_r).
    replace (digit_then_letter SPACE b) with false by reflexivity.
    reflexivity.
  - cbn [orb insert_spaces]. reflexivity.
Qed.

Lemma greedy_digits run : forall b m rest g,
  forallb is_digit run = true ->
  is_word_at b = true ->
  no_digit_ahead rest = true ->
  greedy_star is_digit (re_match Boundary (fun st => Some st)) b m (run ++ rest) g
  = if is_word_at rest then None
    else Some (MState (rev run ++ b) (rev run ++ m) rest g).
Proof.
  induction run as [|d run IH]; intros b m rest g Hrun Hb Hrest.
  - cbn [app rev]. destruct rest as [|c t].
    + cbn. unfold at_boundary. cbn [before after]. rewrite Hb. reflexivity.
    + cbn in Hrest. apply negb_true_iff in Hrest.
      cbn [greedy_star]. rewrite Hrest. cbn [re_match].
      unfold at_boundary. cbn [before after is_word_at]. rewrite Hb.
      now destruct (is_word c).
  - cbn in Hrun. apply andb_true_iff in Hrun. destruct Hrun as [Hd Hrun].
    cbn [app greedy_star]. rewrite Hd.
    rewrite IH by (auto; cbn; now apply digit_is_word).
    cbn [rev]. rewrite <- !app_assoc. cbn [app].
    destruct (is_word_at rest); [|reflexivity].
    cbn [re_match]. unfold at_boundary. cbn [before after is_word_at].
    now rewrite Hb, (digit_is_word _ Hd).
Qed.

(** [\b\d+\b] at the start of a maximal run of digits: the whole run,
    if no word character touches it. *)
Lemma match_number_run d run b rest :
  forallb is_digit (d :: run) = true ->
  no_digit_ahead rest = true ->
  match_at re_number b ((d :: run) ++ rest)
  = if is_word_at b || is_word_at rest then None
    else Some (MState (rev (d :: run) ++ b) (rev (d :: run)) rest []).
Proof.
  intros Hrun Hrest. pose proof Hrun as Hrun'.
  cbn in Hrun. apply andb_true_iff in Hrun. destruct Hrun as [Hd Hrun].
  unfold match_at, re_number. cbn [re_match app].
  unfold at_boundary at 1. cbn [before after is_word_at matched groups].
  rewrite (digit_is_word _ Hd), Hd.
  destruct (is_word_at b) eqn:Hb; [reflexivity|]. cbn [xorb orb].
  rewrite greedy_digits by (auto; cbn; now apply digit_is_word).
  cbn [rev]. rewrite <- !app_assoc. reflexivity.
Qed.

Lemma match_number_other c t b :
  is_digit c = false -> match_at re_number b (c :: t) = None.
Proof.
  intros Hc. unfold match_at, re_number. cbn [re_match after].
  rewrite Hc. now destruct (at_boundary _).
Qed.

(** Every text is a run of digits followed by a text that does not go
    on with one. *)
Lemma split_run s :
  exists run rest,
    s = run ++ rest /\ forallb is_digit run = true /\ no_digit_ahead rest = true.
Proof.
  induction s as [|c t (run & rest & -> & Hrun & Hrest)].
  - exists [], []. auto.
  - destruct (is_digit c) eqn:Hc.
    + exists (c :: run), rest. cbn. rewrite Hc. auto.
    + exists [], (c :: run ++ rest). cbn. rewrite Hc. auto.
Qed.

(** *** The walk with a text for every run *)

Lemma expand_total_digits run : forall wb acc rest,
  forallb is_digit run = true ->
  expand_total wb acc (run ++ rest) = expand_total wb (rev run ++ acc) rest.
Proof.
  induction run as [|d run IH]; intros wb acc rest H; [reflexivity|].
  cbn in H. apply andb_true_iff in H. destruct H as [Hd H].
  cbn [app expand_total]. rewrite Hd, IH by exact H.
  cbn [rev]. now rewrite <- app_assoc.
Qed.

Lemma expand_total_flush wb wb' acc rest :
  no_digit_ahead rest = true ->
  expand_total wb acc rest
  = flush_total wb acc (is_word_at rest) ++ expand_total wb' [] rest.
Proof.
  destruct rest as [|c t]; intros H.
  - cbn. now rewrite app_nil_r.
  - cbn in H. apply negb_true_iff in H. cbn [expand_total is_word_at].
    rewrite H. reflexivity.
Qed.

Lemma expand_total_context wb wb' rest :
  no_digit_ahead rest = true ->
  expand_total wb [] rest = expand_total wb' [] rest.
Proof.
  intros H. now rewrite (expand_total_flush wb wb' [] rest H).
Qed.

Lemma flush_total_rev wb wa d run :
  flush_total wb (rev (d :: run)) wa
  = if negb wb && negb wa then spelled (d :: run) else d :: run.
Proof.
  unfold flush_total. destruct (rev (d :: run)) eqn:Hr.
  - apply (f_equal (@length _)) in Hr. rewrite length_rev in Hr. discriminate.
  - rewrite <- Hr, rev_involutive. reflexivity.
Qed.

(** One maximal run in the words of step (2). *)
Lemma expand_total_run wb d run rest :
  forallb is_digit (d :: run) = true ->
  no_digit_ahead rest = true ->
  expand_total wb [] ((d :: run) ++ rest)
  = (if negb wb && negb (is_word_at rest)
     then spelled (d :: run) else d :: run)
    ++ expand_total true [] rest.
Proof.
  intros Hrun Hrest.
  rewrite expand_total_digits by exact Hrun. rewrite app_nil_r.
  rewrite (expand_total_flush wb true _ rest Hrest).
  now rewrite flush_total_rev.
Qed.

Lemma expand_total_other wb c t :
  is_digit c = false ->
  expand_total wb [] (c :: t) = c :: expand_total (is_word c) [] t.
Proof. intros H. cbn. now rewrite H. Qed.

(** *** The walk that may raise *)

Lemma and_then_returned {A} (r : outcome A) :
  and_then r (fun a => Returned a) = r.
Proof. now destruct r. Qed.

Lemma sub_loop_call_skip r repl m : forall b rest,
  sub_loop_call r repl b (length m) (m ++ rest)
  = sub_loop_call r repl (rev m ++ b) 0 rest.
Proof.
  induction m as [|c m IH]; intros b rest; [reflexivity|].
  cbn [length app sub_loop_call]. rewrite IH. cbn [rev]. now rewrite <- app_assoc.
Qed.

Lemma sub_loop_call_cons r repl b c t :
  sub_loop_call r repl b 0 (c :: t) =
  match match_at r b (c :: t) with
  | Some st =>
      match length (matched st) with
      | S k =>
          and_then (repl (rev (matched st)) (groups st)) (fun piece =>
          and_then (sub_loop_call r repl (c :: b) k t) (fun rest =>
          Returned (piece ++ rest)))
      | O =>
          and_then (sub_loop_call r repl (c :: b) 0 t) (fun rest =>
          Returned (c :: rest))
      end
  | None =>
      and_then (sub_loop_call r repl (c :: b) 0 t) (fun rest =>
      Returned (c :: rest))
  end.
Proof. reflexivity. Qed.

Lemma expand_runs_digits run : forall wb acc rest,
  forallb is_digit run = true ->
  expand_runs wb acc (run ++ rest) = expand_runs wb (rev run ++ acc) rest.
Proof.
  induction run as [|d run IH]; intros wb acc rest H; [reflexivity|].
  cbn in H. apply andb_true_iff in H. destruct H as [Hd H].
  cbn [app expand_runs]. rewrite Hd, IH by exact H.
  cbn [rev]. now rewrite <- app_assoc.
Qed.

Lemma expand_runs_other wb c t :
  is_digit c = false ->
  expand_runs wb [] (c :: t)
  = and_then (expand_runs (is_word c) [] t) (fun rest => Returned (c :: rest)).
Proof. intros H. cbn. now rewrite H. Qed.

Lemma expand_runs_context wb wb' rest :
  no_digit_ahead rest = true ->
  expand_runs wb [] rest = expand_runs wb' [] rest.
Proof.
  destruct rest as [|c t]; intros H; [reflexivity|].
  cbn in H. apply negb_true_iff in H. now rewrite !expand_runs_other.
Qed.

Lemma flush_run_rev wb wa d run :
  flush_run wb (rev (d :: run)) wa
  = if negb wb && negb wa then spell_run (d :: run) else Returned (d :: run).
Proof.
  unfold flush_run. destruct (rev (d :: run)) eqn:Hr.
  - apply (f_equal (@length _)) in Hr. rewrite length_rev in Hr. discriminate.
  - rewrite <- Hr, rev_involutive. reflexivity.
Qed.

(** One maximal run in the words of step (2). *)
Lemma expand_runs_run wb d run rest :
  forallb is_digit (d :: run) = true ->
  no_digit_ahead rest = true ->
  expand_runs wb [] ((d :: run) ++ rest)
  = and_then (if negb wb && negb (is_word_at rest)
              then spell_run (d :: run) else Returned (d :: run)) (fun piece =>
    and_then (expand_runs true [] rest) (fun tail =>
    Returned (piece ++ tail))).
Proof.
  intros Hrun Hrest.
  rewrite expand_runs_digits by exact Hrun. rewrite app_nil_r.
  destruct rest as [|c t].
  - cbn [expand_runs is_word_at]. rewrite flush_run_rev.
    destruct (if negb wb && negb false then spell_run (d :: run)
              else Returned (d :: run)) as [piece|e]; [|reflexivity].
    cbn. now rewrite app_nil_r.
  - cbn in Hrest. apply negb_true_iff in Hrest.
    cbn [expand_runs is_word_at]. rewrite Hrest, flush_run_rev.
    destruct (if negb wb && negb (is_word c) then spell_run (d :: run)
              else Returned (d :: run)) as [piece|e]; [|reflexivity].
    cbn [and_then flush_run app].
    now destruct (expand_runs (is_word c) [] t).
Qed.

(** Inside a run that a word character precedes, the pattern matches
    nowhere. *)
Lemma number_sub_inside run : forall b rest,
  is_word_at b = true ->
  forallb is_digit run = true ->
  no_digit_ahead rest = true ->
  sub_loop_call re_number reemplazar_numero b 0 (run ++ rest)
  = and_then (sub_loop_call re_number reemplazar_numero (rev run ++ b) 0 rest)
             (fun tail => Returned (run ++ tail)).
Proof.
  induction run as [|d run IH]; intros b rest Hb Hrun Hrest.
  { cbn [app rev]. now rewrite and_then_returned. }
  pose proof Hrun as Hrun'. cbn in Hrun'.
  apply andb_true_iff in Hrun'. destruct Hrun' as [Hd Hrun'].
  change ((d :: run) ++ rest) with (d :: (run ++ rest)) at 1.
  rewrite sub_loop_call_cons.
  change (d :: (run ++ rest)) with ((d :: run) ++ rest).
  rewrite match_number_run, Hb by assumption. cbn [orb].
  rewrite IH by (auto; cbn; now apply digit_is_word).
  cbn [rev]. rewrite <- app_assoc. cbn [app].
  now destruct (sub_loop_call re_number reemplazar_numero (rev run ++ d :: b) 0 rest).
Qed.

(** The third substitution is step (2). *)
Lemma number_sub_spec s : forall b,
  sub_loop_call re_number reemplazar_numero b 0 s = expand_runs (is_word_at b) [] s.
Proof.
  remember (length s) as n eqn:Hn. revert s Hn.
  induction n as [n IH] using lt_wf_ind. intros s Hn b.
  destruct s as [|c t]; [reflexivity|].
  destruct (is_digit c) eqn:Hc.
  - destruct (split_run t) as (run & rest & -> & Hrun & Hrest).
    assert (Hall : forallb is_digit (c :: run) = true) by (cbn; now rewrite Hc).
    assert (Hlen : (length rest < n)%nat).
    { subst n. cbn. rewrite length_app. lia. }
    change (c :: run ++ rest) with ((c :: run) ++ rest).
    rewrite expand_runs_run by assumption.
    destruct (is_word_at b || is_word_at rest) eqn:Hw.
    + replace (negb (is_word_at b) && negb (is_word_at rest)) with false
        by (destruct (is_word_at b), (is_word_at rest); cbn in *; congruence).
      change ((c :: run) ++ rest) with (c :: (run ++ rest)).
      rewrite sub_loop_call_cons.
      change (c :: (run ++ rest)) with ((c :: run) ++ rest).
      rewrite match_number_run, Hw by assumption.
      rewrite number_sub_inside
        by (auto; cbn; now apply digit_is_word).
      rewrite (IH _ Hlen rest eq_refl).
      rewrite (expand_runs_context _ true rest Hrest).
      cbn [and_then]. now destruct (expand_runs true [] rest).
    + replace (negb (is_word_at b) && negb (is_word_at rest)) with true
        by (destruct (is_word_at b), (is_word_at rest); cbn in *; congruence).
      change ((c :: run) ++ rest) with (c :: (run ++ rest)).
      rewrite sub_loop_call_cons.
      change (c :: (run ++ rest)) with ((c :: run) ++ rest).
      rewrite match_number_run, Hw by assumption.
      cbn [matched groups]. rewrite rev_involutive.
      cbn [rev]. rewrite length_app, length_rev, Nat.add_1_r.
      rewrite sub_loop_call_skip.
      rewrite (IH _ Hlen rest eq_refl).
      rewrite (expand_runs_context _ true rest Hrest).
      reflexivity.
  - rewrite sub_loop_call_cons, match_number_other by exact Hc.
    rewrite expand_runs_other by exact Hc.
    rewrite (IH (length t)) with (s := t) by (subst n; cbn; lia || reflexivity).
    reflexivity.
Qed.

Lemma pairs_disjoint_ld x y z :
  is_ascii_letter x && is_digit y = true -> is_ascii_letter y && is_digit z = false.
Proof.
  intros H. apply andb_true_iff in H. destruct H as [_ Hy].
  destruct (is_ascii_letter y) eqn:Hl; [|reflexivity].
  apply ascii_letter_not_digit in Hl. congruence.
Qed.

Lemma pairs_disjoint_dl x y z :
  is_digit x && is_ascii_letter y = true -> is_digit y && is_ascii_letter z = false.
Proof.
  intros H. apply andb_true_iff in H. destruct H as [_ Hy].
  now rewrite (ascii_letter_not_digit _ Hy).
Qed.

Lemma separate_spec texto :
  re_sub re_digit_letter repl_space (re_sub re_letter_digit repl_space texto)
  = spec_separate texto.
Proof.
  unfold re_sub, re_letter_digit, re_digit_letter.
  rewrite (sub_pair _ _ pairs_disjoint_ld), (sub_pair _ _ pairs_disjoint_dl).
  apply insert_spaces_compose.
Qed.

(** The function is the two steps, one after the other. *)
Lemma traducir_spec texto :
  traducir_numero_a_texto texto = spec_normalize texto.
Proof.
  unfold traducir_numero_a_texto. rewrite separate_spec.
  unfold re_sub_call. now rewrite number_sub_spec.
Qed.

(** *** Where the walk returns, and what *)

Lemma flush_run_total wb acc wa r :
  flush_run wb acc wa = Returned r -> r = flush_total wb acc wa.
Proof.
  unfold flush_run, flush_total, spelled. destruct acc as [|a acc].
  - intros H. now inversion H.
  - destruct (negb wb && negb wa).
    + intros H. now rewrite H.
    + intros H. now inversion H.
Qed.

Lemma expand_runs_total s : forall wb acc r,
  expand_runs wb acc s = Returned r -> r = expand_total wb acc s.
Proof.
  induction s as [|c t IH]; intros wb acc r H.
  - now apply flush_run_total.
  - cbn [expand_runs expand_total] in *. destruct (is_digit c); [now apply IH|].
    destruct (flush_run wb acc (is_word c)) as [piece|e] eqn:Hf; [|discriminate].
    destruct (expand_runs (is_word c) [] t) as [rest|e] eqn:He; [|discriminate].
    cbn in H. inversion H. subst r.
    now rewrite (flush_run_total _ _ _ Hf), (IH _ _ _ He).
Qed.

Lemma traducir_total texto r :
  traducir_numero_a_texto texto = Returned r -> r = total_normalize texto.
Proof. rewrite traducir_spec. apply expand_runs_total. Qed.

(** What the walk raises was raised by [int] or by [num2words]. *)
Lemma spell_run_raises run e :
  spell_run run = Raised e -> e = ValueError \/ e = OverflowError.
Proof.
  unfold spell_run, py_int, num2words.
  destruct (int_refuses (length run)); cbn.
  - intros H. inversion H. auto.
  - destruct (num2words_es (int_value run)); intros H; inversion H. auto.
Qed.

Lemma flush_run_raises wb acc wa e :
  flush_run wb acc wa = Raised e -> e = ValueError \/ e = OverflowError.
Proof.
  unfold flush_run. destruct acc as [|a acc]; [discriminate|].
  destruct (negb wb && negb wa); [apply spell_run_raises | discriminate].
Qed.

Lemma expand_runs_raises s : forall wb acc e,
  expand_runs wb acc s = Raised e -> e = ValueError \/ e = OverflowError.
Proof.
  induction s as [|c t IH]; intros wb acc e H.
  - eapply flush_run_raises; eassumption.
  - cbn [expand_runs] in H. destruct (is_digit c); [eapply IH; eassumption|].
    destruct (flush_run wb acc (is_word c)) as [piece|e0] eqn:Hf.
    + destruct (expand_runs (is_word c) [] t) as [rest|e0] eqn:He; [discriminate|].
      cbn in H. inversion H. subst. eapply IH; eassumption.
    + cbn in H. inversion H. subst. eapply flush_run_raises; eassumption.
Qed.

Lemma traducir_raises texto e :
  traducir_numero_a_texto texto = Raised e -> e = ValueError \/ e = OverflowError.
Proof. rewrite traducir_spec. apply expand_runs_raises. Qed.

(** What holds of every spelling holds of the text put for a run. *)
Lemma spelled_forallb (Q : char -> bool) :
  (forall n words, num2words_es n = Some words -> forallb Q words = true) ->
  forall run, forallb Q (spelled run) = true.
Proof.
  intros H run. unfold spelled, spell_run, py_int, num2words.
  destruct (int_refuses (length run)); [reflexivity|]. cbn [and_then].
  destruct (num2words_es (int_value run)) eqn:Hn; [|reflexivity].
  exact (H _ _ Hn).
Qed.

(** A letter outside A-Z and a-z before a digit: no space, and the digit
    stays, in any environment where U+00F1 is a letter and not a digit. *)
Lemma accented_letter_not_separated :
  hi_decimal 241%N = None -> hi_alpha 241%N = true ->
  traducir_numero_a_texto [241; 51]%N = Returned [241; 51]%N.
Proof.
  intros Hd Ha. rewrite traducir_spec.
  assert (Hdig : is_digit 241%N = false).
  { unfold is_digit, to_decimal. cbn. now rewrite Hd. }
  assert (Hword : is_word 241%N = true).
  { unfold is_word, is_alnum, is_alpha. cbn. now rewrite Ha. }
  unfold spec_normalize, spec_separate, spec_expand.
  assert (Hsep : insert_spaces needs_space [241; 51]%N = [241; 51]%N).
  { cbn [insert_spaces]. unfold needs_space, letter_then_digit, digit_then_letter.
    now rewrite Hdig. }
  rewrite Hsep. rewrite expand_runs_other by exact Hdig. rewrite Hword.
  reflexivity.
Qed.

End NormalizerFacts.

(* ===================================================================== *)
(** ** Texts the normalizer leaves alone, and its second pass *)
(* ===================================================================== *)

Section Stability.
Context {E : PyEnv}.

Lemma run_ind (P : str -> Prop) :
  P [] ->
  (forall c t, is_digit c = false -> P t -> P (c :: t)) ->
  (forall d run rest,
      forallb is_digit (d :: run) = true -> no_digit_ahead rest = true ->
      P rest -> P ((d :: run) ++ rest)) ->
  forall s, P s.
Proof.
  intros Hnil Hother Hrun s.
  remember (length s) as n eqn:Hn. revert s Hn.
  induction n as [n IH] using lt_wf_ind. intros s Hn.
  destruct s as [|c t]; [exact Hnil|].
  destruct (is_digit c) eqn:Hc.
  - destruct (split_run t) as (run & rest & -> & Hr & Hrest).
    change (c :: run ++ rest) with ((c :: run) ++ rest).
    apply Hrun; [cbn; now rewrite Hc | exact Hrest |].
    apply (IH (length rest)); [|reflexivity].
    subst n. cbn. rewrite length_app. lia.
  - apply Hother; [exact Hc|].
    apply (IH (length t)); [subst n; cbn; lia | reflexivity].
Qed.

Lemma insert_spaces_fixed s : forall p,
  separated p s = true -> spec_separate s = s.
Proof.
  unfold spec_separate.
  induction s as [|a t IH]; intros p H; [reflexivity|].
  cbn in H. apply andb_true_iff in H. destruct H as [_ H].
  cbn [insert_spaces]. f_equal.
  destruct t as [|b t']; [reflexivity|].
  pose proof H as H'. cbn in H'. apply andb_true_iff in H'.
  destruct H' as [Hab _]. apply negb_true_iff in Hab. rewrite Hab.
  exact (IH _ H).
Qed.

Lemma separated_insert s : forall p,
  match p, s with
  | Some a, c :: _ => needs_space a c = false
  | _, _ => True
  end ->
  separated p (spec_separate s) = true.
Proof.
  unfold spec_separate.
  induction s as [|a t IH]; intros p H; [reflexivity|].
  cbn [insert_spaces separated].
  apply andb_true_iff. split.
  - destruct p; [now rewrite H | reflexivity].
  - destruct t as [|b t']; [reflexivity|].
    destruct (needs_space a b) eqn:Hab.
    + cbn [separated].
      rewrite (needs_space_not_word_r a SPACE) by reflexivity. cbn [negb andb].
      apply IH. apply needs_space_not_word_l. reflexivity.
    + apply IH. exact Hab.
Qed.

Lemma separated_no_digit s : forall p,
  no_digit s = true ->
  match p with Some a => is_digit a = false | None => True end ->
  separated p s = true.
Proof.
  induction s as [|c t IH]; intros p Hs Hp; [reflexivity|].
  cbn in Hs. apply andb_true_iff in Hs. destruct Hs as [Hc Hs].
  apply negb_true_iff in Hc.
  cbn [separated]. apply andb_true_iff. split.
  - destruct p as [a|]; [|reflexivity].
    destruct (needs_space a c) eqn:Hn; [|reflexivity].
    apply needs_space_digit in Hn. destruct Hn; congruence.
  - apply IH; assumption.
Qed.

Lemma separated_app u : forall p v,
  separated p (u ++ v) = separated p u && separated (last_char p u) v.
Proof.
  induction u as [|c u IH]; intros p v; [reflexivity|].
  cbn [app separated]. rewrite IH, andb_assoc. reflexivity.
Qed.

Lemma separated_rehead p p' u :
  is_word_at u = false -> separated p u = separated p' u.
Proof.
  destruct u as [|c t]; intros H; [reflexivity|].
  cbn in H. cbn [separated].
  destruct p, p'; rewrite ?(needs_space_not_word_r _ _ H); reflexivity.
Qed.

Lemma last_char_digits run : forall p d,
  forallb is_digit (d :: run) = true ->
  exists l, last_char p (d :: run) = Some l /\ is_digit l = true.
Proof.
  induction run as [|d' run IH]; intros p d H.
  - cbn in H. rewrite andb_true_r in H. exists d. auto.
  - cbn in H. apply andb_true_iff in H. destruct H as [_ H].
    exact (IH (Some d) d' H).
Qed.

Lemma expand_runs_no_digit u : forall wb,
  no_digit u = true -> expand_runs wb [] u = Returned u.
Proof.
  induction u as [|c u IH]; intros wb H; [reflexivity|].
  cbn in H. apply andb_true_iff in H. destruct H as [Hc H].
  apply negb_true_iff in Hc.
  rewrite expand_runs_other by exact Hc. now rewrite IH.
Qed.

Lemma expand_total_prefix u : forall wb v,
  no_digit u = true ->
  exists wb', expand_total wb [] (u ++ v) = u ++ expand_total wb' [] v.
Proof.
  induction u as [|c u IH]; intros wb v H.
  - exists wb. reflexivity.
  - cbn in H. apply andb_true_iff in H. destruct H as [Hc H].
    apply negb_true_iff in Hc.
    destruct (IH (is_word c) v H) as [wb' Hwb'].
    exists wb'. cbn [app]. rewrite expand_total_other by exact Hc.
    now rewrite Hwb'.
Qed.

Lemma expand_total_start wb rest :
  no_digit_ahead rest = true ->
  no_digit_ahead (expand_total wb [] rest) = true
  /\ is_word_at (expand_total wb [] rest) = is_word_at rest.
Proof.
  destruct rest as [|c t]; intros H; [auto|].
  pose proof H as H'. cbn in H'. apply negb_true_iff in H'.
  rewrite expand_total_other by exact H'. auto.
Qed.

Hypothesis spelling_no_digit :
  forall n words, num2words_es n = Some words -> no_digit words = true.

Lemma spelled_no_digit run : no_digit (spelled run) = true.
Proof. apply spelled_forallb. exact spelling_no_digit. Qed.

(** Step (2) changes nothing the second time. *)
Lemma expand_total_idempotent s : forall wb,
  expand_total wb [] (expand_total wb [] s) = expand_total wb [] s.
Proof.
  induction s as [|c t Hc IH|d run rest Hrun Hrest IH] using run_ind; intros wb.
  - reflexivity.
  - rewrite !expand_total_other by exact Hc. now rewrite IH.
  - rewrite expand_total_run by assumption.
    destruct (expand_total_start true rest Hrest) as [Hy1 Hy2].
    destruct (negb wb && negb (is_word_at rest)) eqn:Hb.
    + destruct (expand_total_prefix (spelled (d :: run)) wb
                  (expand_total true [] rest) (spelled_no_digit _)) as [wb' ->].
      f_equal. rewrite (expand_total_context wb' true _ Hy1). apply IH.
    + rewrite expand_total_run by assumption.
      rewrite Hy2, Hb. f_equal. apply IH.
Qed.

(** Step (2) brings no letter next to a digit. *)
Lemma separated_expand s : forall p wb,
  wb = is_word_opt p ->
  separated p s = true ->
  separated p (expand_total wb [] s) = true.
Proof.
  induction s as [|c t Hc IH|d run rest Hrun Hrest IH] using run_ind;
    intros p wb Hwb Hs.
  - reflexivity.
  - rewrite expand_total_other by exact Hc.
    cbn [separated] in *. apply andb_true_iff in Hs. destruct Hs as [Hpc Hs].
    rewrite Hpc. cbn [andb]. apply IH; [reflexivity | exact Hs].
  - rewrite expand_total_run by assumption.
    rewrite separated_app in Hs. apply andb_true_iff in Hs.
    destruct Hs as [Hs1 Hs2].
    destruct (last_char_digits run p d Hrun) as (l & Hl & Hld).
    destruct (negb wb && negb (is_word_at rest)) eqn:Hb.
    + apply andb_true_iff in Hb. destruct Hb as [Hb1 Hb2].
      apply negb_true_iff in Hb1, Hb2.
      rewrite separated_app. apply andb_true_iff. split.
      * apply separated_no_digit; [apply spelled_no_digit|].
        destruct p as [a|]; [|exact I]. cbn in Hwb.
        apply not_word_not_digit. congruence.
      * destruct (expand_total_start true rest Hrest) as [_ Hy2].
        rewrite (separated_rehead _ None) by congruence.
        rewrite (expand_total_context true false _ Hrest).
        apply IH; [reflexivity|].
        rewrite (separated_rehead _ (last_char p (d :: run))) by exact Hb2.
        exact Hs2.
    + rewrite separated_app. rewrite Hs1. cbn [andb].
      apply IH; [|exact Hs2].
      rewrite Hl. cbn. symmetry. now apply digit_is_word.
Qed.

(** A text that step (2) would leave as it is holds no run to spell: the
    walk returns it. *)
Lemma expand_runs_fixed s : forall wb,
  expand_total wb [] s = s -> expand_runs wb [] s = Returned s.
Proof.
  induction s as [|c t Hc IH|d run rest Hrun Hrest IH] using run_ind; intros wb H.
  - reflexivity.
  - rewrite expand_total_other in H by exact Hc. inversion H as [H'].
    rewrite expand_runs_other by exact Hc. rewrite H'.
    now rewrite (IH _ H').
  - rewrite expand_total_run in H by assumption.
    rewrite expand_runs_run by assumption.
    pose proof Hrun as Hd. cbn in Hd. apply andb_true_iff in Hd.
    destruct Hd as [Hd _].
    destruct (expand_total_start true rest Hrest) as [Hahead _].
    destruct (negb wb && negb (is_word_at rest)).
    + exfalso. pose proof (spelled_no_digit (d :: run)) as Hs.
      destruct (spelled (d :: run)) as [|x sp].
      * cbn [app] in H. rewrite H in Hahead. cbn in Hahead.
        rewrite Hd in Hahead. discriminate.
      * cbn [app] in H. inversion H. subst x.
        cbn in Hs. rewrite Hd in Hs. discriminate.
    + apply app_inv_head in H. rewrite (IH _ H). reflexivity.
Qed.

(** What the normalizer returns it returns again. *)
Lemma traducir_twice texto r :
  traducir_numero_a_texto texto = Returned r ->
  traducir_numero_a_texto r = Returned r.
Proof.
  intros H. apply traducir_total in H. subst r.
  rewrite traducir_spec. unfold spec_normalize, spec_expand.
  unfold total_normalize, total_expand.
  assert (Hsep : separated None (expand_total false [] (spec_separate texto)) = true).
  { apply separated_expand; [reflexivity|]. now apply separated_insert. }
  rewrite (insert_spaces_fixed _ _ Hsep).
  apply expand_runs_fixed. apply expand_total_idempotent.
Qed.

End Stability.

(* ===================================================================== *)
(** ** The text [infer] hands to the synthesis *)
(* ===================================================================== *)

Section InferFacts.
Context {E : PyEnv}.

Lemma startswith_app p t : startswith p (p ++ t) = true.
Proof.
  induction p as [|a p IH]; [reflexivity|].
  cbn. now rewrite N.eqb_refl.
Qed.

Lemma startswith_inv p : forall s,
  startswith p s = true -> exists t, s = p ++ t.
Proof.
  induction p as [|a p IH]; intros s H.
  - exists s. reflexivity.
  - destruct s as [|b s]; [discriminate|].
    cbn in H. apply andb_true_iff in H. destruct H as [Hab H].
    apply N.eqb_eq in Hab. subst b.
    destruct (IH s H) as [t ->]. exists t. reflexivity.
Qed.

Lemma endswith_app p u : endswith p (u ++ p) = true.
Proof. unfold endswith. rewrite rev_app_distr. apply startswith_app. Qed.

Lemma endswith_inv p s : endswith p s = true -> exists u, s = u ++ p.
Proof.
  unfold endswith. intros H.
  destruct (startswith_inv _ _ H) as [t Ht].
  exists (rev t).
  rewrite <- (rev_involutive s), Ht, rev_app_distr, rev_involutive.
  reflexivity.
Qed.

(** Lines 93-96: the reply between a leading space and a final ". ". *)
Lemma shaped_text gen_text :
  let g2 := with_final_stop (with_leading_space gen_text) in
  (exists t, g2 = SPACE :: t) /\ (exists u, g2 = u ++ [DOT; SPACE]).
Proof.
  intros g2.
  assert (H1 : exists t, with_leading_space gen_text = SPACE :: t).
  { unfold with_leading_space. destruct (startswith (py " ") gen_text) eqn:Hs.
    - destruct (startswith_inv _ _ Hs) as [t ->]. exists t. reflexivity.
    - exists gen_text. reflexivity. }
  destruct H1 as [t Ht]. subst g2. unfold with_final_stop.
  destruct (endswith (py ". ") (with_leading_space gen_text)) eqn:He.
  - split; [eauto|]. destruct (endswith_inv _ _ He) as [u Hu]. exists u. exact Hu.
  - split; [|exists (with_leading_space gen_text); reflexivity].
    rewrite Ht. exists (t ++ [DOT; SPACE]). reflexivity.
Qed.

Lemma lower_from_space bef t :
  lower_from bef (SPACE :: t) = SPACE :: lower_from (SPACE :: bef) t.
Proof. reflexivity. Qed.

Lemma lower_from_suffix u : forall bef,
  exists pre, lower_from bef (u ++ [DOT; SPACE]) = pre ++ [DOT; SPACE].
Proof.
  induction u as [|c u IH]; intros bef.
  - exists []. reflexivity.
  - destruct (IH (c :: bef)) as [pre Hpre].
    exists (lower_char bef c (u ++ [DOT; SPACE]) ++ pre).
    cbn [app lower_from]. rewrite Hpre. now rewrite app_assoc.
Qed.

Lemma spec_separate_suffix u :
  spec_separate (u ++ [DOT; SPACE]) = spec_separate u ++ [DOT; SPACE].
Proof.
  unfold spec_separate.
  induction u as [|a u IH]; [reflexivity|].
  destruct u as [|b u'].
  - cbn [app insert_spaces].
    rewrite (needs_space_not_word_r a DOT) by reflexivity. reflexivity.
  - change (insert_spaces needs_space ((a :: b :: u') ++ [DOT; SPACE]))
      with (a :: if needs_space a b
                 then SPACE :: insert_spaces needs_space ((b :: u') ++ [DOT; SPACE])
                 else insert_spaces needs_space ((b :: u') ++ [DOT; SPACE])).
    rewrite IH.
    change (insert_spaces needs_space (a :: b :: u'))
      with (a :: if needs_space a b
                 then SPACE :: insert_spaces needs_space (b :: u')
                 else insert_spaces needs_space (b :: u')).
    now destruct (needs_space a b).
Qed.

Lemma expand_total_suffix u : forall wb acc,
  expand_total wb acc (u ++ [DOT; SPACE]) = expand_total wb acc u ++ [DOT; SPACE].
Proof.
  induction u as [|c u IH]; intros wb acc.
  - reflexivity.
  - cbn [app expand_total]. destruct (is_digit c); [apply IH|].
    rewrite IH, <- app_assoc. reflexivity.
Qed.

Lemma total_normalize_space t :
  exists r, total_normalize (SPACE :: t) = SPACE :: r.
Proof.
  unfold total_normalize, total_expand, spec_separate.
  destruct (insert_spaces_head needs_space SPACE t) as [tl ->].
  rewrite expand_total_other by reflexivity. eauto.
Qed.

Lemma total_normalize_suffix u :
  total_normalize (u ++ [DOT; SPACE]) = total_normalize u ++ [DOT; SPACE].
Proof.
  unfold total_normalize, total_expand.
  now rewrite spec_separate_suffix, expand_total_suffix.
Qed.

(** Lines 93-99 are the shaping in the words of the specification. *)
Lemma infer_gen_text_spec gen_text :
  infer_gen_text gen_text = spec_shape gen_text.
Proof.
  unfold infer_gen_text, spec_shape, with_final_stop, with_leading_space.
  rewrite traducir_spec.
  change (py " " ++ gen_text) with (SPACE :: gen_text).
  change (py ". ") with [DOT; SPACE].
  destruct (startswith (py " ") gen_text); cbn [negb].
  - now destruct (endswith [DOT; SPACE] gen_text).
  - now destruct (endswith [DOT; SPACE] (SPACE :: gen_text)).
Qed.

(** The shaped text keeps its leading space and its final ". ". *)
Lemma spec_shape_returned gen_text shaped :
  spec_shape gen_text = Returned shaped ->
  startswith (py " ") shaped = true
  /\ endswith (py ". ") shaped = true
  /\ shaped = total_normalize (lower (with_final_stop (with_leading_space gen_text))).
Proof.
  unfold spec_shape, spec_normalize, spec_expand. intros H.
  apply expand_runs_total in H.
  change (shaped
          = total_normalize (lower (with_final_stop (with_leading_space gen_text))))
    in H.
  destruct (shaped_text gen_text) as [[t Ht] [u Hu]]. cbv zeta in Ht, Hu.
  split; [|split; [|exact H]]; subst shaped.
  - rewrite Ht. unfold lower. rewrite lower_from_space.
    destruct (total_normalize_space (lower_from [SPACE] t)) as [r ->]. reflexivity.
  - rewrite Hu. unfold lower.
    destruct (lower_from_suffix u []) as [pre ->].
    rewrite total_normalize_suffix. apply (endswith_app (py ". ")).
Qed.

(** Every way [infer] can end. *)
Lemma infer_cases {Wave Spectro} (svc : Services Wave Spectro)
      ref_audio_orig ref_text gen_text model remove_silence w :
  infer svc ref_audio_orig ref_text gen_text model remove_silence w
  = match preprocess_ref_audio_text svc ref_audio_orig ref_text with
    | Raised e => (Raised e, w)
    | Returned (ref_audio, ref_text') =>
        match infer_gen_text gen_text with
        | Raised e => (Raised e, w)
        | Returned shaped =>
            let w' := World (history w) (conv_state w) (shaped :: synthesized w) in
            match infer_process svc ref_audio ref_text' shaped with
            | Raised e => (Raised e, w')
            | Returned (wave, rate, spectro) =>
                match (if remove_silence
                       then remove_silence_for_generated_wav svc wave rate
                       else Returned wave) with
                | Raised e => (Raised e, w')
                | Returned final_wave =>
                    match save_spectrogram svc spectro with
                    | Raised e => (Raised e, w')
                    | Returned path => (Returned ((rate, final_wave), path), w')
                    end
                end
            end
        end
    end.
Proof.
  unfold infer, bind, call, ret, call_infer_process.
  destruct (preprocess_ref_audio_text svc ref_audio_orig ref_text)
    as [[ref_audio ref_text']|e]; [|reflexivity].
  destruct (infer_gen_text gen_text) as [shaped|e]; [|reflexivity].
  cbv zeta.
  destruct (infer_process svc ref_audio ref_text' shaped)
    as [[[wave rate] spectro]|e]; [|reflexivity].
  destruct remove_silence.
  - destruct (remove_silence_for_generated_wav svc wave rate); [|reflexivity].
    now destruct (save_spectrogram svc spectro).
  - now destruct (save_spectrogram svc spectro).
Qed.

(** What [infer] adds to the texts [infer_process] was called with:
    nothing if the reference audio could not be prepared or the normalizer
    raised, else the shaped text. *)
Lemma infer_synthesized {Wave Spectro} (svc : Services Wave Spectro)
      ref_audio_orig ref_text gen_text model remove_silence w :
  let w' := snd (infer svc ref_audio_orig ref_text gen_text model remove_silence w) in
  history w' = history w /\ conv_state w' = conv_state w
  /\ (synthesized w' = synthesized w
      \/ exists shaped,
          infer_gen_text gen_text = Returned shaped
          /\ synthesized w' = shaped :: synthesized w).
Proof.
  rewrite infer_cases.
  destruct (preprocess_ref_audio_text svc ref_audio_orig ref_text)
    as [[ref_audio ref_text']|e]; cbn; [|auto].
  destruct (infer_gen_text gen_text) as [shaped|e]; cbn; [|auto].
  assert (Hs : exists shaped0, Returned shaped = Returned shaped0
                               /\ shaped :: synthesized w = shaped0 :: synthesized w)
    by eauto.
  destruct (infer_process svc ref_audio ref_text' shaped)
    as [[[wave rate] spectro]|e]; cbn; [|auto].
  destruct remove_silence; cbn.
  - destruct (remove_silence_for_generated_wav svc wave rate); cbn; [|auto].
    destruct (save_spectrogram svc spectro); cbn; auto.
  - destruct (save_spectrogram svc spectro); cbn; auto.
Qed.

(** With the reference audio prepared: [infer] raises what the shaping
    raises, before any call of [infer_process]; else [infer_process] is
    called with the shaped text. *)
Lemma infer_cases_shaped {Wave Spectro} (svc : Services Wave Spectro)
      ref_audio_orig ref_text gen_text model remove_silence w ref_audio ref_text' :
  preprocess_ref_audio_text svc ref_audio_orig ref_text
  = Returned (ref_audio, ref_text') ->
  let run := infer svc ref_audio_orig ref_text gen_text model remove_silence w in
  (forall e, spec_shape gen_text = Raised e -> run = (Raised e, w))
  /\ (forall shaped,
         spec_shape gen_text = Returned shaped ->
         synthesized (snd run) = shaped :: synthesized w
         /\ (forall e,
                infer_process svc ref_audio ref_text' shaped = Raised e ->
                run = (Raised e,
                       World (history w) (conv_state w) (shaped :: synthesized w)))).
Proof.
  intros Hpre run. subst run. rewrite infer_cases, Hpre, infer_gen_text_spec.
  split.
  - intros e ->. reflexivity.
  - intros shaped ->. cbv zeta. split.
    + destruct (infer_process svc ref_audio ref_text' shaped)
        as [[[wave rate] spectro]|e]; [|reflexivity].
      destruct remove_silence.
      * destruct (remove_silence_for_generated_wav svc wave rate); [|reflexivity].
        now destruct (save_spectrogram svc spectro).
      * now destruct (save_spectrogram svc spectro).
    + intros e ->. reflexivity.
Qed.

(** *** Lower case *)

Lemma forallb_rev (Q : char -> bool) l : forallb Q (rev l) = forallb Q l.
Proof.
  induction l as [|a l IH]; [reflexivity|].
  cbn. rewrite forallb_app, IH. cbn. rewrite andb_true_r. apply andb_comm.
Qed.

Section Preserved.
Variable Q : char -> bool.
Hypothesis Q_space : Q SPACE = true.
Hypothesis Q_spelling :
  forall n words, num2words_es n = Some words -> forallb Q words = true.

Lemma insert_spaces_forallb P s :
  forallb Q s = true -> forallb Q (insert_spaces P s) = true.
Proof.
  induction s as [|a t IH]; intros H; [reflexivity|].
  cbn in H. apply andb_true_iff in H. destruct H as [Ha Ht].
  cbn [insert_spaces forallb]. rewrite Ha. cbn [andb].
  destruct t as [|b t']; [reflexivity|].
  destruct (P a b); [cbn [forallb]; rewrite Q_space|]; now apply IH.
Qed.

Lemma flush_total_forallb wb acc wa :
  forallb Q acc = true -> forallb Q (flush_total wb acc wa) = true.
Proof.
  intros H. unfold flush_total. destruct acc as [|a acc]; [reflexivity|].
  destruct (negb wb && negb wa); [now apply spelled_forallb|].
  now rewrite forallb_rev.
Qed.

Lemma expand_total_forallb s : forall wb acc,
  forallb Q acc = true -> forallb Q s = true ->
  forallb Q (expand_total wb acc s) = true.
Proof.
  induction s as [|c t IH]; intros wb acc Hacc Hs.
  - now apply flush_total_forallb.
  - cbn in Hs. apply andb_true_iff in Hs. destruct Hs as [Hc Ht].
    cbn [expand_total]. destruct (is_digit c).
    + apply IH; [cbn; now rewrite Hc|exact Ht].
    + rewrite forallb_app, flush_total_forallb by exact Hacc.
      cbn [forallb andb]. rewrite Hc. cbn [andb]. now apply IH.
Qed.

Lemma total_normalize_forallb s :
  forallb Q s = true -> forallb Q (total_normalize s) = true.
Proof.
  intros H. unfold total_normalize, total_expand, spec_separate.
  apply expand_total_forallb; [reflexivity|].
  now apply insert_spaces_forallb.
Qed.
End Preserved.

Lemma lower_from_no_upper s : forall bef,
  (forall b c a, (128 <= c)%N -> no_ascii_upper (hi_lower b c a) = true) ->
  no_ascii_upper (lower_from bef s) = true.
Proof.
  intros bef Hhi. revert bef. unfold no_ascii_upper in *.
  induction s as [|c t IH]; intros bef; [reflexivity|].
  cbn [lower_from]. rewrite forallb_app, IH, andb_true_r.
  unfold lower_char. destruct (c <? 128)%N eqn:Hc;
    [|apply Hhi; now apply N.ltb_ge].
  cbn [forallb]. rewrite andb_true_r.
  destruct (is_ascii_upper c) eqn:Hu; [|now rewrite Hu].
  unfold is_ascii_upper in *. apply negb_true_iff, andb_false_iff.
  bool_to_prop. right. apply N.leb_gt. lia.
Qed.

End InferFacts.

(* ===================================================================== *)
(** ** The Style Segment Parser *)
(* ===================================================================== *)

Section ParserFacts.
Context {E : PyEnv}.

Lemma close_tag_sound u : forall l rest,
  close_tag u = Some (l, rest) -> u = l ++ RBRACE :: rest /\ label_ok l = true.
Proof.
  induction u as [|c t IH]; intros l rest H; [discriminate|].
  cbn in H. destruct (c =? RBRACE)%N eqn:Hr.
  - apply N.eqb_eq in Hr. inversion H. subst. auto.
  - destruct (c =? NEWLINE)%N eqn:Hn; [discriminate|].
    destruct (close_tag t) as [[l' rest']|]; [|discriminate].
    inversion H. subst. destruct (IH _ _ eq_refl) as [-> Hl].
    split; [reflexivity|]. unfold label_ok in *. cbn. now rewrite Hr, Hn, Hl.
Qed.

Lemma close_tag_complete l : forall rest,
  label_ok l = true -> close_tag (l ++ RBRACE :: rest) = Some (l, rest).
Proof.
  induction l as [|c l IH]; intros rest H.
  - reflexivity.
  - unfold label_ok in *.
    cbn in H. apply andb_true_iff in H. destruct H as [Hc Hl].
    apply andb_true_iff in Hc. destruct Hc as [Hr Hn].
    apply negb_true_iff in Hr, Hn.
    cbn [app close_tag]. now rewrite Hr, Hn, IH.
Qed.

(** The lazy repetition inside the group, followed by the closing
    brace; [m1] is what the pattern had matched before the group. *)
Lemma lazy_close m1 u : forall b m g,
  lazy_star not_newline
    (fun st' =>
       re_match (Class (N.eqb RBRACE)) (fun st => Some st)
         (MState (before st') (matched st' ++ m1) (after st')
                 (groups st' ++ [rev (matched st')])))
    b m u g
  = match close_tag u with
    | Some (l, rest) =>
        Some (MState (RBRACE :: rev l ++ b) (RBRACE :: (rev l ++ m) ++ m1) rest
                     (g ++ [rev (rev l ++ m)]))
    | None => None
    end.
Proof.
  induction u as [|c t IH]; intros b m g; [reflexivity|].
  cbn [lazy_star re_match before matched after groups close_tag step].
  rewrite (N.eqb_sym RBRACE c).
  destruct (c =? RBRACE)%N eqn:Hr.
  - apply N.eqb_eq in Hr. subst c. reflexivity.
  - unfold not_newline at 1. destruct (c =? NEWLINE)%N; [reflexivity|].
    cbn [negb]. rewrite IH.
    destruct (close_tag t) as [[l rest]|]; [|reflexivity].
    cbn [rev]. rewrite <- !app_assoc. reflexivity.
Qed.

Lemma re_match_Seq r1 r2 k st :
  re_match (Seq r1 r2) k st = re_match r1 (re_match r2 k) st.
Proof. reflexivity. Qed.

Lemma re_match_Class p k st :
  re_match (Class p) k st =
  match after st with
  | c :: t => if p c then k (step st c t) else None
  | [] => None
  end.
Proof. reflexivity. Qed.

Lemma re_match_Group r k st :
  re_match (Group r) k st =
  re_match r
    (fun st' =>
       k (MState (before st') (matched st' ++ matched st) (after st')
                 (groups st' ++ [rev (matched st')])))
    (MState (before st) [] (after st) (groups st)).
Proof. reflexivity. Qed.

Lemma re_match_LazyStar p k st :
  re_match (LazyStar p) k st
  = lazy_star p k (before st) (matched st) (after st) (groups st).
Proof. reflexivity. Qed.

Lemma match_tag b c u :
  match_at pattern b (c :: u)
  = if (c =? LBRACE)%N then
      match close_tag u with
      | Some (l, rest) =>
          Some (MState (RBRACE :: rev l ++ c :: b) (RBRACE :: rev l ++ [c]) rest [l])
      | None => None
      end
    else None.
Proof.
  unfold match_at, pattern.
  rewrite re_match_Seq, re_match_Class. cbn [after].
  rewrite (N.eqb_sym LBRACE c).
  destruct (c =? LBRACE)%N; [|reflexivity].
  rewrite re_match_Seq, re_match_Group, re_match_LazyStar, lazy_close.
  cbn [before matched after groups step].
  destruct (close_tag u) as [[l rest]|]; [|reflexivity].
  cbn [app]. now rewrite !app_nil_r, rev_involutive.
Qed.

Lemma split_loop_cons r b acc c t :
  split_loop r b 0 acc (c :: t) =
  match match_at r b (c :: t) with
  | Some st =>
      match length (matched st) with
      | S k => rev acc :: groups st ++ split_loop r (c :: b) k [] t
      | O => split_loop r (c :: b) 0 (c :: acc) t
      end
  | None => split_loop r (c :: b) 0 (c :: acc) t
  end.
Proof. reflexivity. Qed.

(** A tag found at the head of the text. *)
Lemma split_loop_tag b acc l rest :
  close_tag (l ++ RBRACE :: rest) = Some (l, rest) ->
  split_loop pattern b 0 acc (LBRACE :: l ++ RBRACE :: rest)
  = rev acc :: l
      :: split_loop pattern (rev (l ++ [RBRACE]) ++ LBRACE :: b) 0 [] rest.
Proof.
  intros H. rewrite split_loop_cons, match_tag, N.eqb_refl, H.
  cbn [matched groups length app].
  replace (length (rev l ++ [LBRACE])) with (length (l ++ [RBRACE]))
    by (now rewrite !length_app, length_rev).
  replace (l ++ RBRACE :: rest) with ((l ++ [RBRACE]) ++ rest)
    by (now rewrite <- app_assoc).
  now rewrite split_loop_skip.
Qed.

(** What [re.split] returns: the text before the first tag, then label
    and text in turn; put together again they are the script. *)
Lemma split_tokens s : forall b acc,
  exists t0 ps,
    split_loop pattern b 0 acc s = (rev acc ++ t0) :: flat_tokens ps
    /\ t0 ++ render_tags ps = s
    /\ forallb (fun p => label_ok (fst p)) ps = true.
Proof.
  remember (length s) as n eqn:Hn. revert s Hn.
  induction n as [n IH] using lt_wf_ind. intros s Hn b acc.
  destruct s as [|c t].
  - exists [], []. cbn. now rewrite app_nil_r.
  - destruct (c =? LBRACE)%N eqn:Hc.
    + apply N.eqb_eq in Hc. subst c.
      destruct (close_tag t) as [[l rest]|] eqn:Hclose.
      * destruct (close_tag_sound _ Hclose) as [-> Hl].
        rewrite split_loop_tag by exact Hclose.
        destruct (IH (length rest)) with (s := rest)
                 (b := rev (l ++ [RBRACE]) ++ LBRACE :: b) (acc := @nil char)
          as (t0 & ps & Heq & Hrender & Hok);
          [subst n; cbn; rewrite length_app; cbn; lia | reflexivity |].
        exists [], ((l, t0) :: ps). rewrite Heq, app_nil_r.
        cbn [flat_tokens render_tags app forallb fst rev].
        rewrite Hrender, Hl, Hok. auto.
      * destruct (IH (length t)) with (s := t) (b := LBRACE :: b)
                 (acc := LBRACE :: acc)
          as (t0 & ps & Heq & Hrender & Hok);
          [subst n; cbn; lia | reflexivity |].
        exists (LBRACE :: t0), ps.
        rewrite split_loop_cons, match_tag, N.eqb_refl, Hclose, Heq.
        cbn [rev app]. rewrite <- app_assoc, Hrender. auto.
    + destruct (IH (length t)) with (s := t) (b := c :: b) (acc := c :: acc)
        as (t0 & ps & Heq & Hrender & Hok);
        [subst n; cbn; lia | reflexivity |].
      exists (c :: t0), ps.
      rewrite split_loop_cons, match_tag, Hc, Heq.
      cbn [rev app]. rewrite <- app_assoc, Hrender. auto.
Qed.

(** On a script whose texts hold no opening brace the tokens are the
    parts it was written from. *)
Lemma split_render ps : forall t0 b acc,
  no_lbrace t0 = true ->
  forallb (fun p => label_ok (fst p) && no_lbrace (snd p)) ps = true ->
  split_loop pattern b 0 acc (t0 ++ render_tags ps)
  = (rev acc ++ t0) :: flat_tokens ps.
Proof.
  induction ps as [|[l t] ps IH]; intros t0; induction t0 as [|c t0 IHt];
    intros b acc Ht0 Hps.
  - cbn. now rewrite app_nil_r.
  - cbn in Ht0. apply andb_true_iff in Ht0. destruct Ht0 as [Hc Ht0].
    apply negb_true_iff in Hc.
    cbn [app]. rewrite split_loop_cons, match_tag, Hc.
    rewrite app_nil_r in *. rewrite IHt by assumption.
    cbn [rev]. now rewrite <- app_assoc.
  - cbn in Hps. apply andb_true_iff in Hps. destruct Hps as [Hlt Hps].
    apply andb_true_iff in Hlt. destruct Hlt as [Hl Ht].
    cbn [app render_tags flat_tokens].
    rewrite split_loop_tag by (now apply close_tag_complete).
    rewrite IH by assumption. now rewrite app_nil_r.
  - cbn in Ht0. apply andb_true_iff in Ht0. destruct Ht0 as [Hc Ht0].
    apply negb_true_iff in Hc.
    cbn [app]. rewrite split_loop_cons, match_tag, Hc.
    rewrite IHt by assumption.
    cbn [rev]. now rewrite <- app_assoc.
Qed.

Lemma parity_step k :
  (k mod 2 = 1 -> S k mod 2 = 0 /\ S (S k) mod 2 = 1)%nat.
Proof.
  intros H.
  pose proof (Nat.div_mod_eq k 2). pose proof (Nat.div_mod_eq (S k) 2).
  pose proof (Nat.div_mod_eq (S (S k)) 2).
  pose proof (Nat.mod_upper_bound (S k) 2).
  pose proof (Nat.mod_upper_bound (S (S k)) 2). lia.
Qed.

Lemma parse_body_odd tokens segs cur i :
  (i mod 2 = 1)%nat ->
  parse_body tokens (segs, cur) i = (segs, strip (nth i tokens [])).
Proof. intros H. unfold parse_body. now rewrite H. Qed.

Lemma parse_body_even tokens segs cur i :
  (i mod 2 = 0)%nat ->
  parse_body tokens (segs, cur) i
  = (if truthy (strip (nth i tokens []))
     then segs ++ [Segment cur (strip (nth i tokens []))] else segs, cur).
Proof.
  intros H. unfold parse_body. rewrite H. cbn [Nat.eqb].
  now destruct (truthy _).
Qed.

(** The loop over the tokens from an odd index on: each label sets the
    style of the text after it. *)
Lemma parse_fold ps : forall pre segs cur,
  (length pre mod 2 = 1)%nat ->
  exists cur',
    fold_left (parse_body (pre ++ flat_tokens ps))
              (seq (length pre) (length (flat_tokens ps))) (segs, cur)
    = (segs ++ segments_from ps, cur').
Proof.
  induction ps as [|[l t] ps IH]; intros pre segs cur Hodd.
  - exists cur. cbn. now rewrite app_nil_r.
  - destruct (parity_step _ Hodd) as [Heven Hodd'].
    cbn [flat_tokens length seq fold_left].
    rewrite (parse_body_odd _ _ _ _ Hodd), (parse_body_even _ _ _ _ Heven).
    rewrite nth_middle.
    replace (nth (S (length pre)) (pre ++ l :: t :: flat_tokens ps) [])
      with t.
    2:{ replace (pre ++ l :: t :: flat_tokens ps)
          with ((pre ++ [l]) ++ t :: flat_tokens ps)
          by (now rewrite <- app_assoc).
        replace (S (length pre)) with (length (pre ++ [l]))
          by (rewrite length_app; cbn; lia).
        now rewrite nth_middle. }
    replace (pre ++ l :: t :: flat_tokens ps)
      with ((pre ++ [l; t]) ++ flat_tokens ps)
      by (now rewrite <- app_assoc).
    replace (S (S (length pre))) with (length (pre ++ [l; t]))
      by (rewrite length_app; cbn; lia).
    assert (Hodd2 : (length (pre ++ [l; t]) mod 2 = 1)%nat).
    { rewrite length_app. cbn [length].
      replace (length pre + 2)%nat with (S (S (length pre))) by lia.
      exact Hodd'. }
    destruct (IH (pre ++ [l; t])
                 (if truthy (strip t)
                  then segs ++ [Segment (strip l) (strip t)] else segs)
                 (strip l) Hodd2) as [cur' Hcur'].
    exists cur'.
    destruct (truthy (strip t)) eqn:Ht.
    + rewrite Hcur'. cbn [segments_from]. unfold emit. rewrite Ht.
      now rewrite <- app_assoc.
    + rewrite Hcur'. cbn [segments_from]. unfold emit. rewrite Ht. reflexivity.
Qed.

(** The loop on a token list is the reading of the script. *)
Lemma parse_tokens t0 ps :
  fst (fold_left (parse_body (t0 :: flat_tokens ps))
                 (seq 0 (length (t0 :: flat_tokens ps))) ([], py "Regular"))
  = spec_segments (t0, ps).
Proof.
  cbn [length seq fold_left].
  destruct (parse_fold ps [t0]
              (if truthy (strip t0) then [Segment (py "Regular") (strip t0)] else [])
              (py "Regular") eq_refl) as [cur' Hcur'].
  cbn [app length] in Hcur'.
  rewrite (parse_body_even _ _ _ 0 eq_refl). cbn [nth].
  unfold spec_segments, emit. cbn [fst snd].
  destruct (truthy (strip t0)); cbn [app]; rewrite Hcur'; reflexivity.
Qed.

End ParserFacts.

(* ===================================================================== *)
(** ** The conversation handlers *)
(* ===================================================================== *)

Section ConversationFacts.
Context {E : PyEnv}.
Context {Wave Spectro : Type}.
Variable svc : Services Wave Spectro.

Lemma history_set_last_app e x h cs sy :
  history_set_last e (World (h ++ [x]) cs sy)
  = (Returned tt, World (h ++ [e]) cs sy).
Proof.
  unfold history_set_last. cbn [history conv_state synthesized].
  destruct (h ++ [x]) eqn:Heq; [destruct h; discriminate|].
  now rewrite <- Heq, removelast_last.
Qed.


(** What a call of [process_audio_input] that returns has done: nothing,
    or one whole turn; and it returns the two lists as they then are. *)
Lemma process_audio_input_returned audio_path text w res w' :
  process_audio_input svc audio_path text w = (Returned res, w') ->
  res = (history w', conv_state w', [])
  /\ (w' = w
      \/ exists text' response,
          truthy (strip text') = true
          /\ w' = World (history w ++ [(text', Some response)])
                        (conv_state w
                           ++ [Message user text'; Message assistant response])
                        (synthesized w)).
Proof.
  unfold process_audio_input.
  destruct (negb (truthy_opt audio_path) && negb (truthy (strip text))).
  { cbn. intros H. inversion H. subst. auto. }
  set (pick := match audio_path with Some p => _ | None => _ end).
  assert (Hpick : snd (pick w) = w).
  { subst pick. destruct audio_path as [p|]; [|reflexivity].
    destruct (truthy p); [|reflexivity].
    unfold bind, call, ret.
    now destruct (preprocess_ref_audio_text svc p text). }
  unfold bind at 1. destruct (pick w) as [[text'|e] w1]; cbn in Hpick; subst w1;
    [|intros H; discriminate H].
  destruct (truthy (strip text')) eqn:Htext; cbn [negb].
  2:{ cbn. intros H. inversion H. subst. auto. }
  unfold bind, append_user_turn, complete_turn, bind, conv_state_append,
    history_append, get_conv_state, get_history, call, ret.
  cbn [history conv_state synthesized].
  destruct (generate_response svc _) as [response|e];
    [|intros H; discriminate H].
  rewrite history_set_last_app. cbn [history conv_state synthesized].
  intros H. inversion H. subst. split; [reflexivity|].
  right. exists text', response. rewrite <- app_assoc. auto.
Qed.

(** Every way [process_audio_input] can end. *)
Lemma process_audio_input_cases audio_path text w :
  (exists p e,
      audio_path = Some p /\ truthy p = true
      /\ preprocess_ref_audio_text svc p text = Raised e
      /\ process_audio_input svc audio_path text w = (Raised e, w))
  \/ process_audio_input svc audio_path text w
     = (Returned (history w, conv_state w, []), w)
  \/ exists t,
      truthy (strip t) = true
      /\ process_audio_input svc audio_path text w
         = match generate_response svc (conv_state w ++ [Message user t]) with
           | Returned r =>
               (Returned (history w ++ [(t, Some r)],
                          conv_state w ++ [Message user t; Message assistant r], []),
                World (history w ++ [(t, Some r)])
                      (conv_state w ++ [Message user t; Message assistant r])
                      (synthesized w))
           | Raised e =>
               (Raised e,
                World (history w ++ [(t, None)])
                      (conv_state w ++ [Message user t]) (synthesized w))
           end.
Proof.
  remember (process_audio_input svc audio_path text w) as run eqn:Hrun.
  unfold process_audio_input in Hrun.
  destruct (negb (truthy_opt audio_path) && negb (truthy (strip text))).
  { right. left. exact Hrun. }
  set (pick := match audio_path with Some p => _ | None => _ end) in Hrun.
  assert (Hpick : (exists p e, audio_path = Some p /\ truthy p = true
                               /\ preprocess_ref_audio_text svc p text = Raised e
                               /\ pick w = (Raised e, w))
                  \/ exists t, pick w = (Returned t, w)).
  { subst pick. destruct audio_path as [p|]; [|right; eexists; reflexivity].
    destruct (truthy p) eqn:Hp; [|right; eexists; reflexivity].
    unfold bind, call, ret.
    destruct (preprocess_ref_audio_text svc p text) as [r|e] eqn:Hr.
    - right. eexists. reflexivity.
    - left. exists p, e. auto. }
  unfold bind at 1 in Hrun.
  destruct Hpick as [(p & e & Hap & Hp & Hr & Hpick) | [t Hpick]];
    rewrite Hpick in Hrun.
  { left. exists p, e. auto. }
  right.
  destruct (truthy (strip t)) eqn:Ht; cbn [negb] in Hrun; [|left; exact Hrun].
  right. exists t. split; [exact Ht|]. rewrite Hrun.
  unfold bind, append_user_turn, complete_turn, bind, conv_state_append,
    history_append, get_conv_state, get_history, call, ret.
  cbn [history conv_state synthesized].
  destruct (generate_response svc _) as [r|e]; [|reflexivity].
  rewrite history_set_last_app. cbn [history conv_state synthesized].
  now rewrite <- app_assoc.
Qed.


(** [generate_audio_response] on every path, also when a collaborator
    raises: the two lists stay as they were. *)
Lemma generate_audio_response_keeps ref_audio ref_text model remove_silence w :
  let w' := snd (generate_audio_response svc ref_audio ref_text model
                                         remove_silence w) in
  history w' = history w /\ conv_state w' = conv_state w.
Proof.
  unfold generate_audio_response, bind, get_history.
  destruct (negb (truthy_list (history w)) || negb (truthy_opt ref_audio));
    [cbn; auto|].
  unfold get_last. destruct (rev (history w)) as [|[lu la] r]; [cbn; auto|].
  cbn [ret]. destruct (negb (truthy_opt la)); [cbn; auto|].
  match goal with
  | |- context [infer ?s ?a ?b ?c ?d ?e w] =>
      pose proof (infer_synthesized s a b c d e w) as Hi;
      destruct (infer s a b c d e w) as [[[ar sp]|ex] w1]
  end; cbn in *; tauto.
Qed.

End ConversationFacts.

Section InvariantFacts.
Context {E : PyEnv}.

Lemma settled_initial : settled initial_world.
Proof.
  unfold settled, one_system_first. cbn. repeat split.
  exists SYSTEM_PROMPT, []. auto.
Qed.













End InvariantFacts.

(* ===================================================================== *)
(** ** The sample environment *)
(* ===================================================================== *)

Module SampleFacts.
Import Sample.

Section Spelling.
Variable Q : char -> bool.
Hypothesis Q_units : forallb (forallb Q) units = true.
Hypothesis Q_tens : forallb (forallb Q) tens = true.
Hypothesis Q_and : forallb Q (py " y ") = true.

Lemma nth_forallb l i :
  forallb (forallb Q) l = true -> forallb Q (nth i l []) = true.
Proof.
  intros H. destruct (nth_in_or_default i l []) as [Hin | ->]; [|reflexivity].
  rewrite forallb_forall in H. now apply H.
Qed.

Lemma spell_digits_forallb ds : forallb Q (spell_digits ds) = true.
Proof.
  induction ds as [|d ds IH]; [reflexivity|].
  destruct ds as [|d' ds'].
  - change (spell_digits [d]) with (nth d units []). now apply nth_forallb.
  - change (spell_digits (d :: d' :: ds'))
      with (nth d units [] ++ [SPACE] ++ spell_digits (d' :: ds')).
    assert (Hs : Q SPACE = true).
    { pose proof Q_and as H. cbn in H. apply andb_true_iff in H. apply H. }
    rewrite !forallb_app, nth_forallb, IH by exact Q_units.
    cbn [forallb andb]. now rewrite Hs.
Qed.

Lemma spell_forallb n : forallb Q (spell n) = true.
Proof.
  unfold spell. destruct (n <? 30)%N; [now apply nth_forallb|].
  destruct (n <? 100)%N; [|apply spell_digits_forallb].
  rewrite forallb_app, nth_forallb by exact Q_tens.
  destruct (n mod 10 =? 0)%N; [reflexivity|].
  rewrite forallb_app, Q_and, nth_forallb by exact Q_units. reflexivity.
Qed.
End Spelling.

Lemma spell_no_digit n : @no_digit env (spell n) = true.
Proof. apply spell_forallb; reflexivity. Qed.

Lemma spell_no_upper n : no_ascii_upper (spell n) = true.
Proof. apply spell_forallb; reflexivity. Qed.

Lemma spelling_no_digit n words :
  @num2words_es env n = Some words -> @no_digit env words = true.
Proof.
  cbn. destruct (n <? MAXVAL)%N; [|discriminate].
  intros H. inversion H. apply spell_no_digit.
Qed.

Lemma spelling_no_upper n words :
  @num2words_es env n = Some words -> no_ascii_upper words = true.
Proof.
  cbn. destruct (n <? MAXVAL)%N; [|discriminate].
  intros H. inversion H. apply spell_no_upper.
Qed.

Lemma latin1_lower_no_upper b c a :
  (128 <= c)%N -> no_ascii_upper (latin1_lower b c a) = true.
Proof.
  intros H. unfold latin1_lower, no_ascii_upper, is_ascii_upper.
  destruct (_ || _); cbn [forallb]; rewrite andb_true_r;
    apply negb_true_iff, andb_false_iff; right; apply N.leb_gt; lia.
Qed.

End SampleFacts.

(* ===================================================================== *)
(** ** The matcher at work *)
(* ===================================================================== *)

Module MatcherExamples.

#[local] Existing Instance Sample.env.

(** [\b\d+\b] gives the digits back one by one and finds no boundary
    inside "12a". *)
Example number_before_letter :
  match_at re_number [] (py "12a") = None.
Proof. reflexivity. Qed.

(** [int] reads the digits of a run, leading zeros and all. *)
Example int_of_run : py_int (py "0204") = Returned 204%N.
Proof. reflexivity. Qed.

(** With the limit at 4300, [int] refuses 4301 digits, zeros or not. *)
Example int_of_long_run :
  py_int (repeat 49%N 4300) = Returned (int_value (repeat 49%N 4300))
  /\ py_int (repeat 48%N 4301) = Raised ValueError.
Proof. split; vm_compute; reflexivity. Qed.

(** A number of 28 digits is beyond the speller: the callback raises, and
    with it the normalizer; one of 27 digits is spelled. *)
Example number_too_large :
  reemplazar_numero (49%N :: repeat 48%N 27) [] = Raised OverflowError
  /\ traducir_numero_a_texto (py "son " ++ 49%N :: repeat 48%N 27)
     = Raised OverflowError
  /\ exists words,
      traducir_numero_a_texto (py "son " ++ 49%N :: repeat 48%N 26)
      = Returned (py "son " ++ words).
Proof.
  split; [vm_compute; reflexivity|]. split; [vm_compute; reflexivity|].
  eexists. vm_compute. reflexivity.
Qed.

(** The callback is called from left to right: of two runs without
    spelling the first one decides what is raised; a run that a word
    character touches is never handed to it. *)
Example first_run_raises :
  traducir_numero_a_texto
    (repeat 48%N 4301 ++ SPACE :: 49%N :: repeat 48%N 27) = Raised ValueError
  /\ traducir_numero_a_texto
       ((49%N :: repeat 48%N 27) ++ SPACE :: repeat 48%N 4301)
     = Raised OverflowError
  /\ traducir_numero_a_texto (UNDERSCORE :: 49%N :: repeat 48%N 27)
     = Returned (UNDERSCORE :: 49%N :: repeat 48%N 27).
Proof. repeat split; vm_compute; reflexivity. Qed.

(** After "x " the run "12" of "12 y" is matched whole. *)
Example number_between_spaces :
  match_at re_number (rev (py "x ")) (py "12 y")
  = Some (MState (rev (py "x 12")) (rev (py "12")) (py " y") []).
Proof. reflexivity. Qed.

(** No boundary between an underscore and a digit. *)
Example number_after_underscore :
  re_sub_call re_number reemplazar_numero (py "c_3 y 3_ z")
  = Returned (py "c_3 y 3_ z").
Proof. reflexivity. Qed.

(** The label is the shortest one: it ends at the first closing brace. *)
Example tag_is_lazy :
  re_split pattern (py "{a}b}c") = [ []; py "a"; py "b}c" ].
Proof. reflexivity. Qed.

(** An opening brace inside a label belongs to the label. *)
Example tag_from_first_brace :
  re_split pattern (py "x{a{b}y") = [ py "x"; py "a{b"; py "y" ].
Proof. reflexivity. Qed.

(** The dot does not match a newline: braces around a line end are text. *)
Example tag_not_across_lines :
  re_split pattern (py "{a" ++ [NEWLINE] ++ py "b} {c}")
  = [ py "{a" ++ [NEWLINE] ++ py "b} "; py "c"; [] ].
Proof. reflexivity. Qed.

(** A tag with no text after it, then another: the text after the second
    is styled by the second; a last tag without text gives nothing. *)
Example style_without_text :
  parse_speechtypes_text (py "{a}{b} z {c}")
  = [ Segment (py "b") (py "z") ].
Proof. reflexivity. Qed.

(** A whole turn with the sample collaborators. *)
Example one_turn :
  process_audio_input Sample.echo None (py "hola") initial_world
  = (Returned ([(py "hola", Some (py "Hola, 2 veces."))],
               [Message system SYSTEM_PROMPT; Message user (py "hola");
                Message assistant (py "Hola, 2 veces.")],
               []),
     World [(py "hola", Some (py "Hola, 2 veces."))]
           [Message system SYSTEM_PROMPT; Message user (py "hola");
            Message assistant (py "Hola, 2 veces.")] []).
Proof. reflexivity. Qed.

(** The reply of that turn as it reaches the synthesis: it ended with a
    full stop but not with ". ", so ". " was added. *)
Example one_synthesis :
  synthesized
    (snd (generate_audio_response Sample.echo
            (Some (py "voz.wav")) [] (py "F5-TTS") true
            (snd (process_audio_input Sample.echo None (py "hola") initial_world))))
  = [ py " hola, dos veces.. " ].
Proof. reflexivity. Qed.

End MatcherExamples.

(* ===================================================================== *)
(** ** The specification, claim by claim *)
(* ===================================================================== *)

(** C1, as the code has it.  For every input string
    [traducir_numero_a_texto] does what the two steps say: (1) a space is
    put between every ASCII letter (A-Z, a-z) and digit that touched, in
    either order, after which no ASCII letter is left touching a digit; then
    (2) every maximal run of digits with no word character on either side is
    replaced by its Spanish spelling.  Step (2) copies a character that is
    no digit, and at a maximal run of digits writes the spelling of its
    value if no word character stands before or after it, and the run itself
    otherwise; the spelling is what [num2words] returns for what [int]
    returns, and where one of them raises, at the first such run from the
    left, the function raises the same and returns nothing.  So it raises
    nothing but [ValueError] and [OverflowError].  With "tres" and "dos" the
    spellings of 3 and 2, "tengo 3 gatos" becomes "tengo tres gatos", and
    "v2 del modelo" becomes "v 2 del modelo" and then "v dos del modelo". *)
Theorem traducir_numero_a_texto_ascii_steps {E : PyEnv} :
  num2words_es 3%N = Some (py "tres") ->
  num2words_es 2%N = Some (py "dos") ->
  (forall texto,
      traducir_numero_a_texto texto = spec_expand (spec_separate texto))
  /\ (forall texto,
         re_sub re_digit_letter repl_space (re_sub re_letter_digit repl_space texto)
         = spec_separate texto)
  /\ (forall texto, separated None (spec_separate texto) = true)
  /\ (forall word_before c t,
         is_digit c = false ->
         expand_runs word_before [] (c :: t)
         = and_then (expand_runs (is_word c) [] t) (fun rest =>
           Returned (c :: rest)))
  /\ (forall word_before d run rest,
         forallb is_digit (d :: run) = true ->
         no_digit_ahead rest = true ->
         expand_runs word_before [] ((d :: run) ++ rest)
         = and_then (if negb word_before && negb (is_word_at rest)
                     then and_then (py_int (d :: run)) (fun n => num2words n)
                     else Returned (d :: run)) (fun piece =>
           and_then (expand_runs true [] rest) (fun tail =>
           Returned (piece ++ tail))))
  /\ (forall texto e,
         traducir_numero_a_texto texto = Raised e ->
         e = ValueError \/ e = OverflowError)
  /\ traducir_numero_a_texto (py "tengo 3 gatos") = Returned (py "tengo tres gatos")
  /\ re_sub re_digit_letter repl_space
       (re_sub re_letter_digit repl_space (py "v2 del modelo"))
     = py "v 2 del modelo"
  /\ traducir_numero_a_texto (py "v2 del modelo") = Returned (py "v dos del modelo").
Proof.
  intros H3 H2.
  split; [|split; [|split; [|split; [|split; [|split; [|split; [|split]]]]]]].
  - apply traducir_spec.
  - apply separate_spec.
  - intros texto. now apply separated_insert.
  - intros. now apply expand_runs_other.
  - intros. now apply expand_runs_run.
  - apply traducir_raises.
  - rewrite traducir_spec. cbv - [num2words_es]. now rewrite H3.
  - rewrite separate_spec. reflexivity.
  - rewrite traducir_spec. cbv - [num2words_es]. now rewrite H2.
Qed.

Lemma traducir_numero_a_texto_ascii_steps_witness :
  @num2words_es Sample.env 3%N = Some (py "tres")
  /\ @num2words_es Sample.env 2%N = Some (py "dos")
  /\ @traducir_numero_a_texto Sample.env (py "v2 del modelo")
     = Returned (py "v dos del modelo").
Proof.
  split; [reflexivity|]. split; [reflexivity|].
  apply (@traducir_numero_a_texto_ascii_steps Sample.env); reflexivity.
Defined.

(** C1 as written fails in two ways.  Where the letter is not an ASCII
    one: in "n-tilde 3" (U+00F1, alphabetic, then the digit 3) no space is
    inserted and the digit stays, while the claim asks for "n-tilde tres".
    And not every input gives a string: with a speller that raises from
    ten to the 27th on, as the package does, "son 1" followed by 27 zeros
    gives [OverflowError]. *)
Lemma traducir_numero_a_texto_accented_letter :
  @is_alpha Sample.env 241%N = true
  /\ @is_digit Sample.env 51%N = true
  /\ @traducir_numero_a_texto Sample.env [241; 51]%N = Returned [241; 51]%N
  /\ @spec_expand Sample.env
       (insert_spaces (@any_letter_needs_space Sample.env) [241; 51]%N)
     = Returned ([241; 32]%N ++ py "tres")
  /\ @traducir_numero_a_texto Sample.env (py "son " ++ 49%N :: repeat 48%N 27)
     = Raised OverflowError.
Proof. repeat split; vm_compute; reflexivity. Qed.

(** C8.  A string with no digit character comes back unchanged. *)
Theorem traducir_numero_a_texto_no_digits {E : PyEnv} (texto : str) :
  no_digit texto = true -> traducir_numero_a_texto texto = Returned texto.
Proof.
  intros H. rewrite traducir_spec. unfold spec_normalize, spec_expand.
  rewrite (insert_spaces_fixed texto None) by (now apply separated_no_digit).
  now apply expand_runs_no_digit.
Qed.

Lemma traducir_numero_a_texto_no_digits_witness :
  @no_digit Sample.env (py "sin cifras, se" ++ [241%N] ++ py "or") = true
  /\ @traducir_numero_a_texto Sample.env (py "sin cifras, se" ++ [241%N] ++ py "or")
     = Returned (py "sin cifras, se" ++ [241%N] ++ py "or").
Proof.
  split; [reflexivity|].
  apply (@traducir_numero_a_texto_no_digits Sample.env). reflexivity.
Defined.

(** C9.  Provided the spellings hold no digit: what the normalizer returns
    it returns again when applied to it, so normalizing twice (the second
    call on the result of the first, an exception of the first call ending
    both) does what normalizing once does, for every text. *)
Theorem traducir_numero_a_texto_idempotent {E : PyEnv} :
  (forall n words, num2words_es n = Some words -> no_digit words = true) ->
  (forall texto once,
      traducir_numero_a_texto texto = Returned once ->
      traducir_numero_a_texto once = Returned once)
  /\ (forall texto,
         and_then (traducir_numero_a_texto texto) traducir_numero_a_texto
         = traducir_numero_a_texto texto).
Proof.
  intros H.
  assert (Htwice : forall texto once,
             traducir_numero_a_texto texto = Returned once ->
             traducir_numero_a_texto once = Returned once)
    by (intros texto once; now apply traducir_twice).
  split; [exact Htwice|].
  intros texto. destruct (traducir_numero_a_texto texto) as [once|e] eqn:H1;
    [|reflexivity].
  exact (Htwice _ _ H1).
Qed.

Lemma traducir_numero_a_texto_idempotent_witness :
  (forall n words,
      @num2words_es Sample.env n = Some words -> @no_digit Sample.env words = true)
  /\ @traducir_numero_a_texto Sample.env (py "a1b22 c_3 45")
     = Returned (py "a uno b veintid" ++ [243%N] ++ py "s c_3 cuarenta y cinco")
  /\ @traducir_numero_a_texto Sample.env
       (py "a uno b veintid" ++ [243%N] ++ py "s c_3 cuarenta y cinco")
     = Returned (py "a uno b veintid" ++ [243%N] ++ py "s c_3 cuarenta y cinco").
Proof.
  split; [exact SampleFacts.spelling_no_digit|]. split; [reflexivity|].
  apply (proj1 (@traducir_numero_a_texto_idempotent Sample.env
                  SampleFacts.spelling_no_digit) (py "a1b22 c_3 45")).
  reflexivity.
Defined.

(** C2.  Every script is a text followed by tags [{label}], each with the
    text after it: these are the tokens [re.split] returns, a label being
    what stands between an opening brace and the first closing brace on
    the same line.  [parse_speechtypes_text] returns, in order, one
    segment for each text whose trimmed form is not empty, with that
    trimmed text and, as style, "Regular" for the text before the first tag
    and else the trimmed label of the tag just before the text, whether or
    not the tags before it had text.  A script written from texts without
    an opening brace and labels without closing brace or line end is read
    back part by part.  The two examples of the specification hold. *)
Theorem parse_speechtypes_text_segments {E : PyEnv} :
  (forall gen_text, exists sc,
      render sc = gen_text
      /\ re_split pattern gen_text = fst sc :: flat_tokens (snd sc)
      /\ forallb (fun p => label_ok (fst p)) (snd sc) = true
      /\ parse_speechtypes_text gen_text = spec_segments sc)
  /\ (forall sc,
         no_lbrace (fst sc) = true ->
         forallb (fun p => label_ok (fst p) && no_lbrace (snd p)) (snd sc) = true ->
         parse_speechtypes_text (render sc) = spec_segments sc)
  /\ parse_speechtypes_text (py "{alegre} Hola {triste} adi" ++ [243%N] ++ py "s")
     = [Segment (py "alegre") (py "Hola");
        Segment (py "triste") (py "adi" ++ [243%N] ++ py "s")]
  /\ parse_speechtypes_text (py "sin estilo")
     = [Segment (py "Regular") (py "sin estilo")].
Proof.
  split; [|split; [|split]].
  - intros gen_text.
    destruct (split_tokens gen_text [] []) as (t0 & ps & Heq & Hrender & Hok).
    exists (t0, ps). cbn [fst snd rev app] in *.
    unfold parse_speechtypes_text, re_split, render. cbn [fst snd].
    rewrite Heq. repeat split; try assumption. apply parse_tokens.
  - intros [t0 ps] Ht0 Hps. cbn [fst snd] in *.
    unfold parse_speechtypes_text, re_split, render. cbn [fst snd].
    rewrite split_render by assumption. apply parse_tokens.
  - reflexivity.
  - reflexivity.
Qed.

Lemma parse_speechtypes_text_segments_witness :
  no_lbrace (fst Sample.three_tags) = true
  /\ forallb (fun p => label_ok (fst p) && no_lbrace (snd p))
             (snd Sample.three_tags) = true
  /\ @parse_speechtypes_text Sample.env (render Sample.three_tags)
     = [Segment (py "Regular") (py "intro"); Segment (py "alegre") (py "Hola");
        Segment (py "triste") (py "fin")].
Proof.
  split; [reflexivity|]. split; [reflexivity|].
  rewrite (proj1 (proj2 (@parse_speechtypes_text_segments Sample.env))
             Sample.three_tags);
    reflexivity.
Defined.







(** C5.  Called with no audio path and a text that is empty once
    trimmed, [process_audio_input] returns the two lists as they were,
    changes neither, and raises nothing, whatever the collaborators. *)
Theorem process_audio_input_blank {Wave Spectro : Type}
        (svc : Services Wave Spectro) (audio_path : option str) (text : str)
        (w : world) :
  truthy_opt audio_path = false ->
  truthy (strip text) = false ->
  process_audio_input svc audio_path text w
  = (Returned (history w, conv_state w, []), w).
Proof.
  intros Ha Ht. unfold process_audio_input. rewrite Ha, Ht. reflexivity.
Qed.

Lemma process_audio_input_blank_witness :
  truthy_opt None = false
  /\ truthy (strip (py "   ")) = false
  /\ process_audio_input Sample.mute None (py "   ") Sample.after_hola
     = (Returned (history Sample.after_hola, conv_state Sample.after_hola, []),
        Sample.after_hola).
Proof.
  split; [reflexivity|]. split; [reflexivity|].
  apply (@process_audio_input_blank unit unit Sample.mute); reflexivity.
Defined.

(** C6.  Once the reference audio is prepared, [infer] shapes the reply:
    a space in front unless it starts with one, ". " at the end unless it
    ends with it, lower case, then the Number Normalizer.  If the normalizer
    raises, [infer] raises the same and [infer_process] is not called.
    Otherwise the shaped text starts with a space and ends with ". ", it is
    what [traducir_numero_a_texto] returned, and it is the text
    [infer_process] is called with: it is added to the texts the
    synthesis was given, what [infer_process] raises on it [infer] raises,
    and what it returns on it [infer] returns (here without the removal of
    silence). *)
Theorem infer_synthesis_text_shaped {E : PyEnv} {Wave Spectro : Type}
        (svc : Services Wave Spectro)
        (ref_audio_orig ref_text gen_text model : str) (remove_silence : bool)
        (w : world) (ref_audio ref_text' : str) :
  preprocess_ref_audio_text svc ref_audio_orig ref_text
  = Returned (ref_audio, ref_text') ->
  let run := infer svc ref_audio_orig ref_text gen_text model remove_silence w in
  (forall e, spec_shape gen_text = Raised e -> run = (Raised e, w))
  /\ (forall shaped,
         spec_shape gen_text = Returned shaped ->
         let w' := World (history w) (conv_state w) (shaped :: synthesized w) in
         startswith (py " ") shaped = true
         /\ endswith (py ". ") shaped = true
         /\ traducir_numero_a_texto
              (lower (with_final_stop (with_leading_space gen_text)))
            = Returned shaped
         /\ synthesized (snd run) = shaped :: synthesized w
         /\ (forall e,
                infer_process svc ref_audio ref_text' shaped = Raised e ->
                run = (Raised e, w'))
         /\ (forall wave rate spectro path,
                infer_process svc ref_audio ref_text' shaped
                = Returned (wave, rate, spectro) ->
                remove_silence = false ->
                save_spectrogram svc spectro = Returned path ->
                run = (Returned ((rate, wave), path), w'))).
Proof.
  intros Hpre run. subst run. rewrite infer_cases, Hpre, infer_gen_text_spec.
  split.
  - intros e ->. reflexivity.
  - intros shaped Hs. destruct (spec_shape_returned _ Hs) as (H1 & H2 & _).
    rewrite Hs. cbv zeta.
    split; [exact H1|]. split; [exact H2|]. split.
    { rewrite traducir_spec. exact Hs. }
    split.
    { destruct (infer_process svc ref_audio ref_text' shaped)
        as [[[wave rate] spectro]|e]; [|reflexivity].
      destruct remove_silence.
      - destruct (remove_silence_for_generated_wav svc wave rate); [|reflexivity].
        now destruct (save_spectrogram svc spectro).
      - now destruct (save_spectrogram svc spectro). }
    split.
    + intros e ->. reflexivity.
    + intros wave rate spectro path -> -> ->. reflexivity.
Qed.

Lemma infer_synthesis_text_shaped_witness :
  preprocess_ref_audio_text
    (MoreSamples.picky (py " hola, tengo tres gatos. ")) (py "voz.wav") []
  = Returned (py "voz.wav", [])
  /\ @spec_shape Sample.env (py "Hola, Tengo 3 GATOS")
     = Returned (py " hola, tengo tres gatos. ")
  /\ @infer Sample.env unit unit
       (MoreSamples.picky (py " hola, tengo tres gatos. "))
       (py "voz.wav") [] (py "Hola, Tengo 3 GATOS") (py "F5-TTS") false
       initial_world
     = (Returned ((24000%N, tt), py "/tmp/s.png"),
        World [] [Message system SYSTEM_PROMPT] [py " hola, tengo tres gatos. "]).
Proof.
  split; [reflexivity|]. split; [reflexivity|].
  exact (proj2 (proj2 (proj2 (proj2 (proj2
           (proj2 (@infer_synthesis_text_shaped Sample.env unit unit
                     (MoreSamples.picky (py " hola, tengo tres gatos. "))
                     (py "voz.wav") [] (py "Hola, Tengo 3 GATOS") (py "F5-TTS")
                     false initial_world (py "voz.wav") [] eq_refl)
                  (py " hola, tengo tres gatos. ") eq_refl)))))
           tt 24000%N tt (py "/tmp/s.png") eq_refl eq_refl eq_refl).
Defined.

(** C7.  Whatever [generate_audio_response] does (return audio, return
    [None], or let an exception of the synthesis through), the transcript
    and the log are afterwards what they were before; after a turn that
    [process_audio_input] completed they still are the lists it
    returned. *)
Theorem generate_audio_response_frame {E : PyEnv} {Wave Spectro : Type}
        (svc : Services Wave Spectro) (ref_audio : option str)
        (ref_text model : str) (remove_silence : bool) (w : world) :
  (let w' := snd (generate_audio_response svc ref_audio ref_text model
                                          remove_silence w) in
   history w' = history w /\ conv_state w' = conv_state w)
  /\ (forall (svc0 : Services Wave Spectro) audio_path text w0 h log out,
         process_audio_input svc0 audio_path text w0 = (Returned (h, log, out), w) ->
         let w' := snd (generate_audio_response svc ref_audio ref_text model
                                                remove_silence w) in
         history w' = h /\ conv_state w' = log).
Proof.
  pose proof (generate_audio_response_keeps svc ref_audio ref_text model
                                            remove_silence w) as Hk.
  split; [exact Hk|].
  intros svc0 audio_path text w0 h log out Hrun.
  destruct (process_audio_input_returned _ _ _ _ Hrun) as [Hres _].
  inversion Hres. subst. exact Hk.
Qed.

Lemma generate_audio_response_frame_witness :
  process_audio_input Sample.echo None (py "hola") initial_world
  = (Returned (history Sample.after_hola, conv_state Sample.after_hola, []),
     Sample.after_hola)
  /\ fst (@generate_audio_response Sample.env unit unit Sample.mute
            (Some (py "voz.wav")) [] (py "F5-TTS") true Sample.after_hola)
     = Raised ServiceError
  /\ history (snd (@generate_audio_response Sample.env unit unit Sample.mute
                     (Some (py "voz.wav")) [] (py "F5-TTS") true Sample.after_hola))
     = [(py "hola", Some (py "Hola, 2 veces."))]
  /\ conv_state (snd (@generate_audio_response Sample.env unit unit Sample.mute
                        (Some (py "voz.wav")) [] (py "F5-TTS") true
                        Sample.after_hola))
     = conv_state Sample.after_hola.
Proof.
  split; [reflexivity|]. split; [reflexivity|].
  apply (proj2 (@generate_audio_response_frame Sample.env unit unit Sample.mute
                  (Some (py "voz.wav")) [] (py "F5-TTS") true Sample.after_hola)
               Sample.echo None (py "hola") initial_world
               (history Sample.after_hola) (conv_state Sample.after_hola) []).
  reflexivity.
Defined.

(** C10.  [infer] lowers the whole reply, leading space and final ". "
    already added, before it normalizes the numbers, and the text
    [infer_process] is called with is what the normalizer returns on the
    lowered text: it is added to the texts the synthesis was given, and
    what [infer_process] raises on it [infer] raises.  Provided the
    lower-case mapping of a character above ASCII contains no ASCII
    capital, the lowered text contains none, so no capital of the reply
    reaches the synthesis; the text passed contains none at all if the
    spellings contain none. *)
Theorem infer_synthesis_text_lowercase {E : PyEnv} {Wave Spectro : Type}
        (svc : Services Wave Spectro)
        (ref_audio_orig ref_text gen_text model : str) (remove_silence : bool)
        (w : world) (ref_audio ref_text' shaped : str) :
  (forall b c a, (128 <= c)%N -> no_ascii_upper (hi_lower b c a) = true) ->
  preprocess_ref_audio_text svc ref_audio_orig ref_text
  = Returned (ref_audio, ref_text') ->
  traducir_numero_a_texto (lower (with_final_stop (with_leading_space gen_text)))
  = Returned shaped ->
  let run := infer svc ref_audio_orig ref_text gen_text model remove_silence w in
  no_ascii_upper (lower (with_final_stop (with_leading_space gen_text))) = true
  /\ synthesized (snd run) = shaped :: synthesized w
  /\ (forall e,
         infer_process svc ref_audio ref_text' shaped = Raised e ->
         run = (Raised e,
                World (history w) (conv_state w) (shaped :: synthesized w)))
  /\ ((forall n words,
          num2words_es n = Some words -> no_ascii_upper words = true) ->
      no_ascii_upper shaped = true).
Proof.
  intros Hlow Hpre Hs run.
  assert (Hl : no_ascii_upper (lower (with_final_stop (with_leading_space gen_text)))
               = true) by (now apply lower_from_no_upper).
  assert (Hshape : spec_shape gen_text = Returned shaped)
    by (unfold spec_shape; now rewrite <- traducir_spec).
  destruct (proj2 (@infer_cases_shaped E Wave Spectro svc ref_audio_orig ref_text
                     gen_text model remove_silence w ref_audio ref_text' Hpre)
                  shaped Hshape) as (Hsyn & Hraise).
  split; [exact Hl|]. split; [exact Hsyn|]. split; [exact Hraise|].
  intros Hspell. rewrite (traducir_total _ Hs).
  apply total_normalize_forallb; [reflexivity | exact Hspell | exact Hl].
Qed.

Lemma infer_synthesis_text_lowercase_witness :
  (forall b c a, (128 <= c)%N -> no_ascii_upper (@hi_lower Sample.env b c a) = true)
  /\ (forall n words,
         @num2words_es Sample.env n = Some words -> no_ascii_upper words = true)
  /\ @traducir_numero_a_texto Sample.env
       (@lower Sample.env
          (with_final_stop (with_leading_space (py "Hola, Tengo 3 GATOS"))))
     = Returned (py " hola, tengo tres gatos. ")
  /\ @infer Sample.env unit unit Sample.mute
       (py "voz.wav") [] (py "Hola, Tengo 3 GATOS") (py "F5-TTS") false
       initial_world
     = (Raised ServiceError,
        World [] [Message system SYSTEM_PROMPT] [py " hola, tengo tres gatos. "])
  /\ no_ascii_upper (py " hola, tengo tres gatos. ") = true.
Proof.
  split; [exact SampleFacts.latin1_lower_no_upper|].
  split; [exact SampleFacts.spelling_no_upper|].
  split; [reflexivity|].
  destruct (@infer_synthesis_text_lowercase Sample.env unit unit Sample.mute
              (py "voz.wav") [] (py "Hola, Tengo 3 GATOS") (py "F5-TTS") false
              initial_world (py "voz.wav") [] (py " hola, tengo tres gatos. ")
              SampleFacts.latin1_lower_no_upper eq_refl eq_refl)
    as (_ & _ & Hraise & Hno).
  split; [exact (Hraise ServiceError eq_refl)|].
  exact (Hno SampleFacts.spelling_no_upper).
Defined.

(* ===================================================================== *)
(** ** Further properties of the Number Normalizer *)
(* ===================================================================== *)

Section NormalizerMore.
Context {E : PyEnv}.

Lemma insert_spaces_cons P a b t :
  insert_spaces P (a :: b :: t)
  = a :: if P a b then SPACE :: insert_spaces P (b :: t) else insert_spaces P (b :: t).
Proof. reflexivity. Qed.

Lemma spec_separate_around a : forall c b,
  is_word c = false ->
  spec_separate (a ++ c :: b) = spec_separate a ++ c :: spec_separate b.
Proof.
  unfold spec_separate. induction a as [|x a IH]; intros c b Hc.
  - cbn [app]. destruct b as [|y b]; [reflexivity|].
    rewrite insert_spaces_cons, (needs_space_not_word_l c y Hc). reflexivity.
  - destruct a as [|y a].
    + cbn [app]. rewrite insert_spaces_cons, (needs_space_not_word_r x c Hc).
      pose proof (IH c b Hc) as H0.
      change (insert_spaces needs_space (c :: b)
              = c :: insert_spaces needs_space b) in H0.
      rewrite H0. reflexivity.
    + change ((x :: y :: a) ++ c :: b) with (x :: y :: (a ++ c :: b)).
      rewrite !insert_spaces_cons.
      change (y :: (a ++ c :: b)) with ((y :: a) ++ c :: b).
      rewrite (IH c b Hc). now destruct (needs_space x y).
Qed.

Lemma expand_total_around u : forall wb acc c v,
  is_word c = false ->
  expand_total wb acc (u ++ c :: v)
  = expand_total wb acc u ++ c :: expand_total false [] v.
Proof.
  induction u as [|x u IH]; intros wb acc c v Hc.
  - cbn [app expand_total]. now rewrite (not_word_not_digit _ Hc), Hc.
  - cbn [app expand_total]. destruct (is_digit x); [now apply IH|].
    rewrite IH by exact Hc. now rewrite <- app_assoc.
Qed.

Lemma total_normalize_around a c b :
  is_word c = false ->
  total_normalize (a ++ c :: b) = total_normalize a ++ c :: total_normalize b.
Proof.
  intros Hc. unfold total_normalize, total_expand.
  now rewrite spec_separate_around, expand_total_around.
Qed.

Lemma separated_digits s : forall p,
  forallb is_digit s = true ->
  match p with Some a => needs_space a (hd SPACE s) = false | None => True end ->
  separated p s = true.
Proof.
  induction s as [|d s IH]; intros p Hs Hp; [reflexivity|].
  cbn in Hs. apply andb_true_iff in Hs. destruct Hs as [Hd Hs].
  cbn [separated]. apply andb_true_iff. split.
  - destruct p; [cbn in Hp; now rewrite Hp | reflexivity].
  - apply IH; [exact Hs|].
    destruct s as [|d' s]; [cbn [hd]; now apply needs_space_not_word_r|].
    cbn [hd]. cbn in Hs. apply andb_true_iff in Hs. destruct Hs as [Hd' _].
    unfold needs_space, letter_then_digit, digit_then_letter.
    destruct (is_ascii_letter d) eqn:Hl;
      [apply ascii_letter_not_digit in Hl; congruence|].
    destruct (is_ascii_letter d') eqn:Hl';
      [apply ascii_letter_not_digit in Hl'; congruence|].
    now rewrite andb_false_r.
Qed.

Lemma expand_runs_around u : forall wb acc c v,
  is_word c = false ->
  expand_runs wb acc (u ++ c :: v)
  = and_then (expand_runs wb acc u) (fun u' =>
    and_then (expand_runs false [] v) (fun v' =>
    Returned (u' ++ c :: v'))).
Proof.
  induction u as [|x u IH]; intros wb acc c v Hc.
  - cbn [app expand_runs]. now rewrite (not_word_not_digit _ Hc), Hc.
  - cbn [app expand_runs]. destruct (is_digit x); [now apply IH|].
    destruct (flush_run wb acc (is_word x)) as [piece|e]; [|reflexivity].
    cbn [and_then]. rewrite IH by exact Hc.
    destruct (expand_runs (is_word x) [] u) as [u'|e]; [|reflexivity].
    cbn [and_then]. destruct (expand_runs false [] v) as [v'|e]; [|reflexivity].
    cbn [and_then]. now rewrite <- app_assoc.
Qed.

Lemma spec_normalize_around a c b :
  is_word c = false ->
  spec_normalize (a ++ c :: b)
  = and_then (spec_normalize a) (fun a' =>
    and_then (spec_normalize b) (fun b' =>
    Returned (a' ++ c :: b'))).
Proof.
  intros Hc. unfold spec_normalize, spec_expand.
  now rewrite spec_separate_around, expand_runs_around.
Qed.

Lemma spec_normalize_number d run :
  forallb is_digit (d :: run) = true ->
  spec_normalize (d :: run) = spell_run (d :: run).
Proof.
  intros H. unfold spec_normalize, spec_expand.
  rewrite (insert_spaces_fixed (d :: run) None) by (now apply separated_digits).
  rewrite <- (app_nil_r (d :: run)) at 1.
  rewrite expand_runs_run by (auto; reflexivity).
  cbn [negb andb is_word_at expand_runs flush_run].
  destruct (spell_run (d :: run)) as [words|e]; [|reflexivity].
  cbn. now rewrite app_nil_r.
Qed.

(** What [int] accepts it accepts with a digit less. *)
Lemma int_refuses_fewer n : int_refuses (S n) = false -> int_refuses n = false.
Proof.
  unfold int_refuses. intros H.
  destruct ((640 <? n)%nat && (0 <? int_max_str_digits)%nat
            && (int_max_str_digits <? n)%nat) eqn:Hn; [|reflexivity].
  apply andb_true_iff in Hn. destruct Hn as [Hn H3].
  apply andb_true_iff in Hn. destruct Hn as [H1 H2].
  apply Nat.ltb_lt in H1, H3.
  rewrite H2 in H.
  replace (640 <? S n)%nat with true in H by (symmetry; apply Nat.ltb_lt; lia).
  replace (int_max_str_digits <? S n)%nat with true in H
    by (symmetry; apply Nat.ltb_lt; lia).
  discriminate H.
Qed.

Lemma spell_run_leading_zero (s : str) :
  int_refuses (S (length s)) = false -> spell_run (48%N :: s) = spell_run s.
Proof.
  intros H. unfold spell_run, py_int. cbn [length].
  rewrite H, (@int_refuses_fewer (length s) H). reflexivity.
Qed.

Lemma plain_ascii_word c :
  plain_ascii c = true -> is_word c = is_ascii_letter c || is_digit c.
Proof.
  unfold plain_ascii. intros H. apply andb_true_iff in H. destruct H as [H1 H2].
  apply negb_true_iff in H2.
  unfold is_word, is_alnum, is_alpha. rewrite H1, H2. now rewrite !orb_false_r.
Qed.

Lemma insert_spaces_filter P s :
  filter not_space (insert_spaces P s) = filter not_space s.
Proof.
  induction s as [|a t IH]; [reflexivity|].
  destruct t as [|b t]; [reflexivity|].
  rewrite insert_spaces_cons.
  set (X := insert_spaces P (b :: t)) in *.
  destruct (P a b).
  - change (filter not_space (a :: SPACE :: X))
      with (if not_space a then a :: filter not_space X else filter not_space X).
    rewrite IH. reflexivity.
  - change (filter not_space (a :: X))
      with (if not_space a then a :: filter not_space X else filter not_space X).
    rewrite IH. reflexivity.
Qed.

Lemma insert_spaces_length P s :
  (length s <= length (insert_spaces P s) <= 2 * length s)%nat.
Proof.
  induction s as [|a t IH]; [cbn; lia|].
  destruct t as [|b t]; [cbn; lia|].
  rewrite insert_spaces_cons. destruct (P a b); cbn [length] in *; lia.
Qed.

Lemma is_digit_space : is_digit SPACE = false.
Proof. reflexivity. Qed.

Lemma digit_runs_from_cons run c t :
  digit_runs_from run (c :: t)
  = if is_digit c then digit_runs_from (c :: run) t
    else match run with
         | [] => digit_runs_from [] t
         | _ :: _ => rev run :: digit_runs_from [] t
         end.
Proof. reflexivity. Qed.

(** The spaces of step (1) fall between a letter and a digit: the runs
    of digits stay what they were. *)
Lemma digit_runs_separate s : forall run,
  digit_runs_from run (spec_separate s) = digit_runs_from run s.
Proof.
  unfold spec_separate. induction s as [|a t IH]; intros run; [reflexivity|].
  destruct t as [|b t]; [reflexivity|].
  rewrite insert_spaces_cons. rewrite (digit_runs_from_cons run a (b :: t)).
  destruct (needs_space a b) eqn:Hn.
  - rewrite digit_runs_from_cons. destruct (is_digit a) eqn:Ha.
    + assert (Hb : is_digit b = false).
      { unfold needs_space, letter_then_digit, digit_then_letter in Hn.
        destruct (is_ascii_letter a) eqn:Hla;
          [apply ascii_letter_not_digit in Hla; congruence|].
        rewrite Ha in Hn. cbn in Hn. now apply ascii_letter_not_digit. }
      rewrite digit_runs_from_cons, is_digit_space, IH.
      rewrite !(digit_runs_from_cons _ b t), Hb. reflexivity.
    + rewrite digit_runs_from_cons, is_digit_space, IH. reflexivity.
  - rewrite digit_runs_from_cons. destruct (is_digit a); now rewrite IH.
Qed.

Lemma digit_runs_from_digits run : forall acc rest,
  forallb is_digit run = true ->
  digit_runs_from acc (run ++ rest) = digit_runs_from (rev run ++ acc) rest.
Proof.
  induction run as [|d run IH]; intros acc rest H; [reflexivity|].
  cbn in H. apply andb_true_iff in H. destruct H as [Hd H].
  cbn [app]. rewrite digit_runs_from_cons, Hd, IH by exact H.
  cbn [rev]. now rewrite <- app_assoc.
Qed.

Lemma digit_runs_run d run rest :
  forallb is_digit (d :: run) = true ->
  no_digit_ahead rest = true ->
  digit_runs ((d :: run) ++ rest) = (d :: run) :: digit_runs rest.
Proof.
  intros Hrun Hrest. unfold digit_runs.
  rewrite digit_runs_from_digits by exact Hrun. rewrite app_nil_r.
  destruct (rev (d :: run)) as [|x acc] eqn:Hr.
  { apply (f_equal (@length _)) in Hr. rewrite length_rev in Hr. discriminate. }
  rewrite <- Hr. destruct rest as [|c t].
  - cbn [digit_runs_from]. rewrite Hr at 1. now rewrite rev_involutive.
  - cbn in Hrest. apply negb_true_iff in Hrest.
    rewrite !digit_runs_from_cons, Hrest. rewrite Hr at 1.
    now rewrite rev_involutive.
Qed.

Lemma digit_runs_other c t :
  is_digit c = false -> digit_runs (c :: t) = digit_runs t.
Proof. intros H. unfold digit_runs. now rewrite digit_runs_from_cons, H. Qed.

(** In separated text of ASCII characters other than the underscore no
    word character touches a run of digits. *)
Lemma plain_run_free p wb d run rest :
  wb = is_word_opt p ->
  separated p ((d :: run) ++ rest) = true ->
  forallb plain_ascii ((d :: run) ++ rest) = true ->
  forallb is_digit (d :: run) = true ->
  no_digit_ahead rest = true ->
  match p with
  | Some a => is_digit a = false /\ plain_ascii a = true
  | None => True
  end ->
  wb = false /\ is_word_at rest = false.
Proof.
  intros Hwb Hsep Hplain Hrun Hrest Hctx.
  pose proof Hrun as Hrun'. cbn in Hrun'. apply andb_true_iff in Hrun'.
  destruct Hrun' as [Hd _].
  rewrite separated_app in Hsep. apply andb_true_iff in Hsep.
  destruct Hsep as [Hs1 Hs2].
  rewrite forallb_app in Hplain. apply andb_true_iff in Hplain.
  destruct Hplain as [_ Hprest].
  destruct (last_char_digits run p d Hrun) as (l & Hl & Hld).
  split.
  - subst wb. destruct p as [a|]; [|reflexivity]. destruct Hctx as [Hda Hpa].
    cbn. rewrite (plain_ascii_word _ Hpa), Hda, orb_false_r.
    destruct (is_ascii_letter a) eqn:Hla; [|reflexivity].
    cbn in Hs1. apply andb_true_iff in Hs1. destruct Hs1 as [Hs1 _].
    apply negb_true_iff in Hs1.
    unfold needs_space, letter_then_digit in Hs1. now rewrite Hla, Hd in Hs1.
  - destruct rest as [|c' t']; [reflexivity|].
    cbn in Hrest. apply negb_true_iff in Hrest.
    cbn in Hprest. apply andb_true_iff in Hprest. destruct Hprest as [Hpc' _].
    cbn. rewrite (plain_ascii_word _ Hpc'), Hrest, orb_false_r.
    rewrite Hl in Hs2. cbn in Hs2. apply andb_true_iff in Hs2.
    destruct Hs2 as [Hs2 _]. apply negb_true_iff in Hs2.
    unfold needs_space, digit_then_letter in Hs2.
    apply orb_false_iff in Hs2. destruct Hs2 as [_ Hs2].
    now rewrite Hld in Hs2.
Qed.

(** There the walk returns exactly when every run has a spelling. *)
Lemma expand_plain_returns u : forall p wb,
  wb = is_word_opt p ->
  separated p u = true ->
  forallb plain_ascii u = true ->
  no_digit_ahead u = true
  \/ match p with
     | Some a => is_digit a = false /\ plain_ascii a = true
     | None => True
     end ->
  (exists r, expand_runs wb [] u = Returned r)
  <-> forallb has_spelling (digit_runs u) = true.
Proof.
  induction u as [|c t Hc IH|d run rest Hrun Hrest IH] using run_ind;
    intros p wb Hwb Hsep Hplain Hctx.
  - split; [reflexivity | intros _; now exists []].
  - rewrite expand_runs_other, digit_runs_other by exact Hc.
    cbn [separated] in Hsep. apply andb_true_iff in Hsep. destruct Hsep as [_ Hsep].
    cbn in Hplain. apply andb_true_iff in Hplain. destruct Hplain as [Hpc Hplain].
    rewrite <- (IH (Some c) (is_word c)) by auto.
    destruct (expand_runs (is_word c) [] t) as [rest|e]; cbn [and_then].
    + split; eauto.
    + split; intros [r H]; discriminate H.
  - pose proof Hrun as Hd. cbn in Hd. apply andb_true_iff in Hd.
    destruct Hd as [Hd _].
    destruct Hctx as [Hbad | Hctx]; [cbn in Hbad; rewrite Hd in Hbad; discriminate|].
    destruct (plain_run_free p d run rest Hwb Hsep Hplain Hrun Hrest Hctx)
      as [Hwb' Hafter].
    rewrite separated_app in Hsep. apply andb_true_iff in Hsep.
    destruct Hsep as [_ Hs2].
    rewrite forallb_app in Hplain. apply andb_true_iff in Hplain.
    destruct Hplain as [_ Hprest].
    destruct (last_char_digits run p d Hrun) as (l & Hl & Hld).
    rewrite expand_runs_run, digit_runs_run by assumption.
    rewrite Hwb', Hafter. cbn [negb andb forallb].
    rewrite andb_true_iff.
    rewrite <- (IH (last_char p (d :: run)) true); auto.
    2:{ rewrite Hl. cbn. symmetry. now apply digit_is_word. }
    unfold has_spelling.
    destruct (spell_run (d :: run)) as [words|e]; cbn [and_then].
    + destruct (expand_runs true [] rest) as [tail|e]; cbn [and_then].
      * split; eauto.
      * split; [intros [r H]; discriminate H | intros [_ [r H]]; discriminate H].
    + split; [intros [r H]; discriminate H | intros [H _]; discriminate H].
Qed.

Lemma spec_normalize_plain_returns texto :
  forallb plain_ascii texto = true ->
  (exists r, spec_normalize texto = Returned r)
  <-> forallb has_spelling (digit_runs texto) = true.
Proof.
  intros H. unfold spec_normalize, spec_expand, digit_runs.
  rewrite <- digit_runs_separate.
  apply (expand_plain_returns _ None); auto.
  - now apply separated_insert.
  - unfold spec_separate. now apply insert_spaces_forallb.
Qed.

Section DigitFreeSpellings.
Hypothesis spelling_no_digit :
  forall n words, num2words_es n = Some words -> no_digit words = true.

(** In separated text of ASCII characters other than the underscore
    every run of digits is spelled. *)
Lemma expand_plain_no_digit u : forall p wb,
  wb = is_word_opt p ->
  separated p u = true ->
  forallb plain_ascii u = true ->
  no_digit_ahead u = true
  \/ match p with
     | Some a => is_digit a = false /\ plain_ascii a = true
     | None => True
     end ->
  no_digit (expand_total wb [] u) = true.
Proof.
  induction u as [|c t Hc IH|d run rest Hrun Hrest IH] using run_ind;
    intros p wb Hwb Hsep Hplain Hctx.
  - reflexivity.
  - rewrite expand_total_other by exact Hc.
    cbn [separated] in Hsep. apply andb_true_iff in Hsep. destruct Hsep as [_ Hsep].
    cbn in Hplain. apply andb_true_iff in Hplain. destruct Hplain as [Hpc Hplain].
    unfold no_digit. cbn [forallb]. rewrite Hc. cbn [negb andb].
    apply (IH (Some c)); auto.
  - pose proof Hrun as Hd. cbn in Hd. apply andb_true_iff in Hd.
    destruct Hd as [Hd _].
    destruct Hctx as [Hbad | Hctx]; [cbn in Hbad; rewrite Hd in Hbad; discriminate|].
    destruct (plain_run_free p d run rest Hwb Hsep Hplain Hrun Hrest Hctx)
      as [Hwb' Hafter].
    rewrite separated_app in Hsep. apply andb_true_iff in Hsep.
    destruct Hsep as [_ Hs2].
    rewrite forallb_app in Hplain. apply andb_true_iff in Hplain.
    destruct Hplain as [_ Hprest].
    destruct (last_char_digits run p d Hrun) as (l & Hl & Hld).
    rewrite expand_total_run by assumption.
    rewrite Hwb', Hafter. cbn [negb andb].
    unfold no_digit in *.
    rewrite forallb_app, (spelled_forallb _ spelling_no_digit). cbn [andb].
    apply (IH (last_char p (d :: run))); auto.
    rewrite Hl. cbn. symmetry. now apply digit_is_word.
Qed.

Lemma total_normalize_plain texto :
  forallb plain_ascii texto = true -> no_digit (total_normalize texto) = true.
Proof.
  intros H. unfold total_normalize, total_expand.
  apply (expand_plain_no_digit _ None); auto.
  - now apply separated_insert.
  - unfold spec_separate. now apply insert_spaces_forallb.
Qed.

End DigitFreeSpellings.

End NormalizerMore.

(** X1.  Either side of a character that is no word character the text is
    normalized on its own, the left side first: what the left side raises
    is raised, else what the right side raises, else the two results are
    joined by the character. *)
Theorem traducir_numero_a_texto_around {E : PyEnv} (a b : str) (c : char) :
  is_word c = false ->
  traducir_numero_a_texto (a ++ c :: b)
  = and_then (traducir_numero_a_texto a) (fun a' =>
    and_then (traducir_numero_a_texto b) (fun b' =>
    Returned (a' ++ c :: b'))).
Proof.
  intros H. rewrite (traducir_spec (a ++ c :: b)), spec_normalize_around by exact H.
  now rewrite !traducir_spec.
Qed.

Lemma traducir_numero_a_texto_around_witness :
  @is_word Sample.env 44%N = false
  /\ @traducir_numero_a_texto Sample.env (py "v2" ++ 44%N :: py "3b")
     = Returned (py "v dos,tres b")
  /\ @traducir_numero_a_texto Sample.env
       ((49%N :: repeat 48%N 27) ++ 44%N :: repeat 48%N 4301)
     = Raised OverflowError.
Proof.
  split; [reflexivity|]. split.
  - rewrite (@traducir_numero_a_texto_around Sample.env) by reflexivity.
    reflexivity.
  - rewrite (@traducir_numero_a_texto_around Sample.env) by reflexivity.
    vm_compute. reflexivity.
Defined.

(** X2.  A text that is nothing but digits becomes what [num2words]
    returns for what [int] returns for it, and raises what they raise; a
    zero in front changes nothing as long as [int] accepts the longer
    text. *)
Theorem traducir_numero_a_texto_number {E : PyEnv} (d : char) (run : str) :
  forallb is_digit (d :: run) = true ->
  traducir_numero_a_texto (d :: run)
  = and_then (py_int (d :: run)) (fun n => num2words n)
  /\ (int_refuses (length (48%N :: d :: run)) = false ->
      traducir_numero_a_texto (48%N :: d :: run)
      = traducir_numero_a_texto (d :: run)).
Proof.
  intros H. rewrite !traducir_spec.
  rewrite (spec_normalize_number d run H). split; [reflexivity|].
  intros Hz.
  rewrite (spec_normalize_number 48%N (d :: run))
    by (change (forallb is_digit (48%N :: d :: run))
          with (true && forallb is_digit (d :: run)); exact H).
  now apply spell_run_leading_zero.
Qed.

Lemma traducir_numero_a_texto_number_witness :
  forallb (@is_digit Sample.env) (py "42") = true
  /\ @int_refuses Sample.env (length (py "042")) = false
  /\ @traducir_numero_a_texto Sample.env (py "42") = Returned (py "cuarenta y dos")
  /\ @traducir_numero_a_texto Sample.env (py "042") = Returned (py "cuarenta y dos").
Proof.
  split; [reflexivity|]. split; [reflexivity|].
  destruct (@traducir_numero_a_texto_number Sample.env 52%N (py "2") eq_refl)
    as [H1 H2].
  split; [exact H1|]. exact (eq_trans (H2 eq_refl) H1).
Defined.

(** X3.  In a text of ASCII characters without an underscore every run
    of digits is handed to the callback: the call returns exactly when
    every maximal run of digits of the text has a spelling, and, provided
    the spellings hold no digit, what it returns holds none. *)
Theorem traducir_numero_a_texto_spells_all {E : PyEnv} :
  (forall n words, num2words_es n = Some words -> no_digit words = true) ->
  forall texto,
    forallb plain_ascii texto = true ->
    ((exists r, traducir_numero_a_texto texto = Returned r)
     <-> forallb has_spelling (digit_runs texto) = true)
    /\ (forall r, traducir_numero_a_texto texto = Returned r -> no_digit r = true).
Proof.
  intros H texto Hp. split.
  - rewrite traducir_spec. now apply spec_normalize_plain_returns.
  - intros r Hr. rewrite (traducir_total _ Hr). now apply total_normalize_plain.
Qed.

Lemma traducir_numero_a_texto_spells_all_witness :
  (forall n words,
      @num2words_es Sample.env n = Some words -> @no_digit Sample.env words = true)
  /\ forallb plain_ascii (py "a1b22 x3, 0007-2.") = true
  /\ @digit_runs Sample.env (py "a1b22 x3, 0007-2.")
     = [py "1"; py "22"; py "3"; py "0007"; py "2"]
  /\ exists r,
      @traducir_numero_a_texto Sample.env (py "a1b22 x3, 0007-2.") = Returned r
      /\ @no_digit Sample.env r = true.
Proof.
  split; [exact SampleFacts.spelling_no_digit|]. split; [reflexivity|].
  split; [reflexivity|].
  destruct (@traducir_numero_a_texto_spells_all Sample.env
              SampleFacts.spelling_no_digit (py "a1b22 x3, 0007-2.") eq_refl)
    as [Hret Hno].
  destruct (proj2 Hret eq_refl) as [r Hr].
  exists r. split; [exact Hr | exact (Hno r Hr)].
Defined.

(** X4.  The two substitutions of lines 74-75 only put spaces in: without
    its spaces [texto_separado] is [texto] without its spaces, and it is at
    least as long as [texto] and at most twice as long. *)
Theorem texto_separado_only_spaces {E : PyEnv} (texto : str) :
  let texto_separado :=
    re_sub re_digit_letter repl_space (re_sub re_letter_digit repl_space texto) in
  filter not_space texto_separado = filter not_space texto
  /\ (length texto <= length texto_separado <= 2 * length texto)%nat.
Proof.
  cbv zeta. rewrite separate_spec. unfold spec_separate. split.
  - apply insert_spaces_filter.
  - apply insert_spaces_length.
Qed.

(** X5.  Digits that touch a word character other than an ASCII letter
    or a digit (an underscore, an accented letter), before or after,
    are left as they are. *)
Theorem traducir_numero_a_texto_glued {E : PyEnv} (c d : char) (run : str) :
  is_word c = true ->
  is_ascii_letter c = false ->
  is_digit c = false ->
  forallb is_digit (d :: run) = true ->
  traducir_numero_a_texto (c :: d :: run) = Returned (c :: d :: run)
  /\ traducir_numero_a_texto ((d :: run) ++ [c]) = Returned ((d :: run) ++ [c]).
Proof.
  intros Hw Hl Hd Hrun.
  assert (Hcd : forall x, needs_space c x = false).
  { intros x. unfold needs_space, letter_then_digit, digit_then_letter.
    now rewrite Hl, Hd. }
  assert (Hdc : forall x, needs_space x c = false).
  { intros x. unfold needs_space, letter_then_digit, digit_then_letter.
    now rewrite Hl, Hd, !andb_false_r. }
  rewrite !traducir_spec. unfold spec_normalize, spec_expand. split.
  - rewrite (insert_spaces_fixed (c :: d :: run) None).
    2:{ change (separated (Some c) (d :: run) = true).
        apply separated_digits; [exact Hrun|]. apply Hcd. }
    rewrite expand_runs_other by exact Hd.
    rewrite <- (app_nil_r (d :: run)) at 1.
    rewrite expand_runs_run by (auto; reflexivity).
    rewrite Hw. cbn. now rewrite app_nil_r.
  - rewrite (insert_spaces_fixed ((d :: run) ++ [c]) None).
    2:{ rewrite separated_app. apply andb_true_iff. split.
        - now apply separated_digits.
        - cbn [separated]. destruct (last_char None (d :: run)); [|reflexivity].
          now rewrite Hdc. }
    rewrite expand_runs_run by (auto; cbn; now rewrite Hd).
    cbn [is_word_at]. rewrite Hw. cbn [negb andb]. rewrite ?andb_false_r.
    rewrite expand_runs_other by exact Hd. reflexivity.
Qed.

Lemma traducir_numero_a_texto_glued_witness :
  @is_word Sample.env 95%N = true
  /\ is_ascii_letter 95%N = false
  /\ @is_digit Sample.env 95%N = false
  /\ forallb (@is_digit Sample.env) (py "2024") = true
  /\ @traducir_numero_a_texto Sample.env (py "_2024") = Returned (py "_2024")
  /\ @traducir_numero_a_texto Sample.env (py "2024_") = Returned (py "2024_").
Proof.
  repeat (split; [reflexivity|]).
  apply (@traducir_numero_a_texto_glued Sample.env 95%N 50%N (py "024"));
    reflexivity.
Defined.

(* ===================================================================== *)
(** ** Further properties of the Style Segment Parser *)
(* ===================================================================== *)

Section ParserMore.
Context {E : PyEnv}.

Lemma lstrip_head s :
  match lstrip s with c :: _ => is_space c = false | [] => True end.
Proof.
  induction s as [|c t IH]; [exact I|].
  cbn [lstrip]. destruct (is_space c) eqn:Hc; [exact IH | exact Hc].
Qed.

Lemma lstrip_fixed s :
  match s with c :: _ => is_space c = false | [] => True end -> lstrip s = s.
Proof. destruct s as [|c t]; [reflexivity|]. cbn. now intros ->. Qed.

Lemma lstrip_idempotent s : lstrip (lstrip s) = lstrip s.
Proof. apply lstrip_fixed, lstrip_head. Qed.

Lemma lstrip_last x a :
  is_space a = false -> lstrip (x ++ [a]) = lstrip x ++ [a].
Proof.
  intros Ha. induction x as [|c x IH]; [cbn; now rewrite Ha|].
  cbn [app lstrip]. now destruct (is_space c).
Qed.

Lemma rstrip_head s :
  match s with c :: _ => is_space c = false | [] => True end ->
  match rstrip s with c :: _ => is_space c = false | [] => True end.
Proof.
  destruct s as [|a s]; [intros _; exact I|]. intros Ha.
  unfold rstrip. cbn [rev]. rewrite lstrip_last by exact Ha.
  rewrite rev_app_distr. exact Ha.
Qed.

Lemma strip_idempotent s : strip (strip s) = strip s.
Proof.
  unfold strip.
  rewrite (lstrip_fixed (rstrip (lstrip s))) by (apply rstrip_head, lstrip_head).
  unfold rstrip. now rewrite rev_involutive, lstrip_idempotent.
Qed.

Lemma in_emit seg st t :
  In seg (emit st t) -> seg = Segment st (strip t) /\ truthy (strip t) = true.
Proof.
  unfold emit. destruct (truthy (strip t)); [|intros []].
  intros [<- | []]. auto.
Qed.

Lemma in_segments_from seg ps :
  In seg (segments_from ps) ->
  exists l t, seg = Segment (strip l) (strip t) /\ truthy (strip t) = true.
Proof.
  induction ps as [|[l t] ps IH]; [intros []|].
  cbn [segments_from]. intros H. apply in_app_or in H. destruct H as [H | H].
  - apply in_emit in H. eauto.
  - now apply IH.
Qed.

Lemma parse_spec gen_text :
  exists sc, render sc = gen_text /\ parse_speechtypes_text gen_text = spec_segments sc.
Proof.
  destruct (split_tokens gen_text [] []) as (t0 & ps & Heq & Hrender & _).
  exists (t0, ps). cbn [rev app] in Heq. split; [exact Hrender|].
  unfold parse_speechtypes_text, re_split. rewrite Heq. apply parse_tokens.
Qed.

Lemma count_app c a b : count c (a ++ b) = (count c a + count c b)%nat.
Proof. unfold count. now rewrite filter_app, length_app. Qed.

Lemma count_braces ps :
  (length ps <= count LBRACE (render_tags ps)
   /\ length ps <= count RBRACE (render_tags ps))%nat.
Proof.
  induction ps as [|[l t] ps [IH1 IH2]]; [cbn; lia|].
  cbn [render_tags length].
  change (LBRACE :: l ++ RBRACE :: t ++ render_tags ps)
    with ([LBRACE] ++ l ++ [RBRACE] ++ t ++ render_tags ps).
  rewrite !count_app.
  change (count LBRACE [LBRACE]) with 1%nat.
  change (count RBRACE [RBRACE]) with 1%nat. lia.
Qed.

Lemma length_segments_from ps : (length (segments_from ps) <= length ps)%nat.
Proof.
  induction ps as [|[l t] ps IH]; [cbn; lia|].
  cbn [segments_from length]. rewrite length_app. unfold emit.
  destruct (truthy (strip t)); cbn [length]; lia.
Qed.

Lemma count_zero c s :
  count c s = 0%nat -> forallb (fun x => negb (x =? c)%N) s = true.
Proof.
  unfold count. induction s as [|x s IH]; [reflexivity|].
  cbn [filter forallb]. rewrite (N.eqb_sym x c).
  destruct (c =? x)%N; [discriminate|]. exact IH.
Qed.

Lemma close_tag_none u :
  forallb (fun x => negb (x =? RBRACE)%N) u = true -> close_tag u = None.
Proof.
  induction u as [|c t IH]; [reflexivity|].
  cbn [forallb close_tag]. intros H. apply andb_true_iff in H.
  destruct H as [Hc Ht]. apply negb_true_iff in Hc. rewrite Hc, (IH Ht).
  now destruct (c =? NEWLINE)%N.
Qed.

Lemma split_no_rbrace s : forall b acc,
  forallb (fun x => negb (x =? RBRACE)%N) s = true ->
  split_loop pattern b 0 acc s = [rev acc ++ s].
Proof.
  induction s as [|c t IH]; intros b acc H.
  - cbn. now rewrite app_nil_r.
  - cbn [forallb] in H. apply andb_true_iff in H. destruct H as [_ Ht].
    rewrite split_loop_cons, match_tag, (close_tag_none _ Ht).
    replace (if (c =? LBRACE)%N then None else None) with (@None mstate)
      by (now destruct (c =? LBRACE)%N).
    rewrite IH by exact Ht. cbn [rev]. now rewrite <- app_assoc.
Qed.

End ParserMore.

(** X6.  Every segment has a text that is not empty, and its text and its
    style carry no white space at either end. *)
Theorem parse_speechtypes_text_trimmed {E : PyEnv} (gen_text : str) (seg : segment) :
  In seg (parse_speechtypes_text gen_text) ->
  truthy (text seg) = true
  /\ strip (text seg) = text seg
  /\ strip (style seg) = style seg.
Proof.
  destruct (parse_spec gen_text) as ([t0 ps] & _ & ->).
  unfold spec_segments. cbn [fst snd]. intros H.
  apply in_app_or in H. destruct H as [H | H].
  - apply in_emit in H. destruct H as [-> Ht]. cbn [text style].
    repeat split; [exact Ht | apply strip_idempotent].
  - apply in_segments_from in H. destruct H as (l & t & -> & Ht). cbn [text style].
    repeat split; [exact Ht | apply strip_idempotent | apply strip_idempotent].
Qed.

Lemma parse_speechtypes_text_trimmed_witness :
  In (Segment (py "alegre") (py "Hola"))
     (@parse_speechtypes_text Sample.env (render Sample.three_tags))
  /\ strip (py "Hola") = py "Hola" /\ strip (py "alegre") = py "alegre".
Proof.
  assert (H : In (Segment (py "alegre") (py "Hola"))
                 (@parse_speechtypes_text Sample.env (render Sample.three_tags)))
    by (right; left; reflexivity).
  split; [exact H|].
  exact (proj2 (@parse_speechtypes_text_trimmed Sample.env _ _ H)).
Defined.

(** X7.  There is at most one segment more than there are opening braces
    in the script, and at most one more than there are closing braces. *)
Theorem parse_speechtypes_text_length {E : PyEnv} (gen_text : str) :
  (length (parse_speechtypes_text gen_text) <= S (count LBRACE gen_text)
   /\ length (parse_speechtypes_text gen_text) <= S (count RBRACE gen_text))%nat.
Proof.
  destruct (parse_spec gen_text) as ([t0 ps] & <- & ->).
  unfold spec_segments, render. cbn [fst snd].
  rewrite length_app, !count_app.
  pose proof (length_segments_from ps). destruct (count_braces ps).
  assert (length (emit (py "Regular") t0) <= 1)%nat
    by (unfold emit; destruct (truthy (strip t0)); cbn; lia).
  lia.
Qed.

(** X8.  A script without an opening brace, or without a closing one, has
    no tag: it is one segment of style "Regular" holding the whole trimmed
    text, or no segment if nothing but white space is there. *)
Theorem parse_speechtypes_text_untagged {E : PyEnv} (gen_text : str) :
  count LBRACE gen_text = 0%nat \/ count RBRACE gen_text = 0%nat ->
  parse_speechtypes_text gen_text
  = if truthy (strip gen_text)
    then [Segment (py "Regular") (strip gen_text)] else [].
Proof.
  intros H.
  assert (Htok : re_split pattern gen_text = [gen_text]).
  { unfold re_split. destruct H as [H | H]; apply count_zero in H.
    - rewrite <- (app_nil_r gen_text) at 1.
      change (@nil char) with (render_tags []) at 3.
      now rewrite split_render.
    - now rewrite split_no_rbrace. }
  unfold parse_speechtypes_text. rewrite Htok.
  change [gen_text] with (gen_text :: flat_tokens []).
  rewrite parse_tokens. unfold spec_segments, emit. cbn [fst snd segments_from].
  now rewrite app_nil_r.
Qed.

Lemma parse_speechtypes_text_untagged_witness :
  count RBRACE (py " se abre { y no se cierra ") = 0%nat
  /\ @parse_speechtypes_text Sample.env (py " se abre { y no se cierra ")
     = [Segment (py "Regular") (py "se abre { y no se cierra")].
Proof.
  split; [reflexivity|].
  rewrite (@parse_speechtypes_text_untagged Sample.env); [reflexivity|].
  right. reflexivity.
Defined.

(* ===================================================================== *)
(** ** Further properties of the text [infer] shapes *)
(* ===================================================================== *)

Section InferMore.
Context {E : PyEnv}.

Lemma lower_from_app u : forall bef v,
  exists pre, lower_from bef (u ++ v) = pre ++ lower_from (rev u ++ bef) v.
Proof.
  induction u as [|c u IH]; intros bef v.
  - exists []. reflexivity.
  - destruct (IH (c :: bef) v) as [pre Hpre].
    exists (lower_char bef c (u ++ v) ++ pre).
    cbn [app lower_from rev]. rewrite Hpre, <- !app_assoc. reflexivity.
Qed.

Lemma spec_shape_after_stop u shaped :
  spec_shape (u ++ [DOT]) = Returned shaped ->
  exists r, shaped = r ++ [DOT; DOT; SPACE].
Proof.
  intros H. destruct (spec_shape_returned _ H) as (_ & _ & ->).
  assert (H1 : exists u1, with_leading_space (u ++ [DOT]) = u1 ++ [DOT]).
  { unfold with_leading_space.
    destruct (startswith (py " ") (u ++ [DOT])); [exists u | exists (SPACE :: u)];
      reflexivity. }
  destruct H1 as [u1 H1]. rewrite H1. unfold with_final_stop.
  assert (He : endswith (py ". ") (u1 ++ [DOT]) = false).
  { unfold endswith. rewrite rev_app_distr. reflexivity. }
  rewrite He.
  replace ((u1 ++ [DOT]) ++ [DOT; SPACE]) with (u1 ++ [DOT; DOT; SPACE])
    by (now rewrite <- app_assoc).
  unfold lower. destruct (lower_from_app u1 [] [DOT; DOT; SPACE]) as [pre ->].
  change (lower_from (rev u1 ++ []) [DOT; DOT; SPACE]) with [DOT; DOT; SPACE].
  change (pre ++ [DOT; DOT; SPACE]) with (pre ++ DOT :: [DOT; SPACE]).
  rewrite total_normalize_around by reflexivity.
  exists (total_normalize pre). reflexivity.
Qed.

End InferMore.

(** X9.  A reply that ends with a full stop does not end with ". ", so
    ". " is added to it: the text [infer] shapes, and calls [infer_process]
    with, then ends with ".. ". *)
Theorem infer_double_stop {E : PyEnv} {Wave Spectro : Type}
        (svc : Services Wave Spectro)
        (ref_audio_orig ref_text gen_text model : str) (remove_silence : bool)
        (w : world) (ref_audio ref_text' shaped : str) :
  endswith (py ".") gen_text = true ->
  preprocess_ref_audio_text svc ref_audio_orig ref_text
  = Returned (ref_audio, ref_text') ->
  spec_shape gen_text = Returned shaped ->
  let run := infer svc ref_audio_orig ref_text gen_text model remove_silence w in
  endswith (py ".. ") shaped = true
  /\ synthesized (snd run) = shaped :: synthesized w
  /\ (forall e,
         infer_process svc ref_audio ref_text' shaped = Raised e ->
         run = (Raised e,
                World (history w) (conv_state w) (shaped :: synthesized w))).
Proof.
  intros H Hpre Hs run.
  split; [|exact (proj2 (@infer_cases_shaped E Wave Spectro svc ref_audio_orig
                           ref_text gen_text model remove_silence w ref_audio
                           ref_text' Hpre) shaped Hs)].
  destruct (endswith_inv _ _ H) as [u ->].
  destruct (spec_shape_after_stop u Hs) as [r ->].
  apply (endswith_app (py ".. ")).
Qed.

Lemma infer_double_stop_witness :
  endswith (py ".") (py "Hola, 2 veces.") = true
  /\ @spec_shape Sample.env (py "Hola, 2 veces.") = Returned (py " hola, dos veces.. ")
  /\ @infer Sample.env unit unit Sample.mute
       (py "voz.wav") [] (py "Hola, 2 veces.") (py "F5-TTS") false initial_world
     = (Raised ServiceError,
        World [] [Message system SYSTEM_PROMPT] [py " hola, dos veces.. "]).
Proof.
  split; [reflexivity|]. split; [reflexivity|].
  exact (proj2 (proj2 (@infer_double_stop Sample.env unit unit Sample.mute
                         (py "voz.wav") [] (py "Hola, 2 veces.") (py "F5-TTS")
                         false initial_world (py "voz.wav") []
                         (py " hola, dos veces.. ") eq_refl eq_refl eq_refl))
               ServiceError eq_refl).
Defined.

(* ===================================================================== *)
(** ** Further properties of the conversation handlers *)
(* ===================================================================== *)

Section HandlersMore.
Context {E : PyEnv}.
Context {Wave Spectro : Type}.
Variable svc : Services Wave Spectro.

Lemma no_index_error_raised {A B} (r : outcome A) e :
  r = Raised e -> no_index_error r -> @no_index_error B (Raised e).
Proof. intros -> H Hc. apply H. now inversion Hc. Qed.

Lemma infer_gen_text_raises gen_text e :
  infer_gen_text gen_text = Raised e -> e = ValueError \/ e = OverflowError.
Proof. unfold infer_gen_text. apply traducir_raises. Qed.

Lemma infer_no_index_error ref_audio_orig ref_text gen_text model rs w :
  services_no_index_error svc ->
  no_index_error (fst (infer svc ref_audio_orig ref_text gen_text model rs w)).
Proof.
  intros (Hpre & _ & Hinf & Hrem & Hsave). rewrite infer_cases.
  destruct (preprocess_ref_audio_text svc ref_audio_orig ref_text)
    as [[ref_audio ref_text']|e] eqn:H1; cbn;
    [|exact (no_index_error_raised H1 (Hpre _ _))].
  destruct (infer_gen_text gen_text) as [shaped|e] eqn:H0; cbn.
  2:{ destruct (infer_gen_text_raises _ H0) as [-> | ->]; discriminate. }
  destruct (infer_process svc ref_audio ref_text' shaped)
    as [[[wave rate] spectro]|e] eqn:H2; cbn;
    [|exact (no_index_error_raised H2 (Hinf _ _ _))].
  destruct rs; cbn.
  - destruct (remove_silence_for_generated_wav svc wave rate) eqn:H3; cbn;
      [|exact (no_index_error_raised H3 (Hrem _ _))].
    destruct (save_spectrogram svc spectro) eqn:H4; cbn;
      [discriminate | exact (no_index_error_raised H4 (Hsave _))].
  - destruct (save_spectrogram svc spectro) eqn:H4; cbn;
      [discriminate | exact (no_index_error_raised H4 (Hsave _))].
Qed.

(** What [generate_audio_response] passes to the synthesis. *)
Lemma generate_audio_response_synthesized ref_audio ref_text model rs w :
  let w' := snd (generate_audio_response svc ref_audio ref_text model rs w) in
  synthesized w' = synthesized w
  \/ exists rest u r shaped,
      history w = rest ++ [(u, Some r)]
      /\ truthy r = true /\ truthy_opt ref_audio = true
      /\ spec_shape r = Returned shaped
      /\ synthesized w' = shaped :: synthesized w.
Proof.
  unfold generate_audio_response, bind, get_history.
  destruct (truthy_opt ref_audio) eqn:Hra;
    [|rewrite orb_true_r; left; reflexivity].
  destruct (negb (truthy_list (history w))); [left; reflexivity|]. cbn [orb negb].
  unfold get_last. destruct (rev (history w)) as [|[lu la] r'] eqn:Hrev;
    [left; reflexivity|].
  cbn [ret]. destruct la as [r|]; [|left; reflexivity].
  cbn [truthy_opt]. destruct (truthy r) eqn:Hr; [|left; reflexivity]. cbn [negb].
  match goal with
  | |- context [infer ?s ?a ?b ?c ?d ?e w] =>
      pose proof (infer_synthesized s a b c d e w) as (_ & _ & Hi);
      destruct (infer s a b c d e w) as [[[ar sp]|ex] w1]
  end; cbn in *.
  all: destruct Hi as [Hi | (shaped & Hshape & Hi)]; [left; exact Hi|].
  all: rewrite infer_gen_text_spec in Hshape.
  all: right; exists (rev r'), lu, r, shaped; repeat split; try assumption.
  all: now rewrite <- (rev_involutive (history w)), Hrev.
Qed.

(** With a last reply that is not empty and a reference audio,
    [generate_audio_response] is the call of [infer] on that reply. *)
Lemma generate_audio_response_speaks p ref_text model rs w rest u r :
  history w = rest ++ [(u, Some r)] ->
  truthy r = true -> truthy p = true ->
  generate_audio_response svc (Some p) ref_text model rs w
  = match infer svc p ref_text r model rs w with
    | (Returned (audio_result, _), w') => (Returned (Some audio_result), w')
    | (Raised e, w') => (Raised e, w')
    end.
Proof.
  intros Hh Hr Hp.
  assert (Ht : truthy_list (history w) = true) by (rewrite Hh; now destruct rest).
  assert (Hrev : rev (history w) = (u, Some r) :: rev rest)
    by (now rewrite Hh, rev_app_distr).
  unfold generate_audio_response, bind, get_history.
  cbn [truthy_opt]. rewrite Ht, Hp. cbn [negb orb].
  unfold get_last. rewrite Hrev. cbn [ret truthy_opt]. rewrite Hr. cbn [negb].
  now destruct (infer svc p ref_text r model rs w) as [[[ar sp]|ex] w1].
Qed.

(** There, once the reference audio is prepared: the shaping raises and
    nothing is passed on, or [infer_process] is called with the shaped
    reply. *)
Lemma generate_audio_response_shaped p ref_text model rs w rest u r
      ref_audio' ref_text' :
  history w = rest ++ [(u, Some r)] ->
  truthy r = true -> truthy p = true ->
  preprocess_ref_audio_text svc p ref_text = Returned (ref_audio', ref_text') ->
  let run := generate_audio_response svc (Some p) ref_text model rs w in
  (forall e, spec_shape r = Raised e -> run = (Raised e, w))
  /\ (forall shaped,
         spec_shape r = Returned shaped ->
         synthesized (snd run) = shaped :: synthesized w
         /\ (forall e,
                infer_process svc ref_audio' ref_text' shaped = Raised e ->
                run = (Raised e,
                       World (history w) (conv_state w) (shaped :: synthesized w)))).
Proof.
  intros Hh Hr Hp Hpre run. subst run.
  rewrite (@generate_audio_response_speaks p ref_text model rs w rest u r Hh Hr Hp).
  destruct (@infer_cases_shaped E Wave Spectro svc p ref_text r model rs w
              ref_audio' ref_text' Hpre) as [Hraise Hret].
  split.
  - intros e He. now rewrite (Hraise e He).
  - intros shaped Hs. destruct (Hret shaped Hs) as [Hsyn Hinf]. split.
    + destruct (infer svc p ref_text r model rs w) as [[[ar sp]|ex] w1];
        exact Hsyn.
    + intros e He. now rewrite (Hinf e He).
Qed.

Lemma generate_audio_response_no_index_error ref_audio ref_text model rs w :
  services_no_index_error svc ->
  no_index_error (fst (generate_audio_response svc ref_audio ref_text model rs w)).
Proof.
  intros Hsvc. unfold generate_audio_response, bind, get_history.
  destruct (history w) as [|e0 h] eqn:Hh; [cbn; discriminate|].
  cbn [truthy_list negb orb].
  destruct (negb (truthy_opt ref_audio)); [cbn; discriminate|].
  unfold get_last. destruct (rev (e0 :: h)) as [|[lu la] r'] eqn:Hrev.
  { apply (f_equal (@length _)) in Hrev. rewrite length_rev in Hrev. discriminate. }
  cbn [ret]. destruct (negb (truthy_opt la)); [cbn; discriminate|].
  match goal with
  | |- context [infer ?s ?a ?b ?c ?d ?e ?w0] =>
      pose proof (infer_no_index_error a b c d e w0 Hsvc) as Hi;
      destruct (infer s a b c d e w0) as [[[ar sp]|ex] w1]
  end; cbn in *; [discriminate | exact (no_index_error_raised eq_refl Hi)].
Qed.

Lemma process_audio_input_no_index_error audio_path text w :
  services_no_index_error svc ->
  no_index_error (fst (process_audio_input svc audio_path text w)).
Proof.
  intros (Hpre & Hgen & _).
  destruct (process_audio_input_cases svc audio_path text w)
    as [(p & e & _ & _ & Hr & ->) | [-> | (t & _ & ->)]]; cbn [fst].
  - exact (no_index_error_raised Hr (Hpre _ _)).
  - discriminate.
  - destruct (generate_response svc (conv_state w ++ [Message user t])) eqn:Hg;
      cbn [fst]; [discriminate | exact (no_index_error_raised Hg (Hgen _))].
Qed.

End HandlersMore.

Section InvariantMore.
Context {E : PyEnv}.

(** The log is the prompt and then the pairs of the transcript, and no
    user text is blank. *)
Lemma reachable_lock_step {Wave Spectro} w :
  @reachable E Wave Spectro w ->
  (exists prompt,
      conv_state w = Message system prompt :: flat_map pair_messages (history w))
  /\ forallb (fun e => truthy (strip (fst e))) (history w) = true.
Proof.
  induction 1 as [|svc ap text w res w' _ IH Hrun
                  |svc ra rt m rs w res w' _ IH Hrun|w _ IH|p w _ IH].
  - split; [exists SYSTEM_PROMPT; reflexivity | reflexivity].
  - destruct (process_audio_input_returned _ _ _ _ Hrun)
      as [_ [->|(t & r & Ht & ->)]]; [exact IH|].
    destruct IH as [[prompt Hlog] Hne]. cbn [history conv_state]. split.
    + exists prompt. rewrite Hlog, flat_map_app. reflexivity.
    + rewrite forallb_app. apply andb_true_iff. split; [exact Hne|].
      cbn [forallb fst]. now rewrite Ht.
  - pose proof (generate_audio_response_keeps svc ra rt m rs w) as Hk.
    rewrite Hrun in Hk. cbn in Hk. destruct Hk as [-> ->]. exact IH.
  - split; [exists SYSTEM_PROMPT; reflexivity | reflexivity].
  - split; [exists p; reflexivity | reflexivity].
Qed.

End InvariantMore.

(** X10.  However a call of [process_audio_input] ends, by return or by
    an exception, the transcript and the log it was given are still there
    as the beginning of what it leaves: it has added at most one pair and at
    most two messages, and changed nothing before them. *)
Theorem process_audio_input_appends {Wave Spectro : Type}
        (svc : Services Wave Spectro) (audio_path : option str) (text : str)
        (w : world) :
  let w' := snd (process_audio_input svc audio_path text w) in
  exists pairs messages,
    history w' = history w ++ pairs
    /\ conv_state w' = conv_state w ++ messages
    /\ (length pairs <= 1)%nat /\ (length messages <= 2)%nat
    /\ synthesized w' = synthesized w.
Proof.
  cbv zeta.
  destruct (process_audio_input_cases svc audio_path text w)
    as [(p & e & _ & _ & _ & ->) | [-> | (t & _ & ->)]]; cbn [snd].
  - exists [], []. rewrite !app_nil_r. repeat split; cbn; lia.
  - exists [], []. rewrite !app_nil_r. repeat split; cbn; lia.
  - destruct (generate_response svc (conv_state w ++ [Message user t])) as [r|e];
      cbn [snd history conv_state synthesized].
    + exists [(t, Some r)], [Message user t; Message assistant r].
      repeat split; cbn; lia.
    + exists [(t, None)], [Message user t]. repeat split; cbn; lia.
Qed.

(** X11.  When the call ends by an exception in a session where every
    turn so far is complete, either nothing was changed or the text
    generation raised: then the user message and a pending pair are left at
    the end, that pair is the only pending one, and the transcript is one
    pair longer than (length of the log - 1) / 2. *)
Theorem process_audio_input_failed_turn {Wave Spectro : Type}
        (svc : Services Wave Spectro) (audio_path : option str) (text : str)
        (w w' : world) (e : exn) :
  settled w ->
  process_audio_input svc audio_path text w = (Raised e, w') ->
  w' = w
  \/ exists t,
      generate_response svc (conv_state w ++ [Message user t]) = Raised e
      /\ history w' = history w ++ [(t, None)]
      /\ conv_state w' = conv_state w ++ [Message user t]
      /\ pending_only_last (history w')
      /\ length (history w') = S ((length (conv_state w') - 1) / 2).
Proof.
  intros (_ & Hlen & Hfilled) Hrun.
  destruct (process_audio_input_cases svc audio_path text w)
    as [(p & e0 & _ & _ & _ & Hc) | [Hc | (t & _ & Hc)]];
    rewrite Hc in Hrun.
  - inversion Hrun. auto.
  - discriminate.
  - destruct (generate_response svc (conv_state w ++ [Message user t]))
      as [r|e0] eqn:Hg; [discriminate|].
    inversion Hrun. subst. right. exists t. cbn [history conv_state].
    split; [exact Hg|]. split; [reflexivity|]. split; [reflexivity|]. split.
    + intros i Hi. rewrite length_app in Hi. cbn in Hi.
      rewrite app_nth1 by lia.
      rewrite forallb_forall in Hfilled.
      apply negb_true_iff, Hfilled, nth_In. lia.
    + rewrite !length_app, Hlen. cbn [length].
      replace (2 * length (history w) + 1 + 1 - 1)%nat
        with (1 + length (history w) * 2)%nat by lia.
      rewrite Nat.div_add by lia. cbn. lia.
Qed.

Lemma process_audio_input_failed_turn_witness :
  settled initial_world
  /\ process_audio_input MoreSamples.speechless None (py "hola") initial_world
     = (Raised ServiceError,
        World [(py "hola", None)]
              [Message system SYSTEM_PROMPT; Message user (py "hola")] [])
  /\ length [(py "hola", @None str)]
     = S ((length [Message system SYSTEM_PROMPT; Message user (py "hola")] - 1) / 2).
Proof.
  split; [exact settled_initial|]. split; [reflexivity|].
  destruct (@process_audio_input_failed_turn unit unit MoreSamples.speechless
              None (py "hola") initial_world _ ServiceError
              settled_initial eq_refl)
    as [H | (t & _ & _ & _ & _ & H)]; [discriminate H | reflexivity].
Defined.

(** X12.  In every state a session reaches, the log is the system
    message followed, pair by pair and in order, by the user text and the
    reply of each pair of the transcript. *)
Theorem conversation_lock_step {E : PyEnv} {Wave Spectro : Type} (w : world) :
  @reachable E Wave Spectro w ->
  exists prompt,
    conv_state w = Message system prompt :: flat_map pair_messages (history w).
Proof. intros H. exact (proj1 (reachable_lock_step H)). Qed.

Lemma conversation_lock_step_witness :
  @reachable Sample.env unit unit Sample.after_hola
  /\ conv_state Sample.after_hola
     = Message system SYSTEM_PROMPT
         :: flat_map pair_messages (history Sample.after_hola).
Proof.
  assert (Hr : @reachable Sample.env unit unit Sample.after_hola).
  { eapply (@reach_turn Sample.env unit unit Sample.echo None (py "hola"));
      [apply reach_init | reflexivity]. }
  split; [exact Hr|].
  destruct (conversation_lock_step Hr) as [prompt H]. reflexivity.
Defined.

(** X13.  In every state a session reaches, no pair of the transcript has
    a user text that is empty or white space only. *)
Theorem conversation_no_blank_turn {E : PyEnv} {Wave Spectro : Type} (w : world) :
  @reachable E Wave Spectro w ->
  forallb (fun e => truthy (strip (fst e))) (history w) = true.
Proof. intros H. exact (proj2 (reachable_lock_step H)). Qed.

Lemma conversation_no_blank_turn_witness :
  @reachable Sample.env unit unit Sample.after_hola
  /\ forallb (fun e => truthy (strip (fst e))) (history Sample.after_hola) = true.
Proof.
  assert (Hr : @reachable Sample.env unit unit Sample.after_hola).
  { eapply (@reach_turn Sample.env unit unit Sample.echo None (py "hola"));
      [apply reach_init | reflexivity]. }
  split; [exact Hr | exact (conversation_no_blank_turn Hr)].
Defined.

(** X14.  With an audio path, the typed text only goes to the
    transcription: the call does what it does without audio on the
    transcribed text. *)
Theorem process_audio_input_spoken {Wave Spectro : Type}
        (svc : Services Wave Spectro) (p text ref_audio transcript : str)
        (w : world) :
  truthy p = true ->
  preprocess_ref_audio_text svc p text = Returned (ref_audio, transcript) ->
  process_audio_input svc (Some p) text w
  = process_audio_input svc None transcript w.
Proof.
  intros Hp Hr. unfold process_audio_input. cbn [truthy_opt]. rewrite Hp, Hr.
  cbn [negb andb].
  match goal with
  | |- ?L = ?R =>
      let L' := eval cbv beta delta [bind call ret] iota in L in change (L' = R)
  end.
  cbn [snd]. destruct (negb (truthy (strip transcript))) eqn:Ht; [reflexivity|].
  match goal with
  | |- ?L = ?R =>
      let R' := eval cbv beta delta [bind call ret] iota in R in change (L = R')
  end.
  rewrite Ht. reflexivity.
Qed.

Lemma process_audio_input_spoken_witness :
  truthy (py "voz.wav") = true
  /\ preprocess_ref_audio_text MoreSamples.listener (py "voz.wav") (py "otra cosa")
     = Returned (py "voz.wav", py "hola")
  /\ process_audio_input MoreSamples.listener (Some (py "voz.wav"))
                         (py "otra cosa") initial_world
     = process_audio_input MoreSamples.listener None (py "hola") initial_world.
Proof.
  split; [reflexivity|]. split; [reflexivity|].
  apply (@process_audio_input_spoken unit unit MoreSamples.listener
           (py "voz.wav") (py "otra cosa") (py "voz.wav") (py "hola"));
    reflexivity.
Defined.

(** X15.  The list accesses of the two handlers are always in range: with
    collaborators that raise no [IndexError], neither [process_audio_input]
    (line 270, [history[-1] = ...]) nor [generate_audio_response] (line
    280, [history[-1]]) raises one. *)
Theorem handlers_index_in_range {E : PyEnv} {Wave Spectro : Type}
        (svc : Services Wave Spectro) :
  services_no_index_error svc ->
  (forall audio_path text w,
      no_index_error (fst (process_audio_input svc audio_path text w)))
  /\ (forall ref_audio ref_text model remove_silence w,
         no_index_error
           (fst (generate_audio_response svc ref_audio ref_text model
                                         remove_silence w))).
Proof.
  intros H. split; intros.
  - now apply process_audio_input_no_index_error.
  - now apply generate_audio_response_no_index_error.
Qed.

Lemma handlers_index_in_range_witness :
  services_no_index_error Sample.mute
  /\ fst (@generate_audio_response Sample.env unit unit Sample.mute
            (Some (py "voz.wav")) [] (py "F5-TTS") true Sample.after_hola)
     = Raised ServiceError
  /\ no_index_error
       (fst (@generate_audio_response Sample.env unit unit Sample.mute
               (Some (py "voz.wav")) [] (py "F5-TTS") true Sample.after_hola)).
Proof.
  assert (H : services_no_index_error Sample.mute)
    by (repeat split; intros; discriminate).
  split; [exact H|]. split; [reflexivity|].
  apply (proj2 (@handlers_index_in_range Sample.env unit unit Sample.mute H)).
Defined.

(** X16.  [generate_audio_response] calls [infer_process] at most once,
    and only with the reply of the last pair of the transcript as [infer]
    shapes it: not at all when the transcript is empty, the reference audio
    is missing, or that reply is missing or empty.  When the last reply is
    not empty and the reference audio is there and can be prepared, either
    the shaping raises (a number in the reply has no spelling), and then
    the handler raises the same and [infer_process] is not called, or
    [infer_process] is called with the shaped reply, and what it raises the
    handler raises. *)
Theorem generate_audio_response_last_reply {E : PyEnv} {Wave Spectro : Type}
        (svc : Services Wave Spectro) (ref_audio : option str)
        (ref_text model : str) (remove_silence : bool) (w : world) :
  let run := generate_audio_response svc ref_audio ref_text model
                                     remove_silence w in
  (synthesized (snd run) = synthesized w
   \/ exists rest u r shaped,
       history w = rest ++ [(u, Some r)]
       /\ truthy r = true /\ truthy_opt ref_audio = true
       /\ spec_shape r = Returned shaped
       /\ synthesized (snd run) = shaped :: synthesized w)
  /\ (forall p rest u r ref_audio' ref_text',
         ref_audio = Some p -> truthy p = true ->
         history w = rest ++ [(u, Some r)] -> truthy r = true ->
         preprocess_ref_audio_text svc p ref_text
         = Returned (ref_audio', ref_text') ->
         (forall e, spec_shape r = Raised e -> run = (Raised e, w))
         /\ (forall shaped,
                spec_shape r = Returned shaped ->
                synthesized (snd run) = shaped :: synthesized w
                /\ (forall e,
                       infer_process svc ref_audio' ref_text' shaped = Raised e ->
                       run = (Raised e,
                              World (history w) (conv_state w)
                                    (shaped :: synthesized w))))).
Proof.
  cbv zeta. split.
  - apply generate_audio_response_synthesized.
  - intros p rest u r ref_audio' ref_text' -> Hp Hh Hr Hx.
    exact (@generate_audio_response_shaped E Wave Spectro svc p ref_text model
             remove_silence w rest u r ref_audio' ref_text' Hh Hr Hp Hx).
Qed.

Lemma generate_audio_response_last_reply_witness :
  history Sample.after_hola = [] ++ [(py "hola", Some (py "Hola, 2 veces."))]
  /\ preprocess_ref_audio_text Sample.mute (py "voz.wav") []
     = Returned (py "voz.wav", [])
  /\ @spec_shape Sample.env (py "Hola, 2 veces.") = Returned (py " hola, dos veces.. ")
  /\ @generate_audio_response Sample.env unit unit Sample.mute
       (Some (py "voz.wav")) [] (py "F5-TTS") true Sample.after_hola
     = (Raised ServiceError,
        World (history Sample.after_hola) (conv_state Sample.after_hola)
              [py " hola, dos veces.. "]).
Proof.
  split; [reflexivity|]. split; [reflexivity|]. split; [reflexivity|].
  exact (proj2 (proj2 (proj2 (@generate_audio_response_last_reply Sample.env unit unit
                                Sample.mute (Some (py "voz.wav")) [] (py "F5-TTS")
                                true Sample.after_hola)
                             (py "voz.wav") [] (py "hola") (py "Hola, 2 veces.")
                             (py "voz.wav") []
                             eq_refl eq_refl eq_refl eq_refl eq_refl)
                      (py " hola, dos veces.. ") eq_refl)
               ServiceError eq_refl).
Defined.

(** X17.  A typed turn followed by the synthesis request, as the events
    chain them: if the chat model returns a reply, the transcript ends with
    the typed text and that reply.  If the reply is empty the request
    returns [None] and [infer_process] is not called.  If it is not empty
    and the reference audio can be prepared, either the shaping of the
    reply raises, and the request raises the same without calling
    [infer_process] (the turn stays in the transcript), or [infer_process]
    is called with the reply as [infer] shapes it. *)
Theorem turn_then_speech {E : PyEnv} {Wave Spectro : Type}
        (svc : Services Wave Spectro) (text reply p ref_text model : str)
        (remove_silence : bool) (w : world) :
  truthy (strip text) = true ->
  generate_response svc (conv_state w ++ [Message user text]) = Returned reply ->
  truthy p = true ->
  let w1 := snd (process_audio_input svc None text w) in
  let speech := generate_audio_response svc (Some p) ref_text model
                                        remove_silence w1 in
  history w1 = history w ++ [(text, Some reply)]
  /\ synthesized w1 = synthesized w
  /\ (truthy reply = false -> speech = (Returned None, w1))
  /\ (truthy reply = true ->
      forall ref_audio' ref_text',
        preprocess_ref_audio_text svc p ref_text
        = Returned (ref_audio', ref_text') ->
        (forall e, spec_shape reply = Raised e -> speech = (Raised e, w1))
        /\ (forall shaped,
               spec_shape reply = Returned shaped ->
               synthesized (snd speech) = shaped :: synthesized w
               /\ (forall e,
                      infer_process svc ref_audio' ref_text' shaped = Raised e ->
                      speech = (Raised e,
                                World (history w1) (conv_state w1)
                                      (shaped :: synthesized w))))).
Proof.
  intros Ht Hg Hp.
  assert (Hrun : process_audio_input svc None text w
                 = (Returned (history w ++ [(text, Some reply)],
                              conv_state w ++ [Message user text; Message assistant reply],
                              []),
                    World (history w ++ [(text, Some reply)])
                          (conv_state w ++ [Message user text; Message assistant reply])
                          (synthesized w))).
  { unfold process_audio_input. cbn [truthy_opt negb andb]. rewrite Ht.
    cbn [negb andb].
    match goal with
    | |- ?L = ?R =>
        let L' := eval cbv beta delta [bind call ret] iota in L in change (L' = R)
    end.
    rewrite Ht. cbn [negb].
    unfold append_user_turn, complete_turn, bind, conv_state_append,
      history_append, get_conv_state, get_history, call, ret.
    cbn [history conv_state synthesized]. rewrite Hg.
    rewrite history_set_last_app. cbn [history conv_state synthesized].
    now rewrite <- app_assoc. }
  cbv zeta. rewrite Hrun. cbn [snd]. split; [reflexivity|].
  split; [reflexivity|]. split.
  - intros Hr. unfold generate_audio_response, bind, get_history, get_last.
    cbn [history truthy_opt]. rewrite Hp.
    replace (truthy_list (history w ++ [(text, Some reply)])) with true
      by (now destruct (history w)).
    cbn [negb orb]. rewrite rev_app_distr. cbn [rev app ret truthy_opt].
    rewrite Hr. reflexivity.
  - intros Hr ref_audio' ref_text' Hx.
    exact (@generate_audio_response_shaped E Wave Spectro svc p ref_text model
             remove_silence
             (World (history w ++ [(text, Some reply)])
                    (conv_state w ++ [Message user text; Message assistant reply])
                    (synthesized w))
             (history w) text reply ref_audio' ref_text' eq_refl Hr Hp Hx).
Qed.

Lemma turn_then_speech_witness :
  truthy (strip (py "hola")) = true
  /\ generate_response MoreSamples.countless
       (conv_state initial_world ++ [Message user (py "hola")])
     = Returned (py "Son 1000000000000000000000000000.")
  /\ truthy (py "voz.wav") = true
  /\ @spec_shape Sample.env (py "Son 1000000000000000000000000000.")
     = Raised OverflowError
  /\ @generate_audio_response Sample.env unit unit MoreSamples.countless
       (Some (py "voz.wav")) [] (py "F5-TTS") true
       (snd (process_audio_input MoreSamples.countless None (py "hola") initial_world))
     = (Raised OverflowError,
        snd (process_audio_input MoreSamples.countless None (py "hola") initial_world)).
Proof.
  split; [reflexivity|]. split; [reflexivity|]. split; [reflexivity|].
  split; [vm_compute; reflexivity|].
  refine (proj1 (proj2 (proj2 (proj2 (@turn_then_speech Sample.env unit unit
                                        MoreSamples.countless
                                        (py "hola")
                                        (py "Son 1000000000000000000000000000.")
                                        (py "voz.wav") [] (py "F5-TTS") true
                                        initial_world eq_refl eq_refl eq_refl)))
                       eq_refl (py "voz.wav") [] eq_refl)
                OverflowError _).
  vm_compute. reflexivity.
Defined.

(* ===================================================================== *)
(** ** The chat model *)
(* ===================================================================== *)

Lemma skipn_prompt {A} (p n : list A) : skipn (length p) (p ++ n) = n.
Proof. induction p as [|a p IH]; [reflexivity | exact IH]. Qed.

Lemma skip_prompts prompts : forall news,
  length prompts = length news ->
  map (fun '(input_ids, output_ids) => skipn (length input_ids) output_ids)
      (combine prompts (continue_rows prompts news))
  = news.
Proof.
  unfold continue_rows.
  induction prompts as [|p prompts IH]; intros [|n news] H; try discriminate.
  - reflexivity.
  - cbn [combine map]. rewrite skipn_prompt. f_equal. apply IH.
    now inversion H.
Qed.

(** X18.  The reply is decoded from the generated tokens only: when each
    row the model returns is a prompt row followed by new tokens,
    [generate_response] decodes the new tokens and returns the first
    decoded text, or raises [IndexError] if the decoded batch is empty. *)
Theorem generate_response_strips_prompt (cm : ChatModel) (messages : list message)
        (text : str) (prompts news : list (list N)) :
  apply_chat_template cm messages = Returned text ->
  tokenize cm [text] = Returned prompts ->
  length prompts = length news ->
  generate cm prompts = Returned (continue_rows prompts news) ->
  Chat.generate_response cm messages
  = and_then (batch_decode cm news)
             (fun decoded =>
                match decoded with
                | [] => Raised IndexError
                | reply :: _ => Returned reply
                end).
Proof.
  intros Ht Hp Hlen Hg. unfold Chat.generate_response.
  rewrite Ht. cbn [and_then]. rewrite Hp. cbn [and_then]. rewrite Hg.
  cbn [and_then]. now rewrite skip_prompts.
Qed.

Lemma generate_response_strips_prompt_witness :
  apply_chat_template MoreSamples.parrot [Message user (py "hola")]
  = Returned (py "<|im_start|>")
  /\ tokenize MoreSamples.parrot [py "<|im_start|>"] = Returned [py "<|im_start|>"]
  /\ length [py "<|im_start|>"] = length [py "Hol"]
  /\ generate MoreSamples.parrot [py "<|im_start|>"]
     = Returned (continue_rows [py "<|im_start|>"] [py "Hol"])
  /\ Chat.generate_response MoreSamples.parrot [Message user (py "hola")]
     = Returned (py "Hol").
Proof.
  repeat (split; [reflexivity|]).
  exact (@generate_response_strips_prompt MoreSamples.parrot
           [Message user (py "hola")] (py "<|im_start|>") [py "<|im_start|>"]
           [py "Hol"] eq_refl eq_refl eq_refl eq_refl).
Defined.

(** X19.  [load_chat_model] loads only while [chat_model_state] is
    [None].  From the globals as they start, a call that returns leaves
    model and tokenizer set and shows the chat interface.  If a call raised
    after the model was set (the tokenizer could not be loaded), every
    later call returns at once and shows the chat interface, loading
    nothing: the tokenizer stays as it was. *)
Theorem load_chat_model_once {Model Tokenizer : Type}
        (ld : Loaders Model Tokenizer) (g g' : chat_globals Model Tokenizer) :
  chat_model_state g = None ->
  (forall res,
      chat_tokenizer_state g = None ->
      load_chat_model ld g = (Returned res, g') ->
      res = (false, true)
      /\ chat_model_state g' <> None /\ chat_tokenizer_state g' <> None)
  /\ (forall e,
         load_chat_model ld g = (Raised e, g') ->
         chat_model_state g' <> None ->
         tokenizer_from_pretrained ld MODEL_NAME = Raised e
         /\ chat_tokenizer_state g' = chat_tokenizer_state g
         /\ forall ld', load_chat_model ld' g' = (Returned (false, true), g')).
Proof.
  intros Hm. unfold load_chat_model. rewrite Hm. split.
  - intros res Ht.
    destruct (model_from_pretrained ld MODEL_NAME) as [m|e]; [|discriminate].
    destruct (tokenizer_from_pretrained ld MODEL_NAME) as [t|e]; [|discriminate].
    intros H. inversion H. subst. cbn. repeat split; discriminate.
  - intros e.
    destruct (model_from_pretrained ld MODEL_NAME) as [m|e0].
    + destruct (tokenizer_from_pretrained ld MODEL_NAME) as [t|e0];
        [discriminate|].
      intros H _. inversion H. subst. cbn.
      repeat split.
    + intros H Hne. inversion H. subst. cbn in Hne. congruence.
Qed.

Lemma load_chat_model_once_witness :
  load_chat_model MoreSamples.broken_tokenizer initial_globals
  = (Raised ServiceError,
     ChatGlobals (Some tt) None [py "Cargando modelo de chat..."])
  /\ load_chat_model MoreSamples.working
       (ChatGlobals (Some tt) None [py "Cargando modelo de chat..."])
     = (Returned (false, true),
        ChatGlobals (Some tt) (@None unit) [py "Cargando modelo de chat..."]).
Proof.
  split; [reflexivity|].
  refine (proj2 (proj2 (proj2 (@load_chat_model_once unit unit
                                 MoreSamples.broken_tokenizer initial_globals
                                 (ChatGlobals (Some tt) None
                                    [py "Cargando modelo de chat..."])
                                 eq_refl)
                              ServiceError eq_refl _))
                MoreSamples.working).
  discriminate.
Defined.
